(** * Optical soundtrack reader: the image-to-waveform pipeline

    A shallow embedding of [src/js/image-processor.js] (the object
    [ImageProcessor]) and the properties of its stages.

    Numbers.  The JavaScript code computes on IEEE doubles and stores
    intermediate fields in [Float32Array]s.  The embedding computes on
    rationals ([Q]); there is no infinity and no NaN.  The decimal literals
    of the source ([0.299], [0.01], ...) are the rationals they denote.
    The stages of the pipeline are embedded with exact operations, a store
    into a [Float32Array] being [fstore], which keeps the value and puts the
    fraction in lowest terms.  Where the outcome of a comparison hangs on
    the last bit of a double (the variances that [otsuThreshold] compares,
    the region of [ROISelector], the sum of [checkSumOf42]) every operation
    is followed by [double], the rounding of binary64: 53 significant bits,
    to nearest, ties to even; its exponent range is not modelled (no
    overflow, no subnormal numbers), and these computations stay far from
    both.  Integer quantities (indices, counts, the 8-bit channels) are
    [nat] or [Z].

    Arrays are lists.  A read outside an array gives [undefined] in
    JavaScript; each read below says what the model does there. *)

From Stdlib Require Import String Ascii.
From Stdlib Require Import Reals Qreals.
From Stdlib Require Import ZArith QArith Qabs Qround Qreduction Qpower.
From Stdlib Require Import List Bool Lia Lqa.
From Corelib Require PrimInt63 PrimFloat FloatOps SpecFloat.
Import ListNotations.

(** ** Data model *)

(** [ImageData]: [data] is a [Uint8ClampedArray] of RGBA bytes, row-major. *)
Record ImageData := mkImageData {
  img_data : list Z;
  img_width : Z;
  img_height : Z
}.

(** The region of interest, [roiBounds] in the source. *)
Record Bounds := mkBounds {
  roi_x : Z;
  roi_y : Z;
  roi_width : Z;
  roi_height : Z
}.

(** The messages of the [Error]s thrown by [extractWaveform].  The source
    throws ['ROI_TOO_SMALL'] and ['NO_VARIATION'] only; [MALFORMED_INPUT] is
    the third kind of the error taxonomy and has no throw site. *)
Inductive Error := ROI_TOO_SMALL | NO_VARIATION | MALFORMED_INPUT.

Inductive Outcome (A : Type) :=
| Return (a : A)
| Throw (e : Error).
Arguments Return {A} a.
Arguments Throw {A} e.

(** ** Numbers and arrays *)

Open Scope Q_scope.

(** A store into a [Float32Array]. *)
Definition fstore (q : Q) : Q := Qred q.

(** A store into a [Uint8ClampedArray]: clamped to [0, 255]. *)
Definition clamp8 (v : Z) : Z := Z.min 255 (Z.max 0 v).

(** [dest[..] = srcData[i]] where [dest] is a [Uint8ClampedArray]: a read
    outside the source (negative index or past the end) is [undefined], which
    the clamped array stores as 0. *)
Definition readByte (srcData : list Z) (i : Z) : Z :=
  if (i <? 0)%Z then 0%Z
  else match nth_error srcData (Z.to_nat i) with
       | Some v => clamp8 v
       | None => 0%Z
       end.

(** [a < b] and [a <= b] on numbers, as booleans. *)
Definition Qltb (a b : Q) : bool := negb (Qle_bool b a).

(** *** Doubles

    The result of an arithmetic operation on doubles is the exact result,
    rounded.  [ilog2] is the exponent of the leading bit of a positive
    number, [roundEven] the nearest integer (a tie going to the even one),
    and [double] keeps 53 significant bits. *)
Definition ilog2 (q : Q) : Z :=
  let l := (Z.log2 (Qnum q) - Z.log2 (Zpos (Qden q)))%Z in
  if Qltb q (2 ^ l) then (l - 1)%Z else l.

Definition roundEven (q : Q) : Z :=
  let f := Qfloor q in
  let r := q - inject_Z f in
  if Qltb r (1 # 2) then f
  else if Qltb (1 # 2) r then (f + 1)%Z
  else if Z.even f then f else (f + 1)%Z.

Definition double (q : Q) : Q :=
  let r := Qred q in
  if (Qnum r =? 0)%Z then 0
  else
    let e := (ilog2 (Qabs r) - 52)%Z in
    Qred (inject_Z (roundEven (r / 2 ^ e)) * 2 ^ e).

(** The running minimum and maximum of the two normalisation loops.  [None]
    is the initial [Infinity] (resp. [-Infinity]), which every number beats. *)
Definition stepMin (m : option Q) (v : Q) : option Q :=
  match m with
  | None => Some v
  | Some m' => if Qltb v m' then Some v else m
  end.

Definition stepMax (m : option Q) (v : Q) : option Q :=
  match m with
  | None => Some v
  | Some m' => if Qltb m' v then Some v else m
  end.

Definition minOf (l : list Q) : option Q := fold_left stepMin l None.
Definition maxOf (l : list Q) : option Q := fold_left stepMax l None.

(** [data.reduce((sum, val) => sum + val, 0)]. *)
Definition sumOf (l : list Q) : Q := fold_left Qplus l 0.

(** ** Stage 1: cropToROI *)

(** The nested loops write every index of [croppedData] (of length
    [width * height * 4]) exactly once: index [k] belongs to the pixel
    [k / 4] = [row * width + col] and to the channel [k mod 4]. *)
Definition cropToROI (imageData : ImageData) (bounds : Bounds) : list Z :=
  let x := roi_x bounds in
  let y := roi_y bounds in
  let width := Z.to_nat (roi_width bounds) in
  let height := Z.to_nat (roi_height bounds) in
  let srcData := img_data imageData in
  let srcWidth := img_width imageData in
  map (fun k =>
         let p := (k / 4)%nat in
         let row := Z.of_nat (p / width) in
         let col := Z.of_nat (p mod width) in
         let srcIdx := (((y + row) * srcWidth + (x + col)) * 4)%Z in
         readByte srcData (srcIdx + Z.of_nat (k mod 4)))
      (seq 0 (width * height * 4)).

(** ** Stage 2: toGrayscale *)

Definition chan (rgbaData : list Z) (i : nat) : Q := inject_Z (nth i rgbaData 0%Z).

Definition toGrayscale (rgbaData : list Z) : list Q :=
  let length := (length rgbaData / 4)%nat in
  map (fun i =>
         let idx := (i * 4)%nat in
         fstore ((299 # 1000) * chan rgbaData idx +
                 (587 # 1000) * chan rgbaData (idx + 1) +
                 (114 # 1000) * chan rgbaData (idx + 2)))
      (seq 0 length).

(** ** Stage 3: stretchContrast *)

Definition stretchContrast (grayscale : list Q) : list Q :=
  match minOf grayscale, maxOf grayscale with
  | Some min, Some max =>
      let range := max - min in
      if Qeq_bool range 0 then grayscale
      else map (fun v => fstore (((v - min) / range) * 255)) grayscale
  | _, _ => []  (* the empty field: no loop body runs *)
  end.

(** ** Stage 4: boxBlur *)

(** The offsets [-radius .. radius] of the two kernel loops. *)
Definition kernel (radius : nat) : list Z :=
  map (fun k => (Z.of_nat k - Z.of_nat radius)%Z) (seq 0 (radius * 2 + 1)).

(** One step of the innermost loop body on the pair [(sum, count)].  The
    read [data[ny * width + nx]] is guarded to lie in the [width * height]
    grid; on a field shorter than that the model reads 0. *)
Definition blurStep (data : list Q) (width height : nat) (y x : nat)
    (ky kx : Z) (acc : Q * Z) : Q * Z :=
  let ny := (Z.of_nat y + ky)%Z in
  let nx := (Z.of_nat x + kx)%Z in
  if ((0 <=? ny) && (ny <? Z.of_nat height) && (0 <=? nx) && (nx <? Z.of_nat width))%Z
  then (fst acc + nth (Z.to_nat (ny * Z.of_nat width + nx)) data 0, (snd acc + 1)%Z)
  else acc.

Definition blurAt (data : list Q) (width height radius : nat) (y x : nat) : Q :=
  let acc :=
    fold_left (fun acc ky =>
                 fold_left (fun acc kx => blurStep data width height y x ky kx acc)
                           (kernel radius) acc)
              (kernel radius) (0, 0%Z) in
  fst acc / inject_Z (snd acc).

(** [result] has [data.length] cells, initially 0; the loops write the cell
    [y * width + x] for every [y < height], [x < width], that is every index
    below [width * height] once; a write past the end of [result] is lost. *)
Definition boxBlur (data : list Q) (width height radius : nat) : list Q :=
  map (fun i =>
         if (i <? width * height)%nat
         then fstore (blurAt data width height radius (i / width) (i mod width))
         else 0)
      (seq 0 (length data)).

(** ** Stage 5: otsuThreshold *)

(** [Math.min(255, Math.max(0, Math.floor(v)))]. *)
Definition binOf (v : Q) : Z := Z.min 255 (Z.max 0 (Qfloor v)).

(** [histogram[bin]++]. *)
Fixpoint incrAt (bin : nat) (histogram : list Z) : list Z :=
  match histogram, bin with
  | [], _ => []
  | c :: h, O => (c + 1)%Z :: h
  | c :: h, S b => c :: incrAt b h
  end.

Definition histogramOf (grayscale : list Q) : list Z :=
  fold_left (fun h v => incrAt (Z.to_nat (binOf v)) h) grayscale (repeat 0%Z 256).

(** [histogram[t]] for a bin index [t]. *)
Definition bin (histogram : list Z) (t : Z) : Z := nth (Z.to_nat t) histogram 0%Z.

(** The candidate thresholds [0 .. 255] of the scan. *)
Definition candidates : list Z := map Z.of_nat (seq 0 256).

(** [sum += i * histogram[i]] for [i] from 0 to 255. *)
Definition weightedSum (histogram : list Z) : Z :=
  fold_left (fun s i => (s + i * bin histogram i)%Z) candidates 0%Z.

(** The variables of the scan. *)
Record OtsuState := mkOtsu {
  sumB : Z;
  wB : Z;
  wF : Z;
  maxVariance : Q;
  threshold : Z
}.

Definition otsuInit : OtsuState := mkOtsu 0 0 0 0 0.

(** [wB * wF * (mB - mF) * (mB - mF)] with [mB = sumB / wB] and
    [mF = (sum - sumB) / wF], on doubles: the two divisions, the
    subtraction and the three multiplications (from left to right) are
    rounded.  The counts and the brightness sums are integers, which the
    doubles hold exactly (they stay below [2 ^ 53] for any array), so are
    [wB += ..], [sumB += ..], [total - wB] and [sum - sumB]. *)
Definition classVariance (sum sumB wB wF : Z) : Q :=
  let mB := double (inject_Z sumB / inject_Z wB) in
  let mF := double (inject_Z (sum - sumB) / inject_Z wF) in
  let diff := double (mB - mF) in
  double (double (double (inject_Z wB * inject_Z wF) * diff) * diff).

(** The scan [for (t = 0; t < 256; t++)] over the candidates still to visit.
    The result is the final state and, when the loop was left through
    [break], the candidate at which it was. *)
Fixpoint otsuLoop (histogram : list Z) (total sum : Z) (ts : list Z)
    (s : OtsuState) : OtsuState * option Z :=
  match ts with
  | [] => (s, None)
  | t :: ts' =>
      let wB' := (wB s + bin histogram t)%Z in
      if (wB' =? 0)%Z then
        (* continue *)
        otsuLoop histogram total sum ts'
                 (mkOtsu (sumB s) wB' (wF s) (maxVariance s) (threshold s))
      else
        let wF' := (total - wB')%Z in
        if (wF' =? 0)%Z then
          (* break *)
          (mkOtsu (sumB s) wB' wF' (maxVariance s) (threshold s), Some t)
        else
          let sumB' := (sumB s + t * bin histogram t)%Z in
          let variance := classVariance sum sumB' wB' wF' in
          if Qltb (maxVariance s) variance
          then otsuLoop histogram total sum ts' (mkOtsu sumB' wB' wF' variance t)
          else otsuLoop histogram total sum ts'
                        (mkOtsu sumB' wB' wF' (maxVariance s) (threshold s))
  end.

(** The scan on a histogram, [total] being [grayscale.length]. *)
Definition otsuScan (histogram : list Z) (total : Z) : OtsuState * option Z :=
  otsuLoop histogram total (weightedSum histogram) candidates otsuInit.

Definition otsuThreshold (grayscale : list Q) : Z :=
  threshold (fst (otsuScan (histogramOf grayscale) (Z.of_nat (length grayscale)))).

(** ** Stage 6: findBoundaries *)

(** [value > threshold] and [value <= threshold] for [value = data[i]]; on a
    read outside [data] the value is [undefined] and both comparisons are
    false. *)
Definition isLight (data : list Q) (threshold : Q) (i : nat) : bool :=
  match nth_error data i with
  | Some value => Qltb threshold value
  | None => false
  end.

Definition isDark (data : list Q) (threshold : Q) (i : nat) : bool :=
  match nth_error data i with
  | Some value => Qle_bool value threshold
  | None => false
  end.

(** One scan loop over the columns [xs] still to visit, [test x] being
    [isLight] (first loop) or [isDark] (second loop) of the sample at column
    [x]; the pair is [(leftEdge, rightEdge)], [-1] meaning "not found".  The
    loop is left through [break] as soon as [rightEdge] is set. *)
Fixpoint scanRow (test : nat -> bool) (xs : list nat) (leftEdge rightEdge : Z)
    : Z * Z :=
  match xs with
  | [] => (leftEdge, rightEdge)
  | x :: xs' =>
      let hit := test x in
      let leftEdge' :=
        if hit && (leftEdge =? -1)%Z then Z.of_nat x else leftEdge in
      if negb hit && negb (leftEdge' =? -1)%Z && (rightEdge =? -1)%Z
      then (leftEdge', Z.of_nat x)
      else scanRow test xs' leftEdge' rightEdge
  end.

(** "If no right edge found but left edge exists, use width". *)
Definition closeEdge (width : nat) (e : Z * Z) : Z * Z :=
  if negb (fst e =? -1)%Z && (snd e =? -1)%Z then (fst e, Z.of_nat width) else e.

(** [leftEdge] and [rightEdge] of the row starting at [rowStart], after the
    light scan and, when that found no left edge, the dark scan. *)
Definition rowEdges (data : list Q) (width rowStart : nat) (threshold : Q)
    : Z * Z :=
  let e := closeEdge width
             (scanRow (fun x => isLight data threshold (rowStart + x))
                      (seq 0 width) (-1) (-1)) in
  if (fst e =? -1)%Z
  then closeEdge width
         (scanRow (fun x => isDark data threshold (rowStart + x))
                  (seq 0 width) (fst e) (snd e))
  else e.

(** The fallback of a row without edges: its average brightness over 255.
    (A read outside [data] counts 0 here.) *)
Definition rowBrightness (data : list Q) (width rowStart : nat) : Q :=
  let sum := fold_left (fun s x => s + nth (rowStart + x) data 0) (seq 0 width) 0 in
  (sum / inject_Z (Z.of_nat width)) / 255.

(** The value written to [waveform[y]], before the store. *)
Definition rowAmplitude (data : list Q) (width rowStart : nat) (threshold : Q) : Q :=
  let e := rowEdges data width rowStart threshold in
  if negb (fst e =? -1)%Z && negb (snd e =? -1)%Z
  then let trackWidth := (snd e - fst e)%Z in
       inject_Z trackWidth / inject_Z (Z.of_nat width)
  else rowBrightness data width rowStart.

Definition findBoundaries (data : list Q) (width height : nat) (threshold : Q)
    : list Q :=
  map (fun y => let rowStart := (y * width)%nat in
                fstore (rowAmplitude data width rowStart threshold))
      (seq 0 height).

(** ** Stage 7: standardDeviation *)

Definition meanOf (data : list Q) : Q :=
  sumOf data / inject_Z (Z.of_nat (length data)).

(** The [variance] of [standardDeviation]: the mean squared deviation. *)
Definition variance (data : list Q) : Q :=
  let mean := meanOf data in
  fold_left (fun sum val => sum + (val - mean) * (val - mean)) data 0
  / inject_Z (Z.of_nat (length data)).

(** [standardDeviation]: 0 on the empty array, else [Math.sqrt(variance)],
    a real number. *)
Definition standardDeviation (data : list Q) : R :=
  match data with
  | [] => 0%R
  | _ => sqrt (Q2R (variance data))
  end.

(** [standardDeviation(data) < eps], for a positive [eps], decided on the
    rationals: the square root is monotone, so the comparison is the one of
    [variance] with [eps * eps] (lemma [stdDevBelow_spec]). *)
Definition stdDevBelow (data : list Q) (eps : Q) : bool :=
  match data with
  | [] => Qltb 0 eps
  | _ => Qltb (variance data) (eps * eps)
  end.

(** ** Stage 8: normalizeWaveform, removeDCOffset, movingAverage *)

Definition normalizeWaveform (data : list Q) : list Q :=
  match minOf data, maxOf data with
  | Some min, Some max =>
      let range := max - min in
      if Qeq_bool range 0 then repeat 0 (length data)
      else map (fun v => fstore (((v - min) / range) * 2 - 1)) data
  | _, _ => []
  end.

Definition removeDCOffset (data : list Q) : list Q :=
  let mean := meanOf data in
  map (fun v => fstore (v - mean)) data.

(** The window loop [for (j = i - halfWindow; j <= i + halfWindow; j++)] on
    the pair [(sum, count)]. *)
Definition windowStep (data : list Q) (acc : Q * Z) (j : Z) : Q * Z :=
  if ((0 <=? j) && (j <? Z.of_nat (length data)))%Z
  then (fst acc + nth (Z.to_nat j) data 0, (snd acc + 1)%Z)
  else acc.

Definition window (i halfWindow : nat) : list Z :=
  map (fun k => (Z.of_nat i - Z.of_nat halfWindow + Z.of_nat k)%Z)
      (seq 0 (halfWindow * 2 + 1)).

Definition movingAverage (data : list Q) (windowSize : nat) : list Q :=
  let halfWindow := (windowSize / 2)%nat in
  map (fun i =>
         let acc := fold_left (windowStep data) (window i halfWindow) (0, 0%Z) in
         fstore (fst acc / inject_Z (snd acc)))
      (seq 0 (length data)).

(** ** The pipeline: extractWaveform *)

(** The raw waveform of a region that passed the size check. *)
Definition rawWaveform (imageData : ImageData) (roiBounds : Bounds) : list Q :=
  let width := Z.to_nat (roi_width roiBounds) in
  let height := Z.to_nat (roi_height roiBounds) in
  let roiData := cropToROI imageData roiBounds in
  let grayscale := toGrayscale roiData in
  let enhanced := stretchContrast grayscale in
  let smoothed := boxBlur enhanced width height 3 in
  let threshold := otsuThreshold smoothed in
  findBoundaries smoothed width height (inject_Z threshold).

Definition extractWaveform (imageData : ImageData) (roiBounds : Bounds)
    : Outcome (list Q) :=
  if ((roi_width roiBounds <? 20) || (roi_height roiBounds <? 20))%Z
  then Throw ROI_TOO_SMALL
  else
    let rawWaveform := rawWaveform imageData roiBounds in
    if stdDevBelow rawWaveform (1 # 100) then Throw NO_VARIATION
    else
      let normalized := normalizeWaveform rawWaveform in
      let dcRemoved := removeDCOffset normalized in
      let finalWaveform := movingAverage dcRemoved 5 in
      Return (map fstore finalWaveform).

(** ** The boundary scan, as the specification words it

    These definitions follow the text of the specification (section 4.6),
    not the loops; the theorems compare them with [rowEdges] and
    [rowAmplitude]. *)

(** The samples of row [y] of a [width]-wide field. *)
Definition rowOf (data : list Q) (width y : nat) : list Q :=
  firstn width (skipn (y * width) data).

(** The index of the first sample of the row that satisfies [p]. *)
Fixpoint firstIndex (p : Q -> bool) (row : list Q) : option nat :=
  match row with
  | [] => None
  | v :: row' => if p v then Some 0%nat else option_map S (firstIndex p row')
  end.

(** Steps 1 and 2 for one polarity: [leftEdge] is the first sample that
    satisfies [p], [rightEdge] the first later sample that does not, or the
    row width when there is none. *)
Definition edgesSpec (p : Q -> bool) (row : list Q) : option (nat * nat) :=
  match firstIndex p row with
  | None => None
  | Some l =>
      Some (l, match firstIndex (fun v => negb (p v)) (skipn l row) with
               | Some k => (l + k)%nat
               | None => length row
               end)
  end.

(** "Light" is strictly above the threshold, "dark" at or below it. *)
Definition light (threshold : Q) (v : Q) : bool := Qltb threshold v.
Definition dark (threshold : Q) (v : Q) : bool := Qle_bool v threshold.

(** Step 3: the light polarity first, the dark one when no sample is light. *)
Definition polarityEdges (threshold : Q) (row : list Q) : option (nat * nat) :=
  match edgesSpec (light threshold) row with
  | Some e => Some e
  | None => edgesSpec (dark threshold) row
  end.

(** ** Between-class variance, as the specification words it

    Section 4.5: for a candidate [t] the class weights are the cumulative
    pixel counts at or below [t] and above [t], the class means are the
    cumulative weighted brightness sums divided by the class weights. *)

(** The number of pixels in the bins below [n]. *)
Fixpoint cumCount (histogram : list Z) (n : nat) : Z :=
  match n with
  | O => 0%Z
  | S k => (cumCount histogram k + bin histogram (Z.of_nat k))%Z
  end.

(** The brightness sum of the bins below [n]. *)
Fixpoint cumSum (histogram : list Z) (n : nat) : Z :=
  match n with
  | O => 0%Z
  | S k => (cumSum histogram k + Z.of_nat k * bin histogram (Z.of_nat k))%Z
  end.

(** The between-class variance of the split at candidate [t]: the product
    of the class weights and of the squared difference of the class means.
    When a class is empty its weight is 0 and so is the product. *)
Definition betweenClassVariance (histogram : list Z) (t : nat) : Q :=
  let weightB := inject_Z (cumCount histogram (S t)) in
  let weightF := inject_Z (cumCount histogram 256 - cumCount histogram (S t)) in
  let meanB := inject_Z (cumSum histogram (S t)) / weightB in
  let meanF := inject_Z (cumSum histogram 256 - cumSum histogram (S t)) / weightF in
  weightB * weightF * ((meanB - meanF) * (meanB - meanF)).

(** The same quantity as double arithmetic gives it, every operation
    rounded: the means, their difference, and the product taken from left to
    right.  A split with an empty class has no means; its variance is 0. *)
Definition computedVariance (histogram : list Z) (t : nat) : Q :=
  let countB := cumCount histogram (S t) in
  let countF := (cumCount histogram 256 - countB)%Z in
  if ((countB =? 0) || (countF =? 0))%Z then 0
  else
    let meanB := double (inject_Z (cumSum histogram (S t)) / inject_Z countB) in
    let meanF :=
      double (inject_Z (cumSum histogram 256 - cumSum histogram (S t))
              / inject_Z countF) in
    let diff := double (meanB - meanF) in
    double (double (double (inject_Z countB * inject_Z countF) * diff) * diff).

(** The candidate [t] splits the pixels into two non-empty classes. *)
Definition properSplit (histogram : list Z) (t : nat) : Prop :=
  (0 < cumCount histogram (S t) < cumCount histogram 256)%Z.

(** A histogram of [total] pixels: 256 non-negative counts that add up
    to [total]. *)
Definition histogramFor (histogram : list Z) (total : Z) : Prop :=
  length histogram = 256%nat /\
  Forall (fun c => (0 <= c)%Z) histogram /\
  cumCount histogram 256 = total.

(** Every pixel falls on one side of every candidate threshold. *)
Definition oneSided (histogram : list Z) (total : Z) : Prop :=
  forall t, (t < 256)%nat ->
    cumCount histogram (S t) = 0%Z \/ (total - cumCount histogram (S t) = 0)%Z.

(** The variance of the scan at candidate [t], from the running sums as
    they stand there. *)
Definition scanVariance (histogram : list Z) (total : Z) (t : nat) : Q :=
  classVariance (cumSum histogram 256) (cumSum histogram (S t))
                (cumCount histogram (S t)) (total - cumCount histogram (S t)).

(** What the scan has committed after the candidates below [n]: nothing
    (every variance so far is 0), or the first candidate [T] of greatest
    variance, which is an occupied bin with pixels above it. *)
Definition committed (histogram : list Z) (total : Z) (n : nat) (s : OtsuState)
    : Prop :=
  (threshold s = 0%Z /\ maxVariance s = 0 /\
   forall t, (t < n)%nat -> scanVariance histogram total t == 0)
  \/
  (exists T, threshold s = Z.of_nat T /\ (T < n)%nat /\ (T < 256)%nat /\
             maxVariance s = scanVariance histogram total T /\
             0 < scanVariance histogram total T /\
             (forall t, (t < T)%nat ->
                        scanVariance histogram total t
                        < scanVariance histogram total T) /\
             (0 < bin histogram (Z.of_nat T))%Z /\
             (cumCount histogram (S T) < total)%Z).

(** The invariant of the scan before candidate [n]. *)
Definition scanInv (histogram : list Z) (total : Z) (n : nat) (s : OtsuState)
    : Prop :=
  0 <= maxVariance s /\
  (forall t, (t < n)%nat -> scanVariance histogram total t <= maxVariance s) /\
  committed histogram total n s.

(** ** Invariants of the loops *)

(** The pair [(sum, count)] of an averaging loop whose summands lie in
    [[lo, hi]]. *)
Definition avgInv (lo hi : Q) (acc : Q * Z) : Prop :=
  (0 <= snd acc)%Z /\
  inject_Z (snd acc) * lo <= fst acc /\ fst acc <= inject_Z (snd acc) * hi.

(** The sum of the [m] samples from index [a] on. *)
Definition sumRange (data : list Q) (a m : nat) : Q :=
  sumOf (map (fun j => nth j data 0) (seq a m)).

(** The test of a scan loop: a predicate on the sample read. *)
Definition sampleTest (p : Q -> bool) (data : list Q) (i : nat) : bool :=
  match nth_error data i with
  | Some value => p value
  | None => false
  end.

(** ** The region relative to the buffer *)

(** The region lies fully inside the buffer's bounds. *)
Definition insideBuffer (imageData : ImageData) (b : Bounds) : Prop :=
  (0 <= roi_x b /\ 0 <= roi_y b /\
   roi_x b + roi_width b <= img_width imageData /\
   roi_y b + roi_height b <= img_height imageData)%Z.

(** A well-formed [ImageData]: four bytes per pixel. *)
Definition wellFormed (imageData : ImageData) : Prop :=
  (0 <= img_width imageData /\ 0 <= img_height imageData /\
   Z.of_nat (length (img_data imageData))
   = 4 * img_width imageData * img_height imageData)%Z.

(** The source index of the channel [c] of the pixel [(row, col)] of the
    region: [srcIdx + c] in [cropToROI]. *)
Definition srcIndex (imageData : ImageData) (b : Bounds) (row col c : nat) : Z :=
  (((roi_y b + Z.of_nat row) * img_width imageData + (roi_x b + Z.of_nat col)) * 4
   + Z.of_nat c)%Z.

(** The channel [c] of the pixel [(row, col)] of the region, as [cropToROI]
    reads it. *)
Definition channelAt (imageData : ImageData) (b : Bounds) (row col c : nat) : Z :=
  readByte (img_data imageData) (srcIndex imageData b row col c).


(** The luminance of the colour [(r, g, bl)]. *)
Definition luminance (r g bl : Z) : Q :=
  fstore ((299 # 1000) * inject_Z r + (587 # 1000) * inject_Z g
          + (114 # 1000) * inject_Z bl).

(** ** Test images *)

Definition pixel (v : Z) : list Z := [v; v; v; 255%Z].

(** A [W] x [H] image whose row [r] is white on its first [band r] columns
    and black on the others. *)
Definition bandImage (W H : nat) (band : nat -> nat) : ImageData :=
  mkImageData
    (flat_map (fun row =>
                 flat_map (fun col => pixel (if (col <? band row)%nat then 255 else 0)%Z)
                          (seq 0 W))
              (seq 0 H))
    (Z.of_nat W) (Z.of_nat H).

(** A uniform image: every channel of every pixel is [v]. *)
Definition uniformImage (W H : nat) (v : Z) : ImageData :=
  mkImageData (flat_map (fun _ => pixel v) (seq 0 (W * H))) (Z.of_nat W) (Z.of_nat H).

(** The whole [W] x [H] image as the region. *)
Definition fullRegion (W H : Z) : Bounds := mkBounds 0 0 W H.

(** Twenty rows of twenty pixels: the light band is 5 pixels wide on rows
    0-9 and 15 pixels wide on rows 10-19. *)
Definition twoLevelImage : ImageData :=
  bandImage 20 20 (fun r => if (r <? 10)%nat then 5%nat else 15%nat).

(** Twenty rows of twenty pixels: the light band is 2 pixels wide on rows
    0-15 and 18 pixels wide on rows 16-19. *)
Definition skewedImage : ImageData :=
  bandImage 20 20 (fun r => if (r <? 16)%nat then 2%nat else 18%nat).

(** A field of two pixels, of brightness 50 and 200. *)
Definition twoSpikes : list Q := [50; 200].

(** Four pixels; the splits at 0 and at 2 have the same between-class
    variance. *)
Definition tiedField : list Q := [0; 2; 2; 4].

(** The pixels of a field that fall in bin [t]. *)
Definition inBin (t : nat) (v : Q) : bool := (Z.to_nat (binOf v) =? t)%nat.

(** Every row of a [w] x [h] field equals its row 0. *)
Definition rowsEqual (data : list Q) (w h : nat) : Prop :=
  forall y x, (y < h)%nat -> (x < w)%nat ->
              nth (y * w + x) data 0 = nth x data 0.

(** Every row of the region has the colours of its row 0. *)
Definition identicalRows (imageData : ImageData) (b : Bounds) : Prop :=
  forall row col c,
    (row < Z.to_nat (roi_height b))%nat -> (col < Z.to_nat (roi_width b))%nat ->
    (c < 3)%nat ->
    channelAt imageData b row col c = channelAt imageData b 0 col c.

(** [identicalRows], decided. *)
Definition identicalRowsb (imageData : ImageData) (b : Bounds) : bool :=
  forallb (fun row =>
    forallb (fun col =>
      forallb (fun c => (channelAt imageData b row col c
                         =? channelAt imageData b 0 col c)%Z)
              (seq 0 3))
      (seq 0 (Z.to_nat (roi_width b))))
    (seq 0 (Z.to_nat (roi_height b))).

(** * The collaborators of the pipeline

    [Utils] and [ROISelector] (src/js/roi-selector.js), [AudioEngine]
    (its [createAudioBuffer] and [encodeWAV]) and the key listener of
    [EasterEggs].  What depends on the DOM (event objects, the displayed
    rectangle of the canvas) enters as arguments. *)

(** ** Utils *)

(** [Math.max(a, b)] and [Math.min(a, b)]. *)
Definition jsMax (a b : Q) : Q := if Qltb a b then b else a.
Definition jsMin (a b : Q) : Q := if Qltb b a then b else a.

(** [Utils.clamp]. *)
Definition clamp (value min max : Q) : Q := jsMin (jsMax value min) max.

(** [Utils.lerp]. *)
Definition lerp (a b t : Q) : Q := a + (b - a) * t.

(** ** ROISelector *)

(** The object [roi]: four numbers, in canvas coordinates. *)
Record Roi := mkRoi {
  rx : Q;
  ry : Q;
  rwidth : Q;
  rheight : Q
}.

(** The fields of [ROISelector] the handlers read and write; [canvasWidth]
    and [canvasHeight] are [canvas.width] and [canvas.height]. *)
Record Selector := mkSelector {
  canvasWidth : Z;
  canvasHeight : Z;
  selImage : ImageData;
  roi : Roi;
  isDragging : bool;
  isResizing : bool;
  activeHandle : option string;
  dragStartX : Q;
  dragStartY : Q;
  roiStart : Roi
}.

(** [initROISelector], [imageData] being the image that
    [Utils.scaleImageIfNeeded] returned: the canvas takes the size of the
    image and the region starts on its left. *)
Definition initROISelector (s : Selector) (imageData : ImageData) : Selector :=
  let w := inject_Z (img_width imageData) in
  let h := inject_Z (img_height imageData) in
  mkSelector (img_width imageData) (img_height imageData) imageData
    (mkRoi (inject_Z (Qfloor (w * (5 # 100))))
           (inject_Z (Qfloor (h * (1 # 10))))
           (inject_Z (Qfloor (w * (12 # 100))))
           (inject_Z (Qfloor (h * (8 # 10)))))
    (isDragging s) (isResizing s) (activeHandle s)
    (dragStartX s) (dragStartY s) (roiStart s).

(** [startDrag] and [startResize]; [(cx, cy)] are the coordinates of the
    event and [handle] is [e.target.dataset.handle]. *)
Definition startDrag (s : Selector) (cx cy : Q) : Selector :=
  mkSelector (canvasWidth s) (canvasHeight s) (selImage s) (roi s)
    true false (activeHandle s) cx cy (roi s).

Definition startResize (s : Selector) (handle : option string) (cx cy : Q)
    : Selector :=
  mkSelector (canvasWidth s) (canvasHeight s) (selImage s) (roi s)
    false true handle cx cy (roi s).

(** [this.activeHandle === name], a [case] of the [switch]. *)
Definition isHandle (handle : option string) (name : string) : bool :=
  match handle with
  | Some h => String.eqb h name
  | None => false
  end.

(** The [switch] of [handleMove] on the active handle, on doubles; a handle
    that is none of the four leaves the region as it is. *)
Definition resizeRoi (handle : option string) (r start : Roi)
    (canvasW canvasH dx dy : Q) : Roi :=
  let minSize := 20 in
  if isHandle handle "tl" then
    let x := clamp (double (rx start + dx)) 0
                   (double (double (rx start + rwidth start) - minSize)) in
    let y := clamp (double (ry start + dy)) 0
                   (double (double (ry start + rheight start) - minSize)) in
    mkRoi x y (double (rwidth start - double (x - rx start)))
              (double (rheight start - double (y - ry start)))
  else if isHandle handle "tr" then
    let y := clamp (double (ry start + dy)) 0
                   (double (double (ry start + rheight start) - minSize)) in
    let width := clamp (double (rwidth start + dx)) minSize
                       (double (canvasW - rx start)) in
    mkRoi (rx r) y width (double (rheight start - double (y - ry start)))
  else if isHandle handle "bl" then
    let x := clamp (double (rx start + dx)) 0
                   (double (double (rx start + rwidth start) - minSize)) in
    let height := clamp (double (rheight start + dy)) minSize
                        (double (canvasH - ry start)) in
    mkRoi x (ry r) (double (rwidth start - double (x - rx start))) height
  else if isHandle handle "br" then
    let width := clamp (double (rwidth start + dx)) minSize
                       (double (canvasW - rx start)) in
    let height := clamp (double (rheight start + dy)) minSize
                        (double (canvasH - ry start)) in
    mkRoi (rx r) (ry r) width height
  else r.

(** [handleMove]; [(cx, cy)] are the coordinates of the event and
    [rectW] x [rectH] the displayed size of the canvas.  Every operation on
    numbers is rounded. *)
Definition handleMove (s : Selector) (cx cy rectW rectH : Q) : Selector :=
  if negb (isDragging s) && negb (isResizing s) then s
  else
    let scaleX := double (inject_Z (canvasWidth s) / rectW) in
    let scaleY := double (inject_Z (canvasHeight s) / rectH) in
    let dx := double (double (cx - dragStartX s) * scaleX) in
    let dy := double (double (cy - dragStartY s) * scaleY) in
    let r := roi s in
    let start := roiStart s in
    let r' :=
      if isDragging s then
        let x := clamp (double (rx start + dx)) 0
                       (double (inject_Z (canvasWidth s) - rwidth r)) in
        let y := clamp (double (ry start + dy)) 0
                       (double (inject_Z (canvasHeight s) - rheight r)) in
        mkRoi x y (rwidth r) (rheight r)
      else if isResizing s then
        resizeRoi (activeHandle s) r start
                  (inject_Z (canvasWidth s)) (inject_Z (canvasHeight s)) dx dy
      else r in
    mkSelector (canvasWidth s) (canvasHeight s) (selImage s) r'
      (isDragging s) (isResizing s) (activeHandle s)
      (dragStartX s) (dragStartY s) (roiStart s).

Definition endInteraction (s : Selector) : Selector :=
  mkSelector (canvasWidth s) (canvasHeight s) (selImage s) (roi s)
    false false None (dragStartX s) (dragStartY s) (roiStart s).

(** [getROIBounds]: the region, floored. *)
Definition getROIBounds (s : Selector) : Bounds :=
  mkBounds (Qfloor (rx (roi s))) (Qfloor (ry (roi s)))
           (Qfloor (rwidth (roi s))) (Qfloor (rheight (roi s))).

(** The events of one interaction with the selector. *)
Inductive SelectorEvent :=
| Move (cx cy rectW rectH : Q)
| DragStart (cx cy : Q)
| ResizeStart (handle : option string) (cx cy : Q)
| InteractionEnd.

Definition selectorStep (s : Selector) (e : SelectorEvent) : Selector :=
  match e with
  | Move cx cy rectW rectH => handleMove s cx cy rectW rectH
  | DragStart cx cy => startDrag s cx cy
  | ResizeStart handle cx cy => startResize s handle cx cy
  | InteractionEnd => endInteraction s
  end.

(** The region is at least 20 x 20 and lies inside the canvas. *)
Definition roiValid (r : Roi) (canvasW canvasH : Z) : Prop :=
  0 <= rx r /\ 0 <= ry r /\ 20 <= rwidth r /\ 20 <= rheight r /\
  rx r + rwidth r <= inject_Z canvasW /\ ry r + rheight r <= inject_Z canvasH.

(** The handle moves the left (resp. top) edge of the region. *)
Definition movesLeft (handle : option string) : bool :=
  isHandle handle "tl" || isHandle handle "bl".

Definition movesTop (handle : option string) : bool :=
  isHandle handle "tl" || isHandle handle "tr".

(** An integer of at most 32 bits, as a number. *)
Definition integral (q : Q) : Prop :=
  exists k : Z, q == inject_Z k /\ (Z.abs k <= 2147483648)%Z.

Definition integralRoi (r : Roi) : Prop :=
  integral (rx r) /\ integral (ry r) /\ integral (rwidth r) /\
  integral (rheight r).

(** The events on which the arithmetic of the selector is exact: the
    coordinates are integers and the canvas is displayed at its own size. *)
Definition eventOk (canvasW canvasH : Z) (e : SelectorEvent) : Prop :=
  match e with
  | Move cx cy rectW rectH =>
      integral cx /\ integral cy /\
      rectW == inject_Z canvasW /\ rectH == inject_Z canvasH
  | DragStart cx cy => integral cx /\ integral cy
  | ResizeStart _ cx cy => integral cx /\ integral cy
  | InteractionEnd => True
  end.

(** What holds of the selector between two such events: the canvas has the
    size of the image, the region is valid and made of integers, dragging
    and resizing exclude each other, during a gesture the pointer and the
    region saved at its start are integers and that region is valid, and
    while resizing an edge that the active handle does not move is where it
    was. *)
Definition selectorInv (s : Selector) : Prop :=
  canvasWidth s = img_width (selImage s) /\
  canvasHeight s = img_height (selImage s) /\
  (canvasWidth s <= 2147483648)%Z /\ (canvasHeight s <= 2147483648)%Z /\
  roiValid (roi s) (canvasWidth s) (canvasHeight s) /\
  integralRoi (roi s) /\
  (isDragging s = true -> isResizing s = false) /\
  (isDragging s = true \/ isResizing s = true ->
   integral (dragStartX s) /\ integral (dragStartY s) /\
   roiValid (roiStart s) (canvasWidth s) (canvasHeight s) /\
   integralRoi (roiStart s)) /\
  (isResizing s = true ->
   (movesLeft (activeHandle s) = false -> rx (roi s) = rx (roiStart s)) /\
   (movesTop (activeHandle s) = false -> ry (roi s) = ry (roiStart s))).

(** ** AudioEngine *)

(** An [AudioBuffer] of one channel. *)
Record AudioBuffer := mkAudioBuffer {
  sampleRate : Z;
  channelData : list Q
}.

(** [waveformData[i]] for an integer [i]; the model reads 0 where the array
    has no element (JavaScript reads [undefined] there). *)
Definition readSample (waveformData : list Q) (i : Z) : Q :=
  if (i <? 0)%Z then 0 else nth (Z.to_nat i) waveformData 0.

Definition targetSamples : nat := 1837.

(** One iteration of the resampling loop: the value of [channelData[i]]
    before the store. *)
Definition resampleAt (waveformData : list Q) (i : nat) : Q :=
  let sourceLength := Z.of_nat (length waveformData) in
  let sourceIndex :=
    (inject_Z (Z.of_nat i) / inject_Z (Z.of_nat targetSamples))
    * inject_Z sourceLength in
  let index0 := Qfloor sourceIndex in
  let index1 := Z.min (index0 + 1) (sourceLength - 1) in
  let t := sourceIndex - inject_Z index0 in
  lerp (readSample waveformData index0) (readSample waveformData index1) t.

(** [createAudioBuffer]: the buffer it stores in [currentBuffer] and
    returns. *)
Definition createAudioBuffer (waveformData : list Q) : AudioBuffer :=
  mkAudioBuffer 44100
    (map (fun i => fstore (resampleAt waveformData i)) (seq 0 targetSamples)).

(** *** encodeWAV: the bytes of the [ArrayBuffer] *)

(** [writeString]: one byte per character. *)
Definition writeString (str : string) : list Z :=
  map (fun c => Z.of_nat (nat_of_ascii c)) (list_ascii_of_string str).

(** [setUint16(.., v, true)] and [setUint32(.., v, true)]: the value modulo
    2^16 (2^32), least significant byte first. *)
Definition setUint16 (v : Z) : list Z :=
  let u := (v mod 65536)%Z in
  [(u mod 256)%Z; (u / 256)%Z].

Definition setUint32 (v : Z) : list Z :=
  let u := (v mod 4294967296)%Z in
  [(u mod 256)%Z; ((u / 256) mod 256)%Z; ((u / 65536) mod 256)%Z;
   (u / 16777216)%Z].

(** The integer part of a number, towards zero. *)
Definition truncate (q : Q) : Z := if Qltb q 0 then Qceiling q else Qfloor q.

(** [setInt16(.., value, true)]: the integer part of [value] modulo 2^16. *)
Definition setInt16 (value : Q) : list Z := setUint16 (truncate value).

(** The value written for one sample. *)
Definition pcmValue (sample : Q) : Q :=
  let s := jsMax (-(1)) (jsMin 1 sample) in
  if Qltb s 0 then s * 32768 else s * 32767.

(** The writes of [encodeWAV] fill the offsets 0, 4, 8, 12, 16, 20, 22, 24,
    28, 32, 34, 36, 40 and then 44, 46, ... in this order without a gap, so
    the buffer is the concatenation of what they write. *)
Definition encodeWAV (audioBuffer : AudioBuffer) : list Z :=
  let numChannels := 1%Z in
  let sampleRate := sampleRate audioBuffer in
  let samples := channelData audioBuffer in
  let n := Z.of_nat (length samples) in
  writeString "RIFF"
  ++ setUint32 (36 + n * 2)
  ++ writeString "WAVE"
  ++ writeString "fmt "
  ++ setUint32 16
  ++ setUint16 1
  ++ setUint16 numChannels
  ++ setUint32 sampleRate
  ++ setUint32 (sampleRate * numChannels * 2)
  ++ setUint16 (numChannels * 2)
  ++ setUint16 16
  ++ writeString "data"
  ++ setUint32 (n * 2)
  ++ flat_map (fun sample => setInt16 (pcmValue sample)) samples.

(** The sample data of [encodeWAV]: two bytes per sample. *)
Definition sampleBytes (samples : list Q) : list Z :=
  flat_map (fun sample => setInt16 (pcmValue sample)) samples.

(** Readers of the file format, to state what the bytes mean: an unsigned
    little-endian integer, and a signed 16-bit one. *)
Fixpoint littleEndian (bytes : list Z) : Z :=
  match bytes with
  | [] => 0%Z
  | b :: rest => (b + 256 * littleEndian rest)%Z
  end.

Definition getInt16 (bytes : list Z) : Z :=
  let u := littleEndian bytes in
  if (u <? 32768)%Z then u else (u - 65536)%Z.

(** The [len] bytes at [offset]. *)
Definition bytesAt (offset len : nat) (bytes : list Z) : list Z :=
  firstn len (skipn offset bytes).

(** ** EasterEggs: the key listener *)

Definition konamiCode : list string :=
  ["ArrowUp"; "ArrowUp"; "ArrowDown"; "ArrowDown";
   "ArrowLeft"; "ArrowRight"; "ArrowLeft"; "ArrowRight";
   "KeyB"; "KeyA"]%string.

(** The two fields the listener uses. *)
Record Eggs := mkEggs {
  konamiIndex : nat;
  cinemaModeActive : bool
}.

Definition activateCinemaMode (s : Eggs) : Eggs :=
  if cinemaModeActive s then s else mkEggs (konamiIndex s) true.

(** The [keydown] listener, [code] being [e.code]. *)
Definition keydown (s : Eggs) (code : string) : Eggs :=
  match nth_error konamiCode (konamiIndex s) with
  | Some expected =>
      if String.eqb code expected then
        let s1 := mkEggs (S (konamiIndex s)) (cinemaModeActive s) in
        if (konamiIndex s1 =? length konamiCode)%nat
        then let s2 := activateCinemaMode s1 in
             mkEggs 0 (cinemaModeActive s2)
        else s1
      else mkEggs 0 (cinemaModeActive s)
  | None => mkEggs 0 (cinemaModeActive s)
  end.

(** The listener over a sequence of keys. *)
Definition typeKeys (s : Eggs) (codes : list string) : Eggs :=
  fold_left keydown codes s.

(** The keys typed so far contain the whole code, one key after another. *)
Definition typedCode (typed : list string) : Prop :=
  exists pre post, typed = pre ++ konamiCode ++ post.

(** What holds of the listener after the keys [typed]: the index is inside
    the code, the last [konamiIndex] keys are the first [konamiIndex] keys
    of the code, and cinema mode is on only if the code was typed. *)
Definition konamiInv (s : Eggs) (typed : list string) : Prop :=
  (konamiIndex s < length konamiCode)%nat /\
  (exists pre, typed = pre ++ firstn (konamiIndex s) konamiCode) /\
  (cinemaModeActive s = true -> typedCode typed).

(** ** EasterEggs: the sum of 42 *)

(** [Math.round] of a double: the nearest integer, a half going up. *)
Definition jsRound (q : Q) : Z := Qfloor (q + (1 # 2)).

(** The [reduce] of [checkSumOf42], on doubles: the product and the sum of
    each step are rounded. *)
Definition magnitudeSum (waveformData : list Q) : Q :=
  fold_left (fun acc val => double (acc + double (Qabs val * 100)))
            waveformData 0.

(** [checkSumOf42]: what it returns ([%] is the remainder of the truncated
    division). *)
Definition checkSumOf42 (waveformData : list Q) : bool :=
  let sum := jsRound (magnitudeSum waveformData) in
  (Z.rem sum 1000 =? 42)%Z.

(** Two waveforms to compare. *)
Definition quietSamples : list Q := [1 # 10; -(1 # 10); 0].
Definition flippedSamples : list Q := [-(1 # 10); -(1 # 10); 0].

(** The fields of [ROISelector] as the object literal sets them (no canvas
    and no image yet). *)
Definition selectorInitial : Selector :=
  mkSelector 0 0 (mkImageData [] 0 0) (mkRoi 0 0 50 200)
             false false None 0 0 (mkRoi 0 0 0 0).

(** A drag, then a resize from the top-right handle, on a 400 x 300 image
    displayed at its own size. *)
Definition sampleEvents : list SelectorEvent :=
  [DragStart 10 10; Move 500 (-30 # 1) 400 300; InteractionEnd;
   ResizeStart (Some "tr"%string) 0 0; Move 1000 1000 400 300; InteractionEnd].

(** A drag, then a resize from the top-left handle, on the same image
    displayed at three quarters of its size. *)
Definition scaledEvents : list SelectorEvent :=
  [DragStart 100 100; Move 102 100 300 225; InteractionEnd;
   ResizeStart (Some "tl"%string) 100 100; Move 1000 1000 300 225;
   InteractionEnd].

(** A waveform of three samples. *)
Definition threeSamples : list Q := [1; -(1); 1 # 2].

(** ** The doubles of the kernel

    Rocq's kernel has the binary64 numbers and their operations.  The
    definitions below evaluate on them the expressions of the source whose
    rounding matters, so that [double] can be compared with them (section
    "The rounding against binary64"). *)

Module Binary64.
Import PrimInt63 PrimFloat FloatOps SpecFloat.

(** The value of a binary64 number, in lowest terms; [None] for an infinity
    or a NaN. *)
Definition ofFloat (f : float) : option Q :=
  match Prim2SF f with
  | S754_zero _ => Some 0
  | S754_finite s m e =>
      Some (Qred (inject_Z (if s then Z.neg m else Z.pos m) * 2 ^ e))
  | _ => None
  end.

(** [wB * wF * (mB - mF) * (mB - mF)] of [otsuThreshold]. *)
Definition variance64 (sum sumB wB wF : int) : float :=
  let mB := (of_uint63 sumB / of_uint63 wB)%float in
  let mF := (of_uint63 (PrimInt63.sub sum sumB) / of_uint63 wF)%float in
  (of_uint63 wB * of_uint63 wF * (mB - mF) * (mB - mF))%float.

(** The variances of five splits: of [tiedField] at 0 and at 2, of
    [twoSpikes] at 50, of the bins 0 to 8 and 12 at 5, and of the bins 50, 51,
    52, 200 and 201 at 52. *)
Definition variances : list float :=
  [variance64 8 0 1 3; variance64 8 4 3 1; variance64 250 50 1 1;
   variance64 48 15 6 4; variance64 554 153 3 2].

(** [handleMove] on a 400 x 300 canvas displayed at 300 x 225: [roi.x]
    after a drag by two pixels from x = 20, and [roi.width] after a resize
    of the 48 pixels wide region from its top-left handle down to the
    minimum. *)
Definition draggedX : float := (20 + (102 - 100) * (400 / 300))%float.
Definition resizedWidth : float :=
  (48 - (draggedX + 48 - 20 - draggedX))%float.

(** The [reduce] of [checkSumOf42] on three samples. *)
Definition tightSum : float :=
  (0 + abs (of_uint63 13925089 / of_uint63 33554432) * 100
     + abs (of_uint63 9395240 / of_uint63 1125899906842624) * 100
     + abs (of_uint63 16106127 / of_uint63 137438953472
            / of_uint63 137438953472) * 100)%float.

End Binary64.

(** Three [Float32Array] samples: 13925089 / 2^25, 9395240 / 2^50 and
    16106127 / 2^74. *)
Definition tightSamples : list Q :=
  [13925089 # 33554432; 9395240 # 1125899906842624;
   16106127 # 18889465931478580854784].

(** * Lengths *)

Lemma length_cropToROI img b :
  length (cropToROI img b)
  = (Z.to_nat (roi_width b) * Z.to_nat (roi_height b) * 4)%nat.
Proof. unfold cropToROI. now rewrite length_map, length_seq. Qed.

Lemma length_toGrayscale rgba : length (toGrayscale rgba) = (length rgba / 4)%nat.
Proof. unfold toGrayscale. now rewrite length_map, length_seq. Qed.

(** * Comparisons, minimum and maximum *)

Lemma Qltb_lt a b : Qltb a b = true <-> a < b.
Proof.
  unfold Qltb. rewrite negb_true_iff.
  split; intros H.
  - apply Qnot_le_lt. intros Hle. apply Qle_bool_iff in Hle. congruence.
  - destruct (Qle_bool b a) eqn:E; [|reflexivity].
    apply Qle_bool_iff in E. exfalso. apply (Qlt_not_le _ _ H E).
Qed.

Lemma Qltb_ge a b : Qltb a b = false <-> b <= a.
Proof.
  unfold Qltb. rewrite negb_false_iff. apply Qle_bool_iff.
Qed.

Lemma foldMin_spec l m0 :
  exists m, fold_left stepMin l (Some m0) = Some m /\
            (m = m0 \/ In m l) /\ m <= m0 /\ Forall (fun v => m <= v) l.
Proof.
  revert m0. induction l as [|a l IH]; intros m0; simpl.
  - exists m0. repeat split; auto. apply Qle_refl.
  - destruct (Qltb a m0) eqn:E.
    + apply Qltb_lt in E. destruct (IH a) as (m & Hm & Hin & Hle & Hall).
      exists m. repeat split; auto.
      * destruct Hin; auto.
      * apply Qle_trans with a; auto. now apply Qlt_le_weak.
    + apply Qltb_ge in E. destruct (IH m0) as (m & Hm & Hin & Hle & Hall).
      exists m. repeat split; auto.
      * destruct Hin; auto.
      * constructor; auto. now apply Qle_trans with m0.
Qed.

Lemma foldMax_spec l m0 :
  exists m, fold_left stepMax l (Some m0) = Some m /\
            (m = m0 \/ In m l) /\ m0 <= m /\ Forall (fun v => v <= m) l.
Proof.
  revert m0. induction l as [|a l IH]; intros m0; simpl.
  - exists m0. repeat split; auto. apply Qle_refl.
  - destruct (Qltb m0 a) eqn:E.
    + apply Qltb_lt in E. destruct (IH a) as (m & Hm & Hin & Hle & Hall).
      exists m. repeat split; auto.
      * destruct Hin; auto.
      * apply Qle_trans with a; auto. now apply Qlt_le_weak.
    + apply Qltb_ge in E. destruct (IH m0) as (m & Hm & Hin & Hle & Hall).
      exists m. repeat split; auto.
      * destruct Hin; auto.
      * constructor; auto. now apply Qle_trans with m0.
Qed.

(** On a non-empty array the loops end with the least and the greatest
    element. *)
Lemma minOf_spec v l :
  exists m, minOf (v :: l) = Some m /\ In m (v :: l) /\
            Forall (fun x => m <= x) (v :: l).
Proof.
  unfold minOf. simpl. destruct (foldMin_spec l v) as (m & Hm & Hin & Hle & Hall).
  exists m. repeat split; auto.
  destruct Hin; [left; auto | right; auto].
Qed.

Lemma maxOf_spec v l :
  exists m, maxOf (v :: l) = Some m /\ In m (v :: l) /\
            Forall (fun x => x <= m) (v :: l).
Proof.
  unfold maxOf. simpl. destruct (foldMax_spec l v) as (m & Hm & Hin & Hle & Hall).
  exists m. repeat split; auto.
  destruct Hin; [left; auto | right; auto].
Qed.

Lemma length_stretchContrast g : length (stretchContrast g) = length g.
Proof.
  unfold stretchContrast.
  destruct g as [|v g]; [reflexivity|].
  destruct (minOf_spec v g) as (mn & -> & _).
  destruct (maxOf_spec v g) as (mx & -> & _).
  destruct (Qeq_bool _ _); [reflexivity | apply length_map].
Qed.

Lemma length_normalizeWaveform g : length (normalizeWaveform g) = length g.
Proof.
  unfold normalizeWaveform.
  destruct g as [|v g]; [reflexivity|].
  destruct (minOf_spec v g) as (mn & -> & _).
  destruct (maxOf_spec v g) as (mx & -> & _).
  destruct (Qeq_bool _ _); [apply repeat_length | apply length_map].
Qed.

Lemma length_boxBlur data w h r : length (boxBlur data w h r) = length data.
Proof. unfold boxBlur. now rewrite length_map, length_seq. Qed.

Lemma length_findBoundaries data w h t : length (findBoundaries data w h t) = h.
Proof. unfold findBoundaries. now rewrite length_map, length_seq. Qed.

Lemma length_removeDCOffset data : length (removeDCOffset data) = length data.
Proof. unfold removeDCOffset. apply length_map. Qed.

Lemma length_movingAverage data n : length (movingAverage data n) = length data.
Proof. unfold movingAverage. now rewrite length_map, length_seq. Qed.

(** * The region extractor *)

Lemma nth_map_seq {A : Type} (f : nat -> A) (n k : nat) (d : A) :
  (k < n)%nat -> nth k (map f (seq 0 n)) d = f k.
Proof.
  intros Hk.
  rewrite (nth_indep _ d (f 0%nat)) by now rewrite length_map, length_seq.
  rewrite map_nth, seq_nth by assumption. reflexivity.
Qed.

Lemma nth_error_map_seq {A : Type} (f : nat -> A) (n k : nat) :
  (k < n)%nat -> nth_error (map f (seq 0 n)) k = Some (f k).
Proof.
  intros Hk. rewrite nth_error_map, nth_error_seq.
  destruct (Nat.ltb_spec k n); [reflexivity | lia].
Qed.

Lemma cell_div (w row col : nat) :
  (col < w)%nat -> ((row * w + col) / w = row)%nat.
Proof.
  intros H. symmetry. apply (Nat.div_unique _ _ _ col); [assumption | lia].
Qed.

Lemma cell_mod (w row col : nat) :
  (col < w)%nat -> ((row * w + col) mod w = col)%nat.
Proof.
  intros H. symmetry. apply (Nat.mod_unique _ _ row); [assumption | lia].
Qed.

(** The byte at [destIdx + c], [destIdx = (row * width + col) * 4], is the
    byte read at [srcIdx + c]. *)
Lemma cropToROI_nth img b row col c :
  (row < Z.to_nat (roi_height b))%nat -> (col < Z.to_nat (roi_width b))%nat ->
  (c < 4)%nat ->
  nth ((row * Z.to_nat (roi_width b) + col) * 4 + c) (cropToROI img b) 0%Z
  = readByte (img_data img) (srcIndex img b row col c).
Proof.
  intros Hr Hc Hch. unfold cropToROI.
  rewrite nth_map_seq by nia.
  rewrite (cell_div 4 _ c Hch), (cell_mod 4 _ c Hch).
  rewrite (cell_div _ row col Hc), (cell_mod _ row col Hc).
  reflexivity.
Qed.

Lemma readByte_range data i : (0 <= readByte data i <= 255)%Z.
Proof.
  unfold readByte, clamp8.
  destruct (i <? 0)%Z; [lia|].
  destruct (nth_error data (Z.to_nat i)); lia.
Qed.

Lemma readByte_outside data i :
  (i < 0 \/ Z.of_nat (length data) <= i)%Z -> readByte data i = 0%Z.
Proof.
  intros H. unfold readByte.
  destruct (Z.ltb_spec i 0); [reflexivity|].
  destruct (nth_error data (Z.to_nat i)) eqn:E; [|reflexivity].
  exfalso. assert (Hlt : (Z.to_nat i < length data)%nat)
    by (apply nth_error_Some; congruence).
  lia.
Qed.

(** * Outcomes of the pipeline *)

Lemma size_check_passes b :
  (20 <= roi_width b)%Z -> (20 <= roi_height b)%Z ->
  ((roi_width b <? 20) || (roi_height b <? 20))%Z = false.
Proof.
  intros Hw Hh. apply orb_false_iff. split; apply Z.ltb_ge; assumption.
Qed.

Lemma length_rawWaveform img b :
  length (rawWaveform img b) = Z.to_nat (roi_height b).
Proof. unfold rawWaveform. apply length_findBoundaries. Qed.

(** A region that passes the size check ends in a waveform with one sample
    per row or in [NO_VARIATION], wherever the region lies. *)
Lemma extractWaveform_outcomes img b :
  (20 <= roi_width b)%Z -> (20 <= roi_height b)%Z ->
  (exists wf, extractWaveform img b = Return wf /\
              Z.of_nat (length wf) = roi_height b)
  \/ extractWaveform img b = Throw NO_VARIATION.
Proof.
  intros Hw Hh. unfold extractWaveform.
  rewrite (size_check_passes _ Hw Hh).
  destruct (stdDevBelow _ _); [right; reflexivity | left].
  eexists. split; [reflexivity|].
  rewrite length_map, length_movingAverage, length_removeDCOffset,
    length_normalizeWaveform, length_rawWaveform.
  lia.
Qed.

(** Past the two checks the waveform is the post-processed raw waveform. *)
Lemma extractWaveform_returns img b :
  (20 <= roi_width b)%Z -> (20 <= roi_height b)%Z ->
  stdDevBelow (rawWaveform img b) (1 # 100) = false ->
  extractWaveform img b
  = Return (map fstore
              (movingAverage
                 (removeDCOffset (normalizeWaveform (rawWaveform img b))) 5)).
Proof.
  intros Hw Hh Hsd. unfold extractWaveform.
  now rewrite (size_check_passes _ Hw Hh), Hsd.
Qed.

(** ** The test images, evaluated *)

Lemma twoLevel_raw :
  rawWaveform twoLevelImage (fullRegion 20 20)
  = [1 # 4; 1 # 4; 1 # 4; 1 # 4; 1 # 4; 1 # 4; 1 # 4; 3 # 10; 7 # 20; 2 # 5;
     13 # 20; 7 # 10; 3 # 4; 3 # 4; 3 # 4; 3 # 4; 3 # 4; 3 # 4; 3 # 4; 3 # 4].
Proof. vm_compute. reflexivity. Qed.

Lemma twoLevel_extract :
  extractWaveform twoLevelImage (fullRegion 20 20)
  = Return [-103 # 100; -103 # 100; -103 # 100; -103 # 100; -103 # 100;
            -99 # 100; -91 # 100; -79 # 100; -47 # 100; -11 # 100; 1 # 4;
            57 # 100; 17 # 20; 93 # 100; 97 # 100; 97 # 100; 97 # 100;
            97 # 100; 97 # 100; 97 # 100].
Proof.
  rewrite extractWaveform_returns;
    rewrite ?twoLevel_raw; vm_compute; congruence.
Qed.

Lemma skewed_raw :
  rawWaveform skewedImage (fullRegion 20 20)
  = [1 # 10; 1 # 10; 1 # 10; 1 # 10; 1 # 10; 1 # 10; 1 # 10; 1 # 10; 1 # 10;
     1 # 10; 1 # 10; 1 # 10; 1 # 10; 1 # 5; 1 # 4; 4 # 5; 19 # 20; 19 # 20;
     1; 1].
Proof. vm_compute. reflexivity. Qed.

Lemma skewed_extract :
  extractWaveform skewedImage (fullRegion 20 20)
  = Return [-89 # 180; -89 # 180; -89 # 180; -89 # 180; -89 # 180; -89 # 180;
            -89 # 180; -89 # 180; -89 # 180; -89 # 180; -89 # 180; -9 # 20;
            -23 # 60; -13 # 180; 11 # 36; 41 # 60; 187 # 180; 247 # 180;
            29 # 20; 793 # 540].
Proof.
  rewrite extractWaveform_returns;
    rewrite ?skewed_raw; vm_compute; congruence.
Qed.

Lemma shifted_raw :
  rawWaveform twoLevelImage (mkBounds 5 0 20 20)
  = [1 # 4; 1 # 4; 1 # 4; 1 # 4; 1 # 4; 1 # 4; 1 # 4; 1 # 4; 1 # 4; 1 # 4;
     2 # 5; 9 # 20; 1 # 2; 1 # 2; 1 # 2; 1 # 2; 1 # 2; 1 # 2; 1 # 2; 1 # 2].
Proof. vm_compute. reflexivity. Qed.

Lemma shifted_extract :
  extractWaveform twoLevelImage (mkBounds 5 0 20 20)
  = Return [-47 # 50; -47 # 50; -47 # 50; -47 # 50; -47 # 50; -47 # 50;
            -47 # 50; -47 # 50; -7 # 10; -19 # 50; 1 # 50; 21 # 50; 41 # 50;
            49 # 50; 53 # 50; 53 # 50; 53 # 50; 53 # 50; 53 # 50; 53 # 50].
Proof.
  rewrite extractWaveform_returns;
    rewrite ?shifted_raw; vm_compute; congruence.
Qed.

(** ** C1 *)

(** C1.  For every pixel buffer and every region of width and height at
    least 20 lying fully inside the buffer, [extractWaveform] returns a
    waveform of exactly [height] samples or throws [NO_VARIATION]. *)
Theorem extractWaveform_length_or_no_variation img b :
  wellFormed img -> insideBuffer img b ->
  (20 <= roi_width b)%Z -> (20 <= roi_height b)%Z ->
  (exists wf, extractWaveform img b = Return wf /\
              Z.of_nat (length wf) = roi_height b)
  \/ extractWaveform img b = Throw NO_VARIATION.
Proof.
  intros _ _. apply extractWaveform_outcomes.
Qed.

(** ** C8 *)

(** C8.  A region of width or height below 20 throws [ROI_TOO_SMALL],
    whatever the buffer holds: two buffers give the same outcome. *)
Theorem extractWaveform_too_small img img' b :
  (roi_width b < 20 \/ roi_height b < 20)%Z ->
  extractWaveform img b = Throw ROI_TOO_SMALL /\
  extractWaveform img' b = extractWaveform img b.
Proof.
  intros H. unfold extractWaveform.
  assert (E : ((roi_width b <? 20) || (roi_height b <? 20))%Z = true).
  { apply orb_true_iff. destruct H; [left | right]; now apply Z.ltb_lt. }
  rewrite E. split; reflexivity.
Qed.

Lemma extractWaveform_length_witness :
  (exists wf, extractWaveform twoLevelImage (fullRegion 20 20) = Return wf /\
              Z.of_nat (length wf) = roi_height (fullRegion 20 20))
  \/ extractWaveform twoLevelImage (fullRegion 20 20) = Throw NO_VARIATION.
Proof.
  apply (extractWaveform_length_or_no_variation twoLevelImage (fullRegion 20 20)).
  - unfold wellFormed. repeat split; vm_compute; congruence.
  - unfold insideBuffer. repeat split; vm_compute; congruence.
  - vm_compute; congruence.
  - vm_compute; congruence.
Defined.

Lemma extractWaveform_too_small_witness :
  extractWaveform twoLevelImage (fullRegion 19 20) = Throw ROI_TOO_SMALL /\
  extractWaveform (uniformImage 4 4 128) (fullRegion 19 20)
  = extractWaveform twoLevelImage (fullRegion 19 20).
Proof.
  apply (extractWaveform_too_small twoLevelImage (uniformImage 4 4 128)
           (fullRegion 19 20)).
  left. reflexivity.
Defined.

(** ** C2 *)

(** C2 fails on the code: a region that sticks out of the buffer on the
    right is processed like any other region and a waveform is returned. *)
Lemma region_outside_buffer_is_processed :
  ~ insideBuffer twoLevelImage (mkBounds 5 0 20 20) /\
  (exists wf, extractWaveform twoLevelImage (mkBounds 5 0 20 20) = Return wf) /\
  extractWaveform twoLevelImage (mkBounds 5 0 20 20) <> Throw MALFORMED_INPUT.
Proof.
  split; [|split].
  - unfold insideBuffer. cbn. lia.
  - eexists. apply shifted_extract.
  - rewrite shifted_extract. discriminate.
Qed.

(** C2, amended.  [cropToROI] has no bounds check: whatever the position
    of a region of width and height at least 20, extraction does not throw
    [MALFORMED_INPUT]; it returns a waveform of [height] samples or throws
    [NO_VARIATION], and a byte whose source index falls outside the buffer's
    data is copied as 0. *)
Theorem extractWaveform_never_malformed img b :
  (20 <= roi_width b)%Z -> (20 <= roi_height b)%Z ->
  extractWaveform img b <> Throw MALFORMED_INPUT /\
  ((exists wf, extractWaveform img b = Return wf /\
               Z.of_nat (length wf) = roi_height b)
   \/ extractWaveform img b = Throw NO_VARIATION) /\
  (forall row col c,
      (row < Z.to_nat (roi_height b))%nat -> (col < Z.to_nat (roi_width b))%nat ->
      (c < 4)%nat ->
      (srcIndex img b row col c < 0
       \/ Z.of_nat (length (img_data img)) <= srcIndex img b row col c)%Z ->
      nth ((row * Z.to_nat (roi_width b) + col) * 4 + c) (cropToROI img b) 0%Z
      = 0%Z).
Proof.
  intros Hw Hh.
  pose proof (extractWaveform_outcomes img b Hw Hh) as Hout.
  split; [|split; [exact Hout|]].
  - destruct Hout as [(wf & -> & _) | ->]; discriminate.
  - intros row col c Hr Hc Hch Hsrc.
    rewrite cropToROI_nth by assumption.
    now apply readByte_outside.
Qed.

Lemma extractWaveform_never_malformed_witness :
  extractWaveform twoLevelImage (mkBounds 5 0 20 20) <> Throw MALFORMED_INPUT.
Proof.
  apply (extractWaveform_never_malformed twoLevelImage (mkBounds 5 0 20 20));
    vm_compute; congruence.
Defined.

(** * Averages *)

Lemma fstore_eq q : fstore q == q.
Proof. apply Qred_correct. Qed.

Lemma fstore_idem q : fstore (fstore q) = fstore q.
Proof. apply Qred_complete, Qred_correct. Qed.

Lemma fstore_complete p q : p == q -> fstore p = fstore q.
Proof. apply Qred_complete. Qed.

Section Folds.
Context {K : Type}.
Variable F : Q * Z -> K -> Q * Z.

Lemma fold_invariant (P : Q * Z -> Prop) (l : list K) (acc : Q * Z) :
  (forall a k, In k l -> P a -> P (F a k)) -> P acc -> P (fold_left F l acc).
Proof.
  revert acc. induction l as [|k l IH]; intros acc HF Hacc; simpl; [assumption|].
  apply IH.
  - intros a k' Hin. apply HF. now right.
  - apply HF; [now left | assumption].
Qed.

Hypothesis count_mono : forall a k, (snd a <= snd (F a k))%Z.

Lemma fold_count_mono (l : list K) (acc : Q * Z) :
  (snd acc <= snd (fold_left F l acc))%Z.
Proof.
  revert acc. induction l as [|k l IH]; intros acc; simpl; [lia|].
  specialize (IH (F acc k)). specialize (count_mono acc k). lia.
Qed.

Lemma fold_count_strict (l : list K) (acc : Q * Z) (k0 : K) :
  In k0 l -> (forall a, (snd a < snd (F a k0))%Z) ->
  (snd acc < snd (fold_left F l acc))%Z.
Proof.
  revert acc. induction l as [|k l IH]; intros acc Hin Hk0; simpl; [destruct Hin|].
  destruct Hin as [-> | Hin].
  - specialize (Hk0 acc). pose proof (fold_count_mono l (F acc k0)). lia.
  - specialize (IH (F acc k) Hin Hk0). specialize (count_mono acc k). lia.
Qed.
End Folds.

Lemma avgInv_init lo hi : avgInv lo hi (0, 0%Z).
Proof.
  unfold avgInv; cbn [fst snd]. split; [lia|].
  change (inject_Z 0) with 0. split; lra.
Qed.

Lemma avgInv_add lo hi acc v :
  avgInv lo hi acc -> lo <= v <= hi ->
  avgInv lo hi (fst acc + v, (snd acc + 1)%Z).
Proof.
  unfold avgInv; cbn [fst snd]. intros (Hc & Hl & Hh) (Hv1 & Hv2).
  rewrite inject_Z_plus. split; [lia|].
  change (inject_Z 1) with 1. split; lra.
Qed.

Lemma avgInv_bounds lo hi acc :
  avgInv lo hi acc -> (0 < snd acc)%Z ->
  lo <= fst acc / inject_Z (snd acc) <= hi.
Proof.
  unfold avgInv. intros (_ & Hl & Hh) Hpos.
  assert (Hq : 0 < inject_Z (snd acc)).
  { change 0 with (inject_Z 0). now rewrite <- Zlt_Qlt. }
  split.
  - apply Qle_shift_div_l; [assumption|]. lra.
  - apply Qle_shift_div_r; [assumption|]. lra.
Qed.

(** * The noise suppressor *)

Lemma kernel_centre r : In 0%Z (kernel r).
Proof.
  unfold kernel. apply in_map_iff. exists r. split; [lia|].
  apply in_seq. lia.
Qed.

Lemma blurStep_count data w h y x ky kx acc :
  (snd acc <= snd (blurStep data w h y x ky kx acc))%Z.
Proof.
  unfold blurStep. destruct (_ && _); simpl; lia.
Qed.

Lemma blurStep_centre data w h y x acc :
  (y < h)%nat -> (x < w)%nat ->
  (snd acc < snd (blurStep data w h y x 0 0 acc))%Z.
Proof.
  intros Hy Hx. unfold blurStep.
  replace ((0 <=? Z.of_nat y + 0) && (Z.of_nat y + 0 <? Z.of_nat h)
           && (0 <=? Z.of_nat x + 0) && (Z.of_nat x + 0 <? Z.of_nat w))%Z
    with true; [simpl; lia|].
  symmetry. repeat (apply andb_true_iff; split);
    first [apply Z.leb_le | apply Z.ltb_lt]; lia.
Qed.

Lemma blurStep_inv lo hi data w h y x ky kx acc :
  length data = (w * h)%nat -> Forall (fun v => lo <= v <= hi) data ->
  avgInv lo hi acc -> avgInv lo hi (blurStep data w h y x ky kx acc).
Proof.
  intros Hlen Hall Hacc. unfold blurStep.
  destruct (_ && _) eqn:E; [|assumption].
  apply avgInv_add; [assumption|].
  repeat (apply andb_true_iff in E; destruct E as [E ?]).
  apply Z.leb_le in E. apply Z.ltb_lt in H, H1. apply Z.leb_le in H0.
  rewrite Forall_forall in Hall. apply Hall. apply nth_In. nia.
Qed.

(** Every cell of the blurred field is the average of a non-empty
    neighbourhood. *)
Lemma blurAt_bounds lo hi data w h r y x :
  length data = (w * h)%nat -> Forall (fun v => lo <= v <= hi) data ->
  (y < h)%nat -> (x < w)%nat ->
  lo <= blurAt data w h r y x <= hi.
Proof.
  intros Hlen Hall Hy Hx. unfold blurAt.
  set (inner := fun acc ky =>
                  fold_left (fun acc kx => blurStep data w h y x ky kx acc)
                            (kernel r) acc).
  assert (Hmono : forall a k, (snd a <= snd (inner a k))%Z).
  { intros a k. unfold inner. apply fold_count_mono.
    intros; apply blurStep_count. }
  apply avgInv_bounds.
  - apply fold_invariant; [|apply avgInv_init].
    intros a k _ Ha. unfold inner. apply fold_invariant; [|assumption].
    intros a' k' _. now apply blurStep_inv.
  - change 0%Z with (snd (0, 0%Z)) at 1.
    apply fold_count_strict with (k0 := 0%Z); [assumption | apply kernel_centre |].
    intros a. unfold inner.
    apply fold_count_strict with (k0 := 0%Z);
      [intros; apply blurStep_count | apply kernel_centre |].
    intros a'. now apply blurStep_centre.
Qed.

Lemma boxBlur_between lo hi data w h r :
  length data = (w * h)%nat -> Forall (fun v => lo <= v <= hi) data ->
  Forall (fun v => lo <= v <= hi) (boxBlur data w h r).
Proof.
  intros Hlen Hall. unfold boxBlur. apply Forall_forall.
  intros v Hv. apply in_map_iff in Hv. destruct Hv as (i & <- & Hi).
  apply in_seq in Hi. rewrite Hlen in Hi.
  assert (Hw : (0 < w)%nat) by nia.
  destruct (Nat.ltb_spec i (w * h)); [|lia].
  rewrite fstore_eq. apply blurAt_bounds; try assumption.
  - apply Nat.Div0.div_lt_upper_bound. lia.
  - apply Nat.mod_upper_bound. lia.
Qed.

(** * Luminance and contrast *)

Lemma inject_Z_byte z : (0 <= z <= 255)%Z -> 0 <= inject_Z z <= 255.
Proof.
  intros [H0 H1]. split.
  - change 0 with (inject_Z 0). now rewrite <- Zle_Qle.
  - change 255 with (inject_Z 255). now rewrite <- Zle_Qle.
Qed.

Lemma chan_range rgba i :
  Forall (fun c => (0 <= c <= 255)%Z) rgba -> 0 <= chan rgba i <= 255.
Proof.
  intros Hall. unfold chan. apply inject_Z_byte.
  destruct (Nat.lt_ge_cases i (length rgba)) as [Hi | Hi].
  - rewrite Forall_forall in Hall. apply Hall. now apply nth_In.
  - rewrite nth_overflow by assumption. lia.
Qed.

Lemma toGrayscale_range rgba :
  Forall (fun c => (0 <= c <= 255)%Z) rgba ->
  Forall (fun v => 0 <= v <= 255) (toGrayscale rgba).
Proof.
  intros Hall. unfold toGrayscale. apply Forall_forall.
  intros v Hv. apply in_map_iff in Hv. destruct Hv as (i & <- & _).
  rewrite fstore_eq.
  pose proof (chan_range rgba (i * 4) Hall).
  pose proof (chan_range rgba (i * 4 + 1) Hall).
  pose proof (chan_range rgba (i * 4 + 2) Hall).
  split; lra.
Qed.

(** The position of [v] between [mn] and [mx], as a fraction of the range. *)
Lemma ratio_unit v mn mx :
  mn <= v <= mx -> ~ mx - mn == 0 -> 0 <= (v - mn) / (mx - mn) <= 1.
Proof.
  intros [H1 H2] Hne.
  assert (Hpos : 0 < mx - mn).
  { destruct (Qlt_le_dec 0 (mx - mn)) as [|Hle]; [assumption|].
    exfalso. apply Hne. lra. }
  split.
  - apply Qle_shift_div_l; [assumption|]. lra.
  - apply Qle_shift_div_r; [assumption|]. lra.
Qed.

Lemma Qeq_bool_false p q : Qeq_bool p q = false -> ~ p == q.
Proof. intros H Heq. apply Qeq_bool_iff in Heq. congruence. Qed.

Lemma stretchContrast_range g :
  Forall (fun v => 0 <= v <= 255) g ->
  Forall (fun v => 0 <= v <= 255) (stretchContrast g).
Proof.
  intros Hall. unfold stretchContrast.
  destruct g as [|v0 g]; [constructor|].
  destruct (minOf_spec v0 g) as (mn & -> & _ & Hmin).
  destruct (maxOf_spec v0 g) as (mx & -> & _ & Hmax).
  destruct (Qeq_bool (mx - mn) 0) eqn:E; [assumption|].
  apply Qeq_bool_false in E.
  apply Forall_forall. intros v Hv. apply in_map_iff in Hv.
  destruct Hv as (u & <- & Hu). rewrite fstore_eq.
  rewrite Forall_forall in Hmin, Hmax.
  pose proof (ratio_unit u mn mx (conj (Hmin u Hu) (Hmax u Hu)) E) as [Ha Hb].
  split; lra.
Qed.

(** ** C10 *)

(** C10.  On a [width] x [height] field every value of the blurred field
    lies between the minimum and the maximum of the input values (each is an
    average over a non-empty neighbourhood inside the grid); so the blur of
    the contrast-stretched luminance of 8-bit pixels stays within
    [[0, 255]]. *)
Theorem boxBlur_between_min_and_max data width height radius :
  length data = (width * height)%nat ->
  (forall mn mx, minOf data = Some mn -> maxOf data = Some mx ->
                 Forall (fun v => mn <= v <= mx) (boxBlur data width height radius))
  /\
  (forall rgba, Forall (fun c => (0 <= c <= 255)%Z) rgba ->
                data = stretchContrast (toGrayscale rgba) ->
                Forall (fun v => 0 <= v <= 255) (boxBlur data width height radius)).
Proof.
  intros Hlen. split.
  - intros mn mx Hmn Hmx. apply boxBlur_between; [assumption|].
    destruct data as [|v0 data]; [constructor|].
    destruct (minOf_spec v0 data) as (mn' & Emn & _ & Hmin).
    destruct (maxOf_spec v0 data) as (mx' & Emx & _ & Hmax).
    rewrite Emn in Hmn. rewrite Emx in Hmx.
    injection Hmn as ->. injection Hmx as ->.
    rewrite Forall_forall in Hmin, Hmax. apply Forall_forall.
    intros v Hv. split; [now apply Hmin | now apply Hmax].
  - intros rgba Hbytes ->. apply boxBlur_between; [assumption|].
    now apply stretchContrast_range, toGrayscale_range.
Qed.

Lemma boxBlur_between_min_and_max_witness :
  Forall (fun v => 0 <= v <= 10) (boxBlur [0; 10; 10; 0; 4; 6] 3 2 1).
Proof.
  apply (boxBlur_between_min_and_max [0; 10; 10; 0; 4; 6] 3 2 1);
    reflexivity.
Defined.

(** * The boundary scanner *)

Lemma isLight_test data t : isLight data t = sampleTest (light t) data.
Proof. reflexivity. Qed.

Lemma isDark_test data t : isDark data t = sampleTest (dark t) data.
Proof. reflexivity. Qed.

Lemma scanRow_ext (f g : nat -> bool) xs l r :
  (forall x, In x xs -> f x = g x) -> scanRow f xs l r = scanRow g xs l r.
Proof.
  revert l r. induction xs as [|x xs IH]; intros l r H; simpl; [reflexivity|].
  rewrite (H x) by now left.
  rewrite IH by (intros; apply H; now right). reflexivity.
Qed.

Lemma sampleTest_middle p pre v row :
  sampleTest p (pre ++ v :: row) (length pre) = p v.
Proof.
  unfold sampleTest. rewrite nth_error_app2 by lia.
  now rewrite Nat.sub_diag.
Qed.

Lemma snoc_app {A : Type} (pre : list A) v row :
  pre ++ v :: row = (pre ++ [v]) ++ row.
Proof. now rewrite <- app_assoc. Qed.

(** The scan once [leftEdge] is set: it stops at the first sample that
    fails the test. *)
Lemma scanRow_right p row : forall pre L,
  L <> (-1)%Z ->
  scanRow (sampleTest p (pre ++ row)) (seq (length pre) (length row)) L (-1)
  = (L, match firstIndex (fun v => negb (p v)) row with
        | Some k => Z.of_nat (length pre + k)
        | None => (-1)%Z
        end).
Proof.
  induction row as [|v row IH]; intros pre L HL; [reflexivity|].
  cbn [length seq scanRow firstIndex].
  rewrite sampleTest_middle.
  assert (EL : (L =? -1)%Z = false) by now apply Z.eqb_neq.
  destruct (p v) eqn:Ev; cbn [negb andb]; rewrite EL; cbn [negb andb].
  - rewrite snoc_app.
    replace (S (length pre)) with (length (pre ++ [v]))
      by (rewrite length_app; simpl; lia).
    rewrite IH by assumption.
    destruct (firstIndex _ row); cbn [option_map]; [|reflexivity].
    f_equal. rewrite length_app. simpl. lia.
  - rewrite Z.eqb_refl. now rewrite Nat.add_0_r.
Qed.

(** The scan from the start of a row. *)
Lemma scanRow_left p row : forall pre,
  scanRow (sampleTest p (pre ++ row)) (seq (length pre) (length row)) (-1) (-1)
  = match firstIndex p row with
    | None => ((-1)%Z, (-1)%Z)
    | Some l =>
        (Z.of_nat (length pre + l),
         match firstIndex (fun v => negb (p v)) (skipn l row) with
         | Some k => Z.of_nat (length pre + l + k)
         | None => (-1)%Z
         end)
    end.
Proof.
  induction row as [|v row IH]; intros pre; [reflexivity|].
  cbn [length seq scanRow firstIndex].
  rewrite sampleTest_middle.
  destruct (p v) eqn:Ev; rewrite ?Z.eqb_refl; cbn [negb andb].
  - rewrite snoc_app.
    replace (S (length pre)) with (length (pre ++ [v]))
      by (rewrite length_app; simpl; lia).
    rewrite scanRow_right by lia.
    cbn [skipn firstIndex]. rewrite Ev. cbn [negb].
    f_equal; [f_equal; lia|].
    destruct (firstIndex (fun v0 => negb (p v0)) row);
      cbn [option_map]; [|reflexivity].
    f_equal. rewrite length_app. simpl. lia.
  - rewrite snoc_app.
    replace (S (length pre)) with (length (pre ++ [v]))
      by (rewrite length_app; simpl; lia).
    rewrite IH.
    destruct (firstIndex p row) as [l|]; cbn [option_map skipn]; [|reflexivity].
    rewrite length_app. simpl.
    f_equal; [f_equal; lia|].
    destruct (firstIndex _ (skipn l row)); [|reflexivity].
    f_equal. lia.
Qed.

Lemma firstIndex_Some p row : forall l,
  firstIndex p row = Some l ->
  (l < length row)%nat /\ exists v, nth_error row l = Some v /\ p v = true.
Proof.
  induction row as [|v row IH]; intros l H; simpl in H; [discriminate|].
  destruct (p v) eqn:Ev.
  - injection H as <-. split; [simpl; lia|]. exists v. now split.
  - destruct (firstIndex p row) as [l'|]; [|discriminate].
    injection H as <-. destruct (IH l' eq_refl) as (Hl & u & Hu & Hp).
    split; [simpl; lia|]. exists u. now split.
Qed.

Lemma firstIndex_None p row :
  firstIndex p row = None -> Forall (fun v => p v = false) row.
Proof.
  induction row as [|v row IH]; intros H; simpl in H; [constructor|].
  destruct (p v) eqn:Ev; [discriminate|].
  destruct (firstIndex p row); [discriminate|].
  constructor; [assumption | now apply IH].
Qed.

(** An edge pair of one polarity is a non-empty band inside the row. *)
Lemma edgesSpec_bounds p row l r :
  edgesSpec p row = Some (l, r) -> (l < r <= length row)%nat.
Proof.
  unfold edgesSpec. destruct (firstIndex p row) as [l'|] eqn:El; [|discriminate].
  intros H. injection H as <- <-.
  destruct (firstIndex_Some _ _ _ El) as (Hl & v & Hv & Hp).
  destruct (firstIndex _ (skipn l' row)) as [k|] eqn:Ek; [|lia].
  destruct (firstIndex_Some _ _ _ Ek) as (Hk & u & Hu & Hq).
  rewrite length_skipn in Hk. rewrite nth_error_skipn in Hu.
  destruct k as [|k]; [|lia].
  rewrite Nat.add_0_r in Hu. rewrite Hv in Hu. injection Hu as <-.
  rewrite Hp in Hq. discriminate.
Qed.

(** One of the two polarities always finds a left edge on a non-empty row. *)
Lemma polarityEdges_found threshold row :
  row <> [] -> exists l r, polarityEdges threshold row = Some (l, r).
Proof.
  intros Hne. unfold polarityEdges.
  destruct (edgesSpec (light threshold) row) as [[l r]|] eqn:E; [now exists l, r|].
  unfold edgesSpec in E.
  destruct (firstIndex (light threshold) row) eqn:El; [discriminate|].
  apply firstIndex_None in El.
  destruct row as [|v row]; [congruence|].
  inversion El as [|? ? Hv _]; subst.
  assert (Hd : dark threshold v = true).
  { unfold light, Qltb in Hv. unfold dark. now apply negb_false_iff in Hv. }
  unfold edgesSpec. cbn [firstIndex]. rewrite Hd. eauto.
Qed.

Lemma polarityEdges_bounds threshold row l r :
  polarityEdges threshold row = Some (l, r) -> (l < r <= length row)%nat.
Proof.
  unfold polarityEdges.
  destruct (edgesSpec (light threshold) row) as [e|] eqn:E.
  - intros H. injection H as ->. now apply edgesSpec_bounds in E.
  - apply edgesSpec_bounds.
Qed.

(** The edges of one pass, after "use width". *)
Lemma closeEdge_scan p row :
  closeEdge (length row)
    (scanRow (sampleTest p row) (seq 0 (length row)) (-1) (-1))
  = match edgesSpec p row with
    | Some (l, r) => (Z.of_nat l, Z.of_nat r)
    | None => ((-1)%Z, (-1)%Z)
    end.
Proof.
  pose proof (scanRow_left p row []) as H. cbn [app length] in H. rewrite H.
  unfold edgesSpec, closeEdge.
  destruct (firstIndex p row) as [l|]; [|reflexivity].
  cbn [fst snd Nat.add].
  assert (El : (Z.of_nat l =? -1)%Z = false) by (apply Z.eqb_neq; lia).
  rewrite El. cbn [negb andb].
  destruct (firstIndex _ (skipn l row)) as [k|].
  - assert (Ek : (Z.of_nat (l + k) =? -1)%Z = false) by (apply Z.eqb_neq; lia).
    now rewrite Ek.
  - reflexivity.
Qed.

(** The loops of one row compute the edges of the specification. *)
Lemma rowEdges_row threshold row :
  rowEdges row (length row) 0 threshold
  = match polarityEdges threshold row with
    | Some (l, r) => (Z.of_nat l, Z.of_nat r)
    | None => ((-1)%Z, (-1)%Z)
    end.
Proof.
  unfold rowEdges. cbn [Nat.add].
  change (fun x => isLight row threshold x) with (sampleTest (light threshold) row).
  change (fun x => isDark row threshold x) with (sampleTest (dark threshold) row).
  rewrite closeEdge_scan. unfold polarityEdges.
  destruct (edgesSpec (light threshold) row) as [[l r]|].
  - cbn [fst]. assert (El : (Z.of_nat l =? -1)%Z = false) by (apply Z.eqb_neq; lia).
    now rewrite El.
  - cbn [fst snd]. rewrite Z.eqb_refl. apply closeEdge_scan.
Qed.

Lemma rowAmplitude_row threshold row l r :
  polarityEdges threshold row = Some (l, r) ->
  rowAmplitude row (length row) 0 threshold
  = inject_Z (Z.of_nat r - Z.of_nat l) / inject_Z (Z.of_nat (length row)).
Proof.
  intros H. unfold rowAmplitude. rewrite rowEdges_row, H. cbn [fst snd].
  assert (El : (Z.of_nat l =? -1)%Z = false) by (apply Z.eqb_neq; lia).
  assert (Er : (Z.of_nat r =? -1)%Z = false) by (apply Z.eqb_neq; lia).
  now rewrite El, Er.
Qed.

(** ** Rows are scanned independently *)

Lemma nth_error_rowOf data w y x :
  (x < w)%nat -> nth_error (rowOf data w y) x = nth_error data (y * w + x).
Proof.
  intros Hx. unfold rowOf. rewrite nth_error_firstn, nth_error_skipn.
  destruct (Nat.ltb_spec x w); [reflexivity | lia].
Qed.

Lemma nth_as_error (l : list Q) n d :
  nth n l d = match nth_error l n with Some v => v | None => d end.
Proof.
  destruct (nth_error l n) eqn:E.
  - now apply nth_error_nth.
  - now apply nth_error_nth_None.
Qed.

Lemma length_rowOf data w h y :
  length data = (w * h)%nat -> (y < h)%nat -> length (rowOf data w y) = w.
Proof.
  intros Hlen Hy. unfold rowOf. rewrite length_firstn, length_skipn. nia.
Qed.

Lemma rowEdges_rowOf data w y threshold :
  rowEdges data w (y * w) threshold = rowEdges (rowOf data w y) w 0 threshold.
Proof.
  unfold rowEdges.
  rewrite (scanRow_ext (fun x => isLight data threshold (y * w + x))
             (fun x => isLight (rowOf data w y) threshold (0 + x))).
  2:{ intros x Hx. apply in_seq in Hx. unfold isLight. cbn [Nat.add].
      rewrite nth_error_rowOf by lia. reflexivity. }
  rewrite (scanRow_ext (fun x => isDark data threshold (y * w + x))
             (fun x => isDark (rowOf data w y) threshold (0 + x))).
  2:{ intros x Hx. apply in_seq in Hx. unfold isDark. cbn [Nat.add].
      rewrite nth_error_rowOf by lia. reflexivity. }
  reflexivity.
Qed.

Lemma fold_left_ext_in {A B : Type} (f g : A -> B -> A) (l : list B) (a : A) :
  (forall a x, In x l -> f a x = g a x) -> fold_left f l a = fold_left g l a.
Proof.
  revert a. induction l as [|x l IH]; intros a H; simpl; [reflexivity|].
  rewrite (H a x) by now left. apply IH. intros; apply H; now right.
Qed.

Lemma rowBrightness_rowOf data w y :
  rowBrightness data w (y * w) = rowBrightness (rowOf data w y) w 0.
Proof.
  unfold rowBrightness. f_equal. f_equal.
  apply fold_left_ext_in. intros a x Hx. apply in_seq in Hx. cbn [Nat.add].
  rewrite !nth_as_error, nth_error_rowOf by lia. reflexivity.
Qed.

Lemma rowAmplitude_rowOf data w y threshold :
  rowAmplitude data w (y * w) threshold
  = rowAmplitude (rowOf data w y) w 0 threshold.
Proof.
  unfold rowAmplitude. now rewrite rowEdges_rowOf, rowBrightness_rowOf.
Qed.

Lemma rowEdges_spec data w h y threshold :
  length data = (w * h)%nat -> (y < h)%nat ->
  rowEdges data w (y * w) threshold
  = match polarityEdges threshold (rowOf data w y) with
    | Some (l, r) => (Z.of_nat l, Z.of_nat r)
    | None => ((-1)%Z, (-1)%Z)
    end.
Proof.
  intros Hlen Hy. rewrite rowEdges_rowOf.
  pose proof (rowEdges_row threshold (rowOf data w y)) as H.
  now rewrite (length_rowOf data w h y Hlen Hy) in H.
Qed.

Lemma rowAmplitude_spec data w h y threshold l r :
  length data = (w * h)%nat -> (y < h)%nat ->
  polarityEdges threshold (rowOf data w y) = Some (l, r) ->
  rowAmplitude data w (y * w) threshold
  = inject_Z (Z.of_nat r - Z.of_nat l) / inject_Z (Z.of_nat w).
Proof.
  intros Hlen Hy He. rewrite rowAmplitude_rowOf.
  pose proof (rowAmplitude_row threshold (rowOf data w y) l r He) as H.
  now rewrite (length_rowOf data w h y Hlen Hy) in H.
Qed.

Lemma findBoundaries_nth data w h threshold y :
  (y < h)%nat ->
  nth y (findBoundaries data w h threshold) 0
  = fstore (rowAmplitude data w (y * w) threshold).
Proof. intros Hy. unfold findBoundaries. now rewrite nth_map_seq. Qed.

(** ** C4 *)

(** C4.  The boundary scanner treats each row on its own: the amplitude of
    row [y] is the one computed from the samples of that row alone.  Its
    edges are those of the specification: [leftEdge] is the first sample
    strictly above the threshold and [rightEdge] the first later sample at
    or below it, or the row width; when no sample is above the threshold,
    the same with the polarity inverted; and when an edge pair is found the
    raw amplitude is [(rightEdge - leftEdge) / width]. *)
Theorem findBoundaries_scans_each_row data width height threshold :
  length data = (width * height)%nat ->
  findBoundaries data width height threshold
  = map (fun y => fstore (rowAmplitude (rowOf data width y) width 0 threshold))
        (seq 0 height)
  /\
  forall y, (y < height)%nat ->
    rowEdges data width (y * width) threshold
    = match polarityEdges threshold (rowOf data width y) with
      | Some (l, r) => (Z.of_nat l, Z.of_nat r)
      | None => ((-1)%Z, (-1)%Z)
      end
    /\
    forall l r, polarityEdges threshold (rowOf data width y) = Some (l, r) ->
      rowAmplitude data width (y * width) threshold
      = inject_Z (Z.of_nat r - Z.of_nat l) / inject_Z (Z.of_nat width).
Proof.
  intros Hlen. split.
  - unfold findBoundaries. apply map_ext. intros y.
    now rewrite rowAmplitude_rowOf.
  - intros y Hy. split.
    + now apply rowEdges_spec with (h := height).
    + intros l r. now apply rowAmplitude_spec with (h := height).
Qed.

Lemma findBoundaries_scans_each_row_witness :
  findBoundaries [0; 9; 9; 0; 9; 9; 9; 9; 0; 0; 0; 0] 4 3 5
  = map (fun y => fstore (rowAmplitude
                            (rowOf [0; 9; 9; 0; 9; 9; 9; 9; 0; 0; 0; 0] 4 y) 4 0 5))
        (seq 0 3).
Proof.
  apply (findBoundaries_scans_each_row [0; 9; 9; 0; 9; 9; 9; 9; 0; 0; 0; 0] 4 3 5).
  reflexivity.
Defined.

(** ** C9 *)

(** C9.  On a row of positive width one of the two passes finds a left
    edge: after both passes [0 <= leftEdge < rightEdge <= width], so the
    brightness fallback is not taken, the raw amplitude is
    [(rightEdge - leftEdge) / width], and it lies in (0, 1]. *)
Theorem findBoundaries_edges_always_found data width height threshold y :
  (0 < width)%nat -> length data = (width * height)%nat -> (y < height)%nat ->
  let e := rowEdges data width (y * width) threshold in
  (0 <= fst e < snd e)%Z /\ (snd e <= Z.of_nat width)%Z /\
  rowAmplitude data width (y * width) threshold
  = inject_Z (snd e - fst e) / inject_Z (Z.of_nat width) /\
  0 < nth y (findBoundaries data width height threshold) 0 <= 1.
Proof.
  intros Hw Hlen Hy e.
  pose proof (length_rowOf data width height y Hlen Hy) as Hrow.
  destruct (polarityEdges_found threshold (rowOf data width y)) as (l & r & He).
  { intros E. rewrite E in Hrow. simpl in Hrow. lia. }
  pose proof (polarityEdges_bounds _ _ _ _ He) as Hb. rewrite Hrow in Hb.
  assert (Ee : e = (Z.of_nat l, Z.of_nat r)).
  { unfold e. rewrite (rowEdges_spec data width height y threshold Hlen Hy).
    now rewrite He. }
  pose proof (rowAmplitude_spec data width height y threshold l r Hlen Hy He) as Ha.
  rewrite Ee. cbn [fst snd].
  split; [lia|]. split; [lia|]. split; [assumption|].
  rewrite findBoundaries_nth by assumption. rewrite fstore_eq, Ha.
  assert (Hwq : 0 < inject_Z (Z.of_nat width)).
  { change 0 with (inject_Z 0). rewrite <- Zlt_Qlt. lia. }
  split.
  - apply Qlt_shift_div_l; [assumption|]. rewrite Qmult_0_l.
    change 0 with (inject_Z 0). rewrite <- Zlt_Qlt. lia.
  - apply Qle_shift_div_r; [assumption|]. rewrite Qmult_1_l.
    rewrite <- Zle_Qle. lia.
Qed.

Lemma findBoundaries_edges_always_found_witness :
  0 < nth 2 (findBoundaries [0; 9; 9; 0; 9; 9; 9; 9; 0; 0; 0; 0] 4 3 5) 0 <= 1.
Proof.
  apply (findBoundaries_edges_always_found
           [0; 9; 9; 0; 9; 9; 9; 9; 0; 0; 0; 0] 4 3 5 2).
  - lia.
  - reflexivity.
  - lia.
Defined.

(** * Doubles

    What the proofs need of the rounding: it keeps 0 and the sign, and it
    does not cross an integer that is itself a double. *)

Lemma two_neq_0 : ~ 2 == 0.
Proof. discriminate. Qed.

Lemma pow2_pos e : 0 < 2 ^ e.
Proof. apply Qpower_0_lt. reflexivity. Qed.

Lemma pow2_Z n : (0 <= n)%Z -> inject_Z (2 ^ n) == 2 ^ n.
Proof. intros H. now rewrite Zpower_Qpower. Qed.

Lemma ilog2_spec q : 0 < q -> 2 ^ ilog2 q <= q /\ q < 2 ^ (ilog2 q + 1).
Proof.
  intros Hq. destruct q as [n d]. unfold ilog2. cbn [Qnum Qden].
  assert (Hn : (0 < n)%Z).
  { unfold Qlt in Hq. cbn in Hq. lia. }
  set (a := Z.log2 n). set (b := Z.log2 (Z.pos d)).
  pose proof (Z.log2_nonneg n) as Ha0. fold a in Ha0.
  pose proof (Z.log2_nonneg (Z.pos d)) as Hb0. fold b in Hb0.
  destruct (Z.log2_spec n Hn) as [Ha1 Ha2]. fold a in Ha1, Ha2.
  destruct (Z.log2_spec (Z.pos d) ltac:(lia)) as [Hb1 Hb2]. fold b in Hb1, Hb2.
  assert (Ea1 : 2 ^ a <= inject_Z n).
  { rewrite <- pow2_Z by lia. now rewrite <- Zle_Qle. }
  assert (Ea2 : inject_Z n < 2 ^ (a + 1)).
  { rewrite <- pow2_Z by lia. now rewrite <- Zlt_Qlt. }
  assert (Eb1 : 2 ^ b <= inject_Z (Z.pos d)).
  { rewrite <- pow2_Z by lia. now rewrite <- Zle_Qle. }
  assert (Eb2 : inject_Z (Z.pos d) < 2 ^ (b + 1)).
  { rewrite <- pow2_Z by lia. now rewrite <- Zlt_Qlt. }
  assert (Hd : 0 < inject_Z (Z.pos d)) by reflexivity.
  assert (Eq : n # d == inject_Z n / inject_Z (Z.pos d)) by apply Qmake_Qdiv.
  assert (Hlow : 2 ^ (a - b - 1) <= n # d).
  { rewrite Eq. apply Qle_shift_div_l; [assumption|].
    apply Qle_trans with (2 ^ a); [|assumption].
    apply Qle_trans with (2 ^ (a - b - 1) * 2 ^ (b + 1)).
    - apply Qmult_le_l; [apply pow2_pos | now apply Qlt_le_weak].
    - rewrite <- Qpower_plus by apply two_neq_0.
      replace (a - b - 1 + (b + 1))%Z with a by lia. apply Qle_refl. }
  assert (Hhigh : n # d < 2 ^ (a - b + 1)).
  { rewrite Eq. apply Qlt_shift_div_r; [assumption|].
    apply Qlt_le_trans with (2 ^ (a + 1)); [assumption|].
    apply Qle_trans with (2 ^ (a - b + 1) * 2 ^ b).
    - rewrite <- Qpower_plus by apply two_neq_0.
      replace (a - b + 1 + b)%Z with (a + 1)%Z by lia. apply Qle_refl.
    - apply Qmult_le_l; [apply pow2_pos | assumption]. }
  destruct (Qltb (n # d) (2 ^ (a - b))) eqn:E.
  - apply Qltb_lt in E. split; [assumption|].
    replace (a - b - 1 + 1)%Z with (a - b)%Z by lia. assumption.
  - apply Qltb_ge in E. split; assumption.
Qed.

Lemma roundEven_le q k : q <= inject_Z k -> (roundEven q <= k)%Z.
Proof.
  intros H. unfold roundEven.
  pose proof (Qfloor_le q) as Hf. pose proof (Qlt_floor q) as Hc.
  rewrite inject_Z_plus in Hc. change (inject_Z 1) with 1 in Hc.
  assert (Hfk : (Qfloor q <= k)%Z).
  { rewrite <- (Qfloor_Z k). now apply Qfloor_resp_le. }
  destruct (Z.eq_dec (Qfloor q) k) as [E | E].
  - assert (Hr : q - inject_Z (Qfloor q) < 1 # 2) by (rewrite E in *; lra).
    destruct (Qltb (q - inject_Z (Qfloor q)) (1 # 2)) eqn:E1; [lia|].
    apply Qltb_ge in E1. lra.
  - destruct (Qltb _ _); [lia|]. destruct (Qltb _ _); [lia|].
    destruct (Z.even _); lia.
Qed.

Lemma roundEven_ge q k : inject_Z k <= q -> (k <= roundEven q)%Z.
Proof.
  intros H. unfold roundEven.
  assert (Hfk : (k <= Qfloor q)%Z).
  { rewrite <- (Qfloor_Z k). now apply Qfloor_resp_le. }
  destruct (Qltb _ _); [lia|]. destruct (Qltb _ _); [lia|].
  destruct (Z.even _); lia.
Qed.

Lemma double_comp q q' : q == q' -> double q = double q'.
Proof. intros H. unfold double. now rewrite (Qred_complete q q' H). Qed.

Lemma double_0 : double 0 = 0.
Proof. reflexivity. Qed.

Lemma double_zero q : q == 0 -> double q = 0.
Proof. intros H. rewrite (double_comp q 0 H). apply double_0. Qed.

Lemma Qabs_cases q : (0 <= q /\ Qabs q == q) \/ (q < 0 /\ Qabs q == - q).
Proof.
  destruct (Qlt_le_dec q 0) as [H | H].
  - right. split; [assumption|]. apply Qabs_neg. now apply Qlt_le_weak.
  - left. split; [assumption|]. now apply Qabs_pos.
Qed.

(** The value of [double] on a non-zero number: the exponent [e] of the
    last bit kept puts the number between [2 ^ (e + 52)] and
    [2 ^ (e + 53)]. *)
Lemma double_value q :
  ~ q == 0 ->
  exists r e, r == q /\
              2 ^ (e + 52) <= Qabs q /\ Qabs q < 2 ^ (e + 53) /\
              double q == inject_Z (roundEven (r / 2 ^ e)) * 2 ^ e.
Proof.
  intros Hne. exists (Qred q), (ilog2 (Qabs (Qred q)) - 52)%Z.
  assert (Er : Qred q == q) by apply Qred_correct.
  split; [assumption|].
  assert (Hpos : 0 < Qabs (Qred q)).
  { destruct (Qabs_cases (Qred q)) as [[H E] | [H E]]; rewrite E; [|lra].
    apply Qle_lteq in H. destruct H as [H | H]; [assumption|].
    exfalso. apply Hne. rewrite <- Er, <- H. reflexivity. }
  destruct (ilog2_spec _ Hpos) as [H1 H2].
  replace (ilog2 (Qabs (Qred q)) - 52 + 52)%Z with (ilog2 (Qabs (Qred q))) by lia.
  replace (ilog2 (Qabs (Qred q)) - 52 + 53)%Z with (ilog2 (Qabs (Qred q)) + 1)%Z
    by lia.
  assert (Ea : Qabs q == Qabs (Qred q)) by (now rewrite Er).
  split; [now rewrite Ea|]. split; [now rewrite Ea|].
  unfold double. cbv zeta.
  destruct (Qnum (Qred q) =? 0)%Z eqn:E.
  - exfalso. apply Z.eqb_eq in E. apply Hne. rewrite <- Er.
    unfold Qeq. rewrite E. reflexivity.
  - apply Qred_correct.
Qed.

Lemma double_nonneg q : 0 <= q -> 0 <= double q.
Proof.
  intros H. destruct (Qeq_dec q 0) as [E | E].
  - rewrite (double_zero q E). apply Qle_refl.
  - destruct (double_value q E) as (r & e & Er & _ & _ & ->).
    apply Qmult_le_0_compat; [|apply Qlt_le_weak, pow2_pos].
    change 0 with (inject_Z 0). rewrite <- Zle_Qle.
    apply roundEven_ge. change (inject_Z 0) with 0.
    apply Qle_shift_div_l; [apply pow2_pos|]. rewrite Er. lra.
Qed.

Lemma double_nonpos q : q <= 0 -> double q <= 0.
Proof.
  intros H. destruct (Qeq_dec q 0) as [E | E].
  - rewrite (double_zero q E). apply Qle_refl.
  - destruct (double_value q E) as (r & e & Er & _ & _ & ->).
    pose proof (pow2_pos e) as Hp.
    assert (Hr : (roundEven (r / 2 ^ e) <= 0)%Z).
    { apply roundEven_le. change (inject_Z 0) with 0.
      apply Qle_shift_div_r; [assumption|]. rewrite Er. lra. }
    rewrite Zle_Qle in Hr. change (inject_Z 0) with 0 in Hr. nra.
Qed.

(** Below [2 ^ 53] the integers are doubles, so rounding does not cross
    them. *)
Lemma double_grid q e :
  Qabs q < 2 ^ (e + 53) -> 2 ^ (e + 52) <= Qabs q -> Qabs q < 2 ^ 53 ->
  (e <= 0)%Z.
Proof.
  intros H1 H2 H3.
  assert (H : 2 ^ (e + 52) < 2 ^ 53) by (eapply Qle_lt_trans; eassumption).
  apply Qpower_lt_compat_l_inv in H; [lia | reflexivity].
Qed.

Lemma scaled_int k e :
  (e <= 0)%Z -> inject_Z (k * 2 ^ (- e)) * 2 ^ e == inject_Z k.
Proof.
  intros He. rewrite inject_Z_mult, pow2_Z by lia.
  rewrite <- Qmult_assoc, <- Qpower_plus by apply two_neq_0.
  replace (- e + e)%Z with 0%Z by lia. change (2 ^ 0) with 1. ring.
Qed.

Lemma div_pow2 r e : r / 2 ^ e == r * 2 ^ (- e).
Proof. rewrite Qpower_opp. reflexivity. Qed.

Lemma double_le_int q k :
  Qabs q < 2 ^ 53 -> q <= inject_Z k -> double q <= inject_Z k.
Proof.
  intros Hb H. destruct (Qeq_dec q 0) as [E | E].
  - rewrite (double_zero q E). rewrite <- E. assumption.
  - destruct (double_value q E) as (r & e & Er & H1 & H2 & ->).
    pose proof (double_grid q e H2 H1 Hb) as He.
    pose proof (pow2_pos e) as Hp. pose proof (pow2_pos (- e)) as Hp'.
    assert (Hr : (roundEven (r / 2 ^ e) <= k * 2 ^ (- e))%Z).
    { apply roundEven_le. rewrite div_pow2, inject_Z_mult, pow2_Z by lia.
      rewrite Er. nra. }
    rewrite <- (scaled_int k e He).
    rewrite Zle_Qle in Hr. nra.
Qed.

Lemma double_ge_int q k :
  Qabs q < 2 ^ 53 -> inject_Z k <= q -> inject_Z k <= double q.
Proof.
  intros Hb H. destruct (Qeq_dec q 0) as [E | E].
  - rewrite (double_zero q E). rewrite <- E. assumption.
  - destruct (double_value q E) as (r & e & Er & H1 & H2 & ->).
    pose proof (double_grid q e H2 H1 Hb) as He.
    pose proof (pow2_pos e) as Hp. pose proof (pow2_pos (- e)) as Hp'.
    assert (Hr : (k * 2 ^ (- e) <= roundEven (r / 2 ^ e))%Z).
    { apply roundEven_ge. rewrite div_pow2, inject_Z_mult, pow2_Z by lia.
      rewrite Er. nra. }
    rewrite <- (scaled_int k e He).
    rewrite Zle_Qle in Hr. nra.
Qed.

Lemma double_int k :
  (Z.abs k < 2 ^ 53)%Z -> double (inject_Z k) == inject_Z k.
Proof.
  intros Hk.
  assert (Hb : Qabs (inject_Z k) < 2 ^ 53).
  { rewrite <- pow2_Z by lia.
    change (Qabs (inject_Z k)) with (inject_Z (Z.abs k)).
    now rewrite <- Zlt_Qlt. }
  apply Qle_antisym.
  - apply double_le_int; [assumption | apply Qle_refl].
  - apply double_ge_int; [assumption | apply Qle_refl].
Qed.

(** Rounding does not cross 1 or -1, whatever the magnitude. *)
Lemma double_ge_1 q : 1 <= q -> 1 <= double q.
Proof.
  intros H. assert (E : ~ q == 0) by (intros E; lra).
  destruct (double_value q E) as (r & e & Er & H1 & H2 & Ev).
  assert (Ea : Qabs q == q) by (apply Qabs_pos; lra).
  rewrite Ea in H1, H2.
  destruct (Z.le_gt_cases e 0) as [He | He].
  - rewrite Ev. pose proof (pow2_pos e) as Hp. pose proof (pow2_pos (- e)) as Hp'.
    assert (Hr : (1 * 2 ^ (- e) <= roundEven (r / 2 ^ e))%Z).
    { apply roundEven_ge. rewrite div_pow2, inject_Z_mult, pow2_Z by lia.
      rewrite Er. change (inject_Z 1) with 1. nra. }
    change 1 with (inject_Z 1). rewrite <- (scaled_int 1 e He).
    rewrite Zle_Qle in Hr. nra.
  - rewrite Ev. pose proof (pow2_pos e) as Hp.
    assert (Hr : (2 ^ 52 <= roundEven (r / 2 ^ e))%Z).
    { apply roundEven_ge. rewrite pow2_Z by lia.
      apply Qle_shift_div_l; [assumption|].
      rewrite <- Qpower_plus by apply two_neq_0.
      rewrite Er. replace (52 + e)%Z with (e + 52)%Z by lia. assumption. }
    assert (Hp1 : 1 <= 2 ^ e) by (apply Qpower_1_le; [discriminate | lia]).
    rewrite Zle_Qle in Hr.
    assert (H52 : 1 <= inject_Z (2 ^ 52)) by discriminate.
    nra.
Qed.

Lemma double_le_m1 q : q <= -(1) -> double q <= -(1).
Proof.
  intros H. assert (E : ~ q == 0) by (intros E; lra).
  destruct (double_value q E) as (r & e & Er & H1 & H2 & Ev).
  assert (Ea : Qabs q == - q) by (apply Qabs_neg; lra).
  rewrite Ea in H1, H2.
  destruct (Z.le_gt_cases e 0) as [He | He].
  - rewrite Ev. pose proof (pow2_pos e) as Hp. pose proof (pow2_pos (- e)) as Hp'.
    assert (Hr : (roundEven (r / 2 ^ e) <= (-1) * 2 ^ (- e))%Z).
    { apply roundEven_le. rewrite div_pow2, inject_Z_mult, pow2_Z by lia.
      rewrite Er. change (inject_Z (-1)) with (-(1)). nra. }
    change (-(1)) with (inject_Z (-1)). rewrite <- (scaled_int (-1) e He).
    rewrite Zle_Qle in Hr. nra.
  - rewrite Ev. pose proof (pow2_pos e) as Hp.
    assert (Hr : (roundEven (r / 2 ^ e) <= - 2 ^ 52)%Z).
    { apply roundEven_le. rewrite inject_Z_opp, pow2_Z by lia.
      apply Qle_shift_div_r; [assumption|].
      setoid_replace (- 2 ^ 52 * 2 ^ e) with (- (2 ^ 52 * 2 ^ e)) by ring.
      rewrite <- Qpower_plus by apply two_neq_0.
      rewrite Er. replace (52 + e)%Z with (e + 52)%Z by lia. lra. }
    assert (Hp1 : 1 <= 2 ^ e) by (apply Qpower_1_le; [discriminate | lia]).
    rewrite Zle_Qle in Hr. rewrite inject_Z_opp in Hr.
    assert (H52 : 1 <= inject_Z (2 ^ 52)) by discriminate.
    nra.
Qed.

(** A brightness mean lies in [[0, 255]], far below [2 ^ 53]. *)
Lemma brightness_range q : 0 <= q <= 255 -> Qabs q < 2 ^ 53.
Proof.
  intros [H0 H1]. rewrite Qabs_pos by assumption.
  apply Qle_lt_trans with 255; [assumption | reflexivity].
Qed.

(** * The threshold selector *)

Lemma bin_of_nat h n : bin h (Z.of_nat n) = nth n h 0%Z.
Proof. unfold bin. now rewrite Nat2Z.id. Qed.

Lemma bin_nonneg h t : Forall (fun c => (0 <= c)%Z) h -> (0 <= bin h t)%Z.
Proof.
  intros Hall. unfold bin.
  destruct (Nat.lt_ge_cases (Z.to_nat t) (length h)) as [Hi | Hi].
  - rewrite Forall_forall in Hall. apply Hall. now apply nth_In.
  - rewrite nth_overflow by assumption. lia.
Qed.

Lemma cumCount_step h n :
  cumCount h (S n) = (cumCount h n + bin h (Z.of_nat n))%Z.
Proof. reflexivity. Qed.

Lemma cumSum_step h n :
  cumSum h (S n) = (cumSum h n + Z.of_nat n * bin h (Z.of_nat n))%Z.
Proof. reflexivity. Qed.

Lemma cumCount_mono h n m :
  Forall (fun c => (0 <= c)%Z) h -> (n <= m)%nat ->
  (cumCount h n <= cumCount h m)%Z.
Proof.
  intros Hall Hnm. induction Hnm as [|m Hnm IH]; [lia|].
  rewrite cumCount_step. pose proof (bin_nonneg h (Z.of_nat m) Hall). lia.
Qed.

Lemma cumCount_nonneg h n :
  Forall (fun c => (0 <= c)%Z) h -> (0 <= cumCount h n)%Z.
Proof. intros Hall. apply (cumCount_mono h 0 n Hall). lia. Qed.

(** The brightness sum of the bins below [n] is at most [n - 1] per pixel,
    and the one of the bins from [n] on at least [n] per pixel. *)
Lemma cumSum_upper h n :
  Forall (fun c => (0 <= c)%Z) h ->
  (cumSum h (S n) <= Z.of_nat n * cumCount h (S n))%Z.
Proof.
  intros Hall. induction n as [|n IH].
  - cbn [cumSum cumCount]. lia.
  - rewrite cumSum_step, cumCount_step.
    pose proof (bin_nonneg h (Z.of_nat (S n)) Hall).
    pose proof (cumCount_nonneg h (S n) Hall). nia.
Qed.

Lemma cumSum_lower h n m :
  Forall (fun c => (0 <= c)%Z) h -> (n <= m)%nat ->
  (Z.of_nat n * (cumCount h m - cumCount h n) <= cumSum h m - cumSum h n)%Z.
Proof.
  intros Hall Hnm. induction Hnm as [|m Hnm IH]; [lia|].
  rewrite cumSum_step, cumCount_step.
  pose proof (bin_nonneg h (Z.of_nat m) Hall). nia.
Qed.

Lemma weightedSum_cumSum h : weightedSum h = cumSum h 256.
Proof.
  unfold weightedSum, candidates. generalize 256%nat. intros n.
  induction n as [|n IH]; [reflexivity|].
  rewrite seq_S, map_app, fold_left_app, IH. reflexivity.
Qed.

(** ** The between-class variance *)

Lemma classVariance_empty_below sum sumB wF : classVariance sum sumB 0 wF == 0.
Proof.
  unfold classVariance. cbv zeta.
  assert (E1 : double (inject_Z 0 * inject_Z wF) = 0)
    by (apply double_zero; change (inject_Z 0) with 0; ring).
  rewrite E1.
  assert (E2 : forall diff, double (0 * diff) = 0)
    by (intros diff; apply double_zero; ring).
  rewrite !E2. reflexivity.
Qed.

Lemma classVariance_empty_above sum sumB wB : classVariance sum sumB wB 0 == 0.
Proof.
  unfold classVariance. cbv zeta.
  assert (E1 : double (inject_Z wB * inject_Z 0) = 0)
    by (apply double_zero; change (inject_Z 0) with 0; ring).
  rewrite E1.
  assert (E2 : forall diff, double (0 * diff) = 0)
    by (intros diff; apply double_zero; ring).
  rewrite !E2. reflexivity.
Qed.

Lemma classVariance_nonneg sum sumB wB wF :
  (0 <= wB)%Z -> (0 <= wF)%Z -> 0 <= classVariance sum sumB wB wF.
Proof.
  intros HB HF. unfold classVariance. cbv zeta.
  set (diff := double (double (inject_Z sumB / inject_Z wB)
                       - double (inject_Z (sum - sumB) / inject_Z wF))).
  assert (HB' : 0 <= inject_Z wB)
    by (change 0 with (inject_Z 0); now rewrite <- Zle_Qle).
  assert (HF' : 0 <= inject_Z wF)
    by (change 0 with (inject_Z 0); now rewrite <- Zle_Qle).
  assert (H1 : 0 <= double (inject_Z wB * inject_Z wF)).
  { apply double_nonneg. now apply Qmult_le_0_compat. }
  apply double_nonneg.
  destruct (Qlt_le_dec diff 0) as [Hd | Hd].
  - assert (H2 : double (double (inject_Z wB * inject_Z wF) * diff) <= 0).
    { apply double_nonpos. nra. }
    nra.
  - assert (H2 : 0 <= double (double (inject_Z wB * inject_Z wF) * diff)).
    { apply double_nonneg. now apply Qmult_le_0_compat. }
    now apply Qmult_le_0_compat.
Qed.

(** The brightness sum of the bins from [n] to [m - 1] is at most [m - 1]
    per pixel. *)
Lemma cumSum_between h n m :
  Forall (fun c => (0 <= c)%Z) h -> (n <= m)%nat ->
  (cumSum h m - cumSum h n
   <= (Z.of_nat m - 1) * (cumCount h m - cumCount h n))%Z.
Proof.
  intros Hall Hnm. induction Hnm as [|m Hnm IH]; [lia|].
  rewrite cumSum_step, cumCount_step.
  pose proof (bin_nonneg h (Z.of_nat m) Hall).
  pose proof (cumCount_mono h n m Hall Hnm). nia.
Qed.

Section Histogram.
Variable histogram : list Z.
Variable total : Z.
Hypothesis Hhist : histogramFor histogram total.

Let Hnonneg : Forall (fun c => (0 <= c)%Z) histogram := proj1 (proj2 Hhist).
Let Htotal : cumCount histogram 256 = total := proj2 (proj2 Hhist).

Local Notation "'bcv'" := (scanVariance histogram total).

Lemma bcv_nonneg t : (t < 256)%nat -> 0 <= bcv t.
Proof.
  intros Ht. unfold scanVariance. apply classVariance_nonneg.
  - now apply cumCount_nonneg.
  - pose proof (cumCount_mono histogram (S t) 256 Hnonneg). lia.
Qed.

Lemma bcv_empty_below t : cumCount histogram (S t) = 0%Z -> bcv t == 0.
Proof.
  intros H. unfold scanVariance. rewrite H.
  apply classVariance_empty_below.
Qed.

Lemma bcv_empty_above t :
  (total - cumCount histogram (S t) = 0)%Z -> bcv t == 0.
Proof.
  intros H. unfold scanVariance. rewrite H.
  apply classVariance_empty_above.
Qed.

(** Once every pixel is at or below [n], it is so for every later
    candidate. *)
Lemma all_below_from n t :
  (total - cumCount histogram (S n) = 0)%Z -> (n <= t)%nat -> (t < 256)%nat ->
  (total - cumCount histogram (S t) = 0)%Z.
Proof.
  intros H Hnt Ht.
  pose proof (cumCount_mono histogram (S n) (S t) Hnonneg).
  pose proof (cumCount_mono histogram (S t) 256 Hnonneg). lia.
Qed.

(** An empty bin does not change the variance. *)
Lemma bcv_empty_bin n :
  bin histogram (Z.of_nat (S n)) = 0%Z -> bcv (S n) = bcv n.
Proof.
  intros H. unfold scanVariance.
  rewrite (cumSum_step histogram (S n)), (cumCount_step histogram (S n)), H.
  now rewrite Z.mul_0_r, !Z.add_0_r.
Qed.

(** *** The invariant through one iteration *)

Lemma scanInv_same n s s' :
  maxVariance s' = maxVariance s -> threshold s' = threshold s ->
  scanInv histogram total n s -> scanInv histogram total n s'.
Proof.
  unfold scanInv, committed. intros -> ->. trivial.
Qed.

(** The candidate [n] does not beat the best so far ([continue], or the
    comparison fails). *)
Lemma scanInv_keep n s :
  (n < 256)%nat -> bcv n <= maxVariance s ->
  scanInv histogram total n s -> scanInv histogram total (S n) s.
Proof.
  intros Hn Hle (Hmax & Hall & Hc). split; [assumption|]. split.
  - intros t Ht. destruct (Nat.eq_dec t n) as [-> | Hne]; [assumption|].
    apply Hall. lia.
  - destruct Hc as [(HT & Hm & Hz) | (T & HT & HTn & Hrest)].
    + left. split; [assumption|]. split; [assumption|].
      intros t Ht. destruct (Nat.eq_dec t n) as [-> | Hne]; [|apply Hz; lia].
      apply Qle_antisym; [now rewrite Hm in Hle | now apply bcv_nonneg].
    + right. exists T. split; [assumption|]. split; [lia | assumption].
Qed.

(** The loop is left at candidate [n]: every later variance is 0. *)
Lemma scanInv_break n s :
  (n < 256)%nat -> (total - cumCount histogram (S n) = 0)%Z ->
  scanInv histogram total n s -> scanInv histogram total 256 s.
Proof.
  intros Hn Hbreak (Hmax & Hall & Hc).
  assert (Hz : forall t, (n <= t)%nat -> (t < 256)%nat -> bcv t == 0).
  { intros t Hnt Ht. apply bcv_empty_above. now apply all_below_from with n. }
  split; [assumption|]. split.
  - intros t Ht. destruct (Nat.lt_ge_cases t n) as [Hlt | Hge]; [now apply Hall|].
    now rewrite Hz.
  - destruct Hc as [(HT & Hm & Hz0) | (T & HT & HTn & Hrest)].
    + left. split; [assumption|]. split; [assumption|].
      intros t Ht. destruct (Nat.lt_ge_cases t n); [now apply Hz0 | now apply Hz].
    + right. exists T. split; [assumption|]. split; [lia | assumption].
Qed.

(** The candidate [n] beats the best so far and is committed. *)
Lemma scanInv_commit n s s' :
  (n < 256)%nat -> maxVariance s < bcv n ->
  cumCount histogram (S n) <> 0%Z ->
  (total - cumCount histogram (S n))%Z <> 0%Z ->
  maxVariance s' = bcv n -> threshold s' = Z.of_nat n ->
  scanInv histogram total n s -> scanInv histogram total (S n) s'.
Proof.
  intros Hn Hlt HB HF Hm HT (Hmax & Hall & Hc).
  assert (Hpos : 0 < bcv n) by (now apply Qle_lt_trans with (maxVariance s)).
  split; [rewrite Hm; now apply Qlt_le_weak|]. split.
  - intros t Ht. rewrite Hm.
    destruct (Nat.eq_dec t n) as [-> | Hne]; [apply Qle_refl|].
    apply Qle_trans with (maxVariance s); [apply Hall; lia|].
    now apply Qlt_le_weak.
  - right. exists n. repeat split; try assumption; try lia.
    + intros t Ht. apply Qle_lt_trans with (maxVariance s); [now apply Hall|].
      assumption.
    + pose proof (bin_nonneg histogram (Z.of_nat n) Hnonneg) as Hb.
      destruct (Z.eq_dec (bin histogram (Z.of_nat n)) 0) as [E | E]; [|lia].
      exfalso. destruct n as [|m].
      * apply HB. rewrite cumCount_step, E. reflexivity.
      * rewrite (bcv_empty_bin m E) in Hlt.
        apply (Qlt_not_le _ _ Hlt). apply Hall. lia.
    + pose proof (cumCount_mono histogram (S n) 256 Hnonneg). lia.
Qed.

(** *** The whole scan *)

Lemma otsuLoop_inv k : forall n s,
  (n + k = 256)%nat ->
  wB s = cumCount histogram n -> sumB s = cumSum histogram n ->
  scanInv histogram total n s ->
  scanInv histogram total 256
    (fst (otsuLoop histogram total (cumSum histogram 256)
                   (map Z.of_nat (seq n k)) s)).
Proof.
  induction k as [|k IH]; intros n s Hnk HwB HsumB Hinv.
  - replace n with 256%nat in Hinv by lia. exact Hinv.
  - cbn [seq map otsuLoop]. rewrite HwB, HsumB, <- cumCount_step, <- cumSum_step.
    destruct (cumCount histogram (S n) =? 0)%Z eqn:E0.
    + apply Z.eqb_eq in E0.
      assert (Eb : bin histogram (Z.of_nat n) = 0%Z).
      { pose proof (bin_nonneg histogram (Z.of_nat n) Hnonneg).
        pose proof (cumCount_nonneg histogram n Hnonneg).
        rewrite cumCount_step in E0. lia. }
      apply IH; [lia | reflexivity | | ].
      * cbn [sumB]. rewrite cumSum_step, Eb. lia.
      * apply scanInv_same with s; [reflexivity | reflexivity |].
        apply scanInv_keep; [lia | | assumption].
        rewrite (bcv_empty_below n E0). apply Hinv.
    + apply Z.eqb_neq in E0.
      destruct (total - cumCount histogram (S n) =? 0)%Z eqn:EF.
      * apply Z.eqb_eq in EF. cbn [fst].
        apply scanInv_same with s; [reflexivity | reflexivity |].
        apply scanInv_break with n; [lia | assumption | assumption].
      * apply Z.eqb_neq in EF.
        change (classVariance (cumSum histogram 256) (cumSum histogram (S n))
                  (cumCount histogram (S n)) (total - cumCount histogram (S n)))
          with (bcv n).
        destruct (Qltb (maxVariance s) (bcv n)) eqn:Ecmp.
        -- apply Qltb_lt in Ecmp.
           apply IH; [lia | reflexivity | reflexivity |].
           apply scanInv_commit with s; try assumption; try reflexivity. lia.
        -- apply Qltb_ge in Ecmp.
           apply IH; [lia | reflexivity | reflexivity |].
           apply scanInv_same with s; [reflexivity | reflexivity |].
           apply scanInv_keep; [lia | assumption | assumption].
Qed.

Lemma scanInv_init : scanInv histogram total 0 otsuInit.
Proof.
  split; [apply Qle_refl|]. split; [intros t Ht; lia|].
  left. split; [reflexivity|]. split; [reflexivity|]. intros t Ht; lia.
Qed.

Lemma otsuScan_inv :
  scanInv histogram total 256 (fst (otsuScan histogram total)).
Proof.
  unfold otsuScan, candidates. rewrite weightedSum_cumSum.
  apply otsuLoop_inv; [reflexivity | reflexivity | reflexivity | apply scanInv_init].
Qed.

(** *** The degenerate scan *)

Lemma otsuLoop_oneSided sum k : forall n s,
  (n + k = 256)%nat -> wB s = cumCount histogram n ->
  cumCount histogram n = 0%Z -> threshold s = 0%Z ->
  oneSided histogram total ->
  let r := otsuLoop histogram total sum (map Z.of_nat (seq n k)) s in
  threshold (fst r) = 0%Z /\
  match snd r with
  | Some b => exists m, b = Z.of_nat m /\ (m < 256)%nat /\
                        cumCount histogram m = 0%Z /\
                        cumCount histogram (S m) = total /\ total <> 0%Z
  | None => total = 0%Z
  end.
Proof.
  induction k as [|k IH]; intros n s Hnk HwB Hzero HT Hone.
  - cbn. split; [assumption|]. replace n with 256%nat in Hzero by lia. lia.
  - cbn [seq map otsuLoop]. rewrite HwB, <- cumCount_step.
    destruct (cumCount histogram (S n) =? 0)%Z eqn:E0.
    + apply Z.eqb_eq in E0. apply IH; try assumption; try reflexivity. lia.
    + apply Z.eqb_neq in E0.
      destruct (Hone n) as [H | H]; [lia | contradiction |].
      rewrite H. cbn [Z.eqb fst snd threshold]. split; [assumption|].
      exists n. repeat split; try assumption; lia.
Qed.

(** *** Two non-empty classes have a positive variance *)

Lemma bcv_pos t :
  (t < 256)%nat -> (0 < cumCount histogram (S t))%Z ->
  (0 < total - cumCount histogram (S t))%Z -> 1 <= bcv t.
Proof.
  intros Ht HB HF. unfold scanVariance, classVariance. cbv zeta.
  pose proof (cumSum_upper histogram t Hnonneg) as Hup.
  pose proof (cumSum_lower histogram (S t) 256 Hnonneg) as Hlow.
  pose proof (cumSum_between histogram (S t) 256 Hnonneg) as Hhigh.
  assert (Hsb : (0 <= cumSum histogram (S t))%Z).
  { pose proof (cumSum_lower histogram 0 (S t) Hnonneg ltac:(lia)) as H.
    change (cumSum histogram 0) with 0%Z in H.
    change (cumCount histogram 0) with 0%Z in H. lia. }
  rewrite Htotal in Hlow, Hhigh.
  specialize (Hlow ltac:(lia)). specialize (Hhigh ltac:(lia)).
  set (wb := cumCount histogram (S t)) in *.
  set (sb := cumSum histogram (S t)) in *.
  set (sm := cumSum histogram 256) in *.
  assert (HB' : 1 <= inject_Z wb)
    by (change 1 with (inject_Z 1); rewrite <- Zle_Qle; lia).
  assert (HF' : 1 <= inject_Z (total - wb))
    by (change 1 with (inject_Z 1); rewrite <- Zle_Qle; lia).
  assert (Ht' : inject_Z (Z.of_nat t) + 1 <= 256).
  { change 1 with (inject_Z 1). change 256 with (inject_Z 256).
    rewrite <- inject_Z_plus, <- Zle_Qle. lia. }
  assert (Ht0 : 0 <= inject_Z (Z.of_nat t)).
  { change 0 with (inject_Z 0). rewrite <- Zle_Qle. lia. }
  assert (HmB : 0 <= inject_Z sb / inject_Z wb <= inject_Z (Z.of_nat t)).
  { split.
    - apply Qle_shift_div_l; [lra|]. rewrite Qmult_0_l.
      change 0 with (inject_Z 0). rewrite <- Zle_Qle. lia.
    - apply Qle_shift_div_r; [lra|].
      rewrite <- inject_Z_mult, <- Zle_Qle. assumption. }
  assert (HmF : inject_Z (Z.of_nat t + 1)
                <= inject_Z (sm - sb) / inject_Z (total - wb) <= 255).
  { split.
    - apply Qle_shift_div_l; [lra|].
      rewrite <- inject_Z_mult, <- Zle_Qle. lia.
    - apply Qle_shift_div_r; [lra|]. change 255 with (inject_Z 255).
      rewrite <- inject_Z_mult, <- Zle_Qle. lia. }
  assert (HdB : double (inject_Z sb / inject_Z wb) <= inject_Z (Z.of_nat t)).
  { apply double_le_int; [|apply HmB]. apply brightness_range. lra. }
  assert (HdF : inject_Z (Z.of_nat t + 1)
                <= double (inject_Z (sm - sb) / inject_Z (total - wb))).
  { apply double_ge_int; [|apply HmF]. apply brightness_range.
    rewrite inject_Z_plus in HmF. change (inject_Z 1) with 1 in HmF. lra. }
  rewrite inject_Z_plus in HdF. change (inject_Z 1) with 1 in HdF.
  set (mB := double (inject_Z sb / inject_Z wb)) in *.
  set (mF := double (inject_Z (sm - sb) / inject_Z (total - wb))) in *.
  assert (Hdiff : double (mB - mF) <= -(1)) by (apply double_le_m1; lra).
  set (diff := double (mB - mF)) in *.
  assert (H1 : 1 <= double (inject_Z wb * inject_Z (total - wb))).
  { apply double_ge_1. nra. }
  set (p1 := double (inject_Z wb * inject_Z (total - wb))) in *.
  assert (H2 : double (p1 * diff) <= -(1)) by (apply double_le_m1; nra).
  apply double_ge_1. nra.
Qed.

Lemma cumCount_gap n m :
  (n <= m)%nat -> (cumCount histogram n < cumCount histogram m)%Z ->
  exists i, (n <= i < m)%nat /\ (0 < bin histogram (Z.of_nat i))%Z.
Proof.
  intros Hnm. induction Hnm as [|m Hnm IH]; intros Hlt; [lia|].
  destruct (Z.lt_ge_cases (cumCount histogram n) (cumCount histogram m)) as [H | H].
  - destruct (IH H) as (i & Hi & Hb). exists i. split; [lia | assumption].
  - exists m. split; [lia|]. rewrite cumCount_step in Hlt. lia.
Qed.
End Histogram.

(** ** The histogram of a field *)

Lemma length_incrAt b h : length (incrAt b h) = length h.
Proof.
  revert b. induction h as [|c h IH]; intros [|b]; simpl; auto.
Qed.

Lemma incrAt_nonneg b h :
  Forall (fun c => (0 <= c)%Z) h -> Forall (fun c => (0 <= c)%Z) (incrAt b h).
Proof.
  revert b. induction h as [|c h IH]; intros b Hall; [destruct b; constructor|].
  inversion Hall; subst. destruct b; simpl; constructor; auto. lia.
Qed.

Lemma nth_incrAt b h : forall i,
  nth i (incrAt b h) 0%Z
  = (nth i h 0 + if (i =? b)%nat && (b <? length h)%nat then 1 else 0)%Z.
Proof.
  revert b. induction h as [|c h IH]; intros b i.
  - destruct b, i; simpl; rewrite ?andb_false_r; reflexivity.
  - destruct b as [|b], i as [|i]; simpl; try lia.
    rewrite IH. reflexivity.
Qed.

Lemma cumCount_incrAt b h n :
  cumCount (incrAt b h) n
  = (cumCount h n + if (b <? n)%nat && (b <? length h)%nat then 1 else 0)%Z.
Proof.
  induction n as [|n IH]; [reflexivity|].
  rewrite !cumCount_step, IH, !bin_of_nat, nth_incrAt.
  destruct (Nat.ltb_spec b (length h)); rewrite ?andb_false_r, ?andb_true_r; [|lia].
  destruct (Nat.eqb_spec n b), (Nat.ltb_spec b n), (Nat.ltb_spec b (S n)); lia.
Qed.

Lemma binOf_range v : (0 <= binOf v <= 255)%Z.
Proof. unfold binOf. lia. Qed.

Lemma histogram_fold g : forall h0,
  length h0 = 256%nat -> Forall (fun c => (0 <= c)%Z) h0 ->
  let h := fold_left (fun h v => incrAt (Z.to_nat (binOf v)) h) g h0 in
  length h = 256%nat /\ Forall (fun c => (0 <= c)%Z) h /\
  cumCount h 256 = (cumCount h0 256 + Z.of_nat (length g))%Z.
Proof.
  induction g as [|v g IH]; intros h0 Hlen Hall.
  - cbn [fold_left length]. repeat split; auto. lia.
  - cbn [fold_left length].
    destruct (IH (incrAt (Z.to_nat (binOf v)) h0)) as (H1 & H2 & H3).
    + now rewrite length_incrAt.
    + now apply incrAt_nonneg.
    + split; [assumption|]. split; [assumption|].
      rewrite H3, cumCount_incrAt, Hlen.
      pose proof (binOf_range v).
      destruct (Nat.ltb_spec (Z.to_nat (binOf v)) 256); [|lia].
      cbn [andb]. lia.
Qed.

Lemma histogramOf_for g : histogramFor (histogramOf g) (Z.of_nat (length g)).
Proof.
  destruct (histogram_fold g (repeat 0%Z 256)) as (H1 & H2 & H3).
  - apply repeat_length.
  - apply Forall_forall. intros c Hc. apply repeat_spec in Hc. lia.
  - unfold histogramFor, histogramOf. split; [assumption|]. split; [assumption|].
    rewrite H3. reflexivity.
Qed.

(** The computed variance, as the specification words it, is the one of
    the scan. *)
Lemma computedVariance_scan histogram total t :
  histogramFor histogram total ->
  computedVariance histogram t == scanVariance histogram total t.
Proof.
  intros (_ & _ & Htotal). unfold computedVariance, scanVariance. cbv zeta.
  rewrite Htotal.
  destruct (cumCount histogram (S t) =? 0)%Z eqn:EB.
  - apply Z.eqb_eq in EB. rewrite EB. cbn [orb].
    symmetry. apply classVariance_empty_below.
  - destruct (total - cumCount histogram (S t) =? 0)%Z eqn:EF.
    + apply Z.eqb_eq in EF. rewrite EF. cbn [orb].
      symmetry. apply classVariance_empty_above.
    + cbn [orb]. reflexivity.
Qed.

(** The result of the scan on a histogram of [total] pixels. *)
Lemma otsuScan_result histogram total :
  histogramFor histogram total ->
  exists T, threshold (fst (otsuScan histogram total)) = Z.of_nat T /\
            (T < 256)%nat /\
            (forall t, (t < 256)%nat ->
                       computedVariance histogram t
                       <= computedVariance histogram T) /\
            (forall t, (t < T)%nat ->
                       computedVariance histogram t
                       < computedVariance histogram T) /\
            (forall t, (t < 256)%nat -> properSplit histogram t ->
                       properSplit histogram T).
Proof.
  intros Hhist.
  pose proof (proj1 (proj2 Hhist)) as Hnonneg.
  pose proof (proj2 (proj2 Hhist)) as Htotal.
  destruct (otsuScan_inv _ _ Hhist) as (Hmax & Hall & Hc).
  destruct Hc as [(HT & Hm & Hz)
                 | (T & HT & _ & H256 & Hm & _ & Hlow & Hocc & Habove)].
  - exists 0%nat. split; [assumption|]. split; [lia|]. split; [|split].
    + intros t Ht. rewrite !(computedVariance_scan _ _ _ Hhist).
      rewrite (Hz t Ht), (Hz 0%nat); [apply Qle_refl | lia].
    + intros t Ht. lia.
    + intros t Ht [HB HF]. exfalso. rewrite Htotal in HF.
      pose proof (bcv_pos _ _ Hhist t Ht HB ltac:(lia)) as Hpos.
      rewrite (Hz t Ht) in Hpos. lra.
  - exists T. split; [assumption|]. split; [assumption|]. split; [|split].
    + intros t Ht. rewrite !(computedVariance_scan _ _ _ Hhist).
      rewrite <- Hm. now apply Hall.
    + intros t Ht. rewrite !(computedVariance_scan _ _ _ Hhist).
      now apply Hlow.
    + intros _ _ _. unfold properSplit. rewrite Htotal. split; [|assumption].
      rewrite cumCount_step. pose proof (cumCount_nonneg histogram T Hnonneg).
      lia.
Qed.

Lemma otsuScan_oneSided histogram total :
  histogramFor histogram total -> oneSided histogram total ->
  threshold (fst (otsuScan histogram total)) = 0%Z /\
  (total <> 0%Z ->
   exists b, snd (otsuScan histogram total) = Some b /\
             (0 <= b <= 255)%Z /\ bin histogram b = total).
Proof.
  intros Hhist Hone.
  pose proof (otsuLoop_oneSided _ _ Hhist (weightedSum histogram) 256 0 otsuInit
                eq_refl eq_refl eq_refl eq_refl Hone) as [HT Hb].
  split; [exact HT|].
  intros Hne. unfold otsuScan, candidates.
  destruct (snd (otsuLoop histogram total (weightedSum histogram)
                   (map Z.of_nat (seq 0 256)) otsuInit)) as [b|].
  - destruct Hb as (m & -> & Hm & H0 & H1 & _).
    exists (Z.of_nat m). split; [reflexivity|]. split; [lia|].
    rewrite cumCount_step in H1. lia.
  - contradiction.
Qed.

(** ** C5 *)

(** C5 fails on the code as worded.  On the field [[0; 2; 2; 4]] the
    candidates 0 and 2 have the same between-class variance, 64/3, and no
    candidate has a greater one, so the lowest maximiser is 0; but the
    doubles the scan compares are 21.333333333333332 at 0 and
    21.333333333333336 at 2, and the result is 2. *)
Lemma otsuThreshold_breaks_exact_tie :
  otsuThreshold tiedField = 2%Z /\
  betweenClassVariance (histogramOf tiedField) 0
  == betweenClassVariance (histogramOf tiedField) 2 /\
  (forall t, (t < 256)%nat ->
             betweenClassVariance (histogramOf tiedField) t
             <= betweenClassVariance (histogramOf tiedField) 0) /\
  computedVariance (histogramOf tiedField) 0
  < computedVariance (histogramOf tiedField) 2.
Proof.
  split; [vm_compute; reflexivity|]. split; [vm_compute; reflexivity|].
  split; [|vm_compute; reflexivity].
  assert (H5 : cumCount (histogramOf tiedField) 5 = 4%Z)
    by (vm_compute; reflexivity).
  assert (H256 : cumCount (histogramOf tiedField) 256 = 4%Z)
    by (vm_compute; reflexivity).
  assert (H0 : 0 <= betweenClassVariance (histogramOf tiedField) 0)
    by (vm_compute; congruence).
  intros t Ht. destruct (Nat.lt_ge_cases t 4) as [Hlt | Hge].
  - do 4 (destruct t as [|t]; [vm_compute; congruence|]). lia.
  - destruct (histogramOf_for tiedField) as (_ & Hnn & _).
    pose proof (cumCount_mono _ 5 (S t) Hnn ltac:(lia)) as Hlo.
    pose proof (cumCount_mono _ (S t) 256 Hnn ltac:(lia)) as Hhi.
    rewrite H5 in Hlo. rewrite H256 in Hhi.
    assert (E : cumCount (histogramOf tiedField) (S t) = 4%Z) by lia.
    unfold betweenClassVariance at 1. cbv zeta. rewrite E, H256.
    change (inject_Z (4 - 4)) with 0.
    set (d := _ / _ - _ / _).
    setoid_replace (inject_Z 4 * 0 * (d * d)) with 0 by ring.
    exact H0.
Qed.

(** C5, amended.  [otsuThreshold] returns the candidate of [0 .. 255]
    whose between-class variance, as double arithmetic computes it, is the
    greatest, and the lowest one among equals: no candidate has a greater
    computed variance and every lower candidate has a strictly smaller one;
    it splits the pixels into two non-empty classes whenever some candidate
    does.  When every pixel falls on one side of every candidate, nothing is
    ever committed and the result is the initial 0; on a non-empty field the
    scan is then left through [break], at the bin that holds every pixel. *)
Theorem otsuThreshold_first_maximum grayscale :
  let histogram := histogramOf grayscale in
  let total := Z.of_nat (length grayscale) in
  let T := otsuThreshold grayscale in
  (0 <= T <= 255)%Z /\
  (forall t, (t < 256)%nat ->
             computedVariance histogram t
             <= computedVariance histogram (Z.to_nat T)) /\
  (forall t, (t < Z.to_nat T)%nat ->
             computedVariance histogram t
             < computedVariance histogram (Z.to_nat T)) /\
  (forall t, (t < 256)%nat -> properSplit histogram t ->
             properSplit histogram (Z.to_nat T)) /\
  (oneSided histogram total ->
   T = 0%Z /\
   (grayscale <> [] ->
    exists b, snd (otsuScan histogram total) = Some b /\
              (0 <= b <= 255)%Z /\ bin histogram b = total)).
Proof.
  cbv zeta. unfold otsuThreshold.
  pose proof (histogramOf_for grayscale) as Hhist.
  generalize dependent (histogramOf grayscale). intros histogram Hhist.
  destruct (otsuScan_result _ _ Hhist) as (T & ET & H256 & Hmax & Hlow & Hproper).
  rewrite ET, Nat2Z.id.
  split; [lia|]. split; [assumption|]. split; [assumption|].
  split; [assumption|].
  intros Hone.
  destruct (otsuScan_oneSided _ _ Hhist Hone) as [HT Hb].
  split.
  - rewrite <- ET. exact HT.
  - intros Hne. apply Hb. intros E. apply Hne.
    apply length_zero_iff_nil. lia.
Qed.

Lemma otsuThreshold_first_maximum_witness :
  computedVariance (histogramOf twoSpikes) 10
  <= computedVariance (histogramOf twoSpikes)
       (Z.to_nat (otsuThreshold twoSpikes)).
Proof.
  pose proof (otsuThreshold_first_maximum twoSpikes) as H.
  cbv zeta in H. destruct H as (_ & H & _).
  apply H. lia.
Defined.

(** ** C7 *)

(** C7 fails on the code.  With the clusters {50, 51, 52} and {200, 201}
    the threshold is 52, an occupied bin of the lower cluster, hence not
    strictly above it; with the clusters {0, .., 8} and {12} it is 5, inside
    the lower cluster. *)
Lemma otsuThreshold_not_strictly_between :
  otsuThreshold [50; 51; 52; 200; 201] = 52%Z /\
  bin (histogramOf [50; 51; 52; 200; 201]) 52 = 1%Z /\
  otsuThreshold [0; 1; 2; 3; 4; 5; 6; 7; 8; 12] = 5%Z /\
  bin (histogramOf [0; 1; 2; 3; 4; 5; 6; 7; 8; 12]) 8 = 1%Z.
Proof. repeat split; vm_compute; reflexivity. Qed.

(** C7, amended.  When the field occupies at least two bins, the selected
    threshold is itself an occupied bin, and some occupied bin lies strictly
    above it; so it is never strictly above every occupied bin of a lower
    cluster.  When exactly two bins [a < b] are occupied (two one-bin
    clusters), the threshold is [a]. *)
Theorem otsuThreshold_is_occupied_bin grayscale a b :
  let histogram := histogramOf grayscale in
  let T := otsuThreshold grayscale in
  (a < b)%nat -> (b < 256)%nat ->
  (0 < bin histogram (Z.of_nat a))%Z -> (0 < bin histogram (Z.of_nat b))%Z ->
  (0 < bin histogram T)%Z /\
  (exists b', (T < Z.of_nat b')%Z /\ (b' < 256)%nat /\
              (0 < bin histogram (Z.of_nat b'))%Z) /\
  ((forall t, (t < 256)%nat -> t <> a -> t <> b ->
              bin histogram (Z.of_nat t) = 0%Z) ->
   T = Z.of_nat a).
Proof.
  cbv zeta. unfold otsuThreshold. intros Hab Hb Ha_occ Hb_occ.
  pose proof (histogramOf_for grayscale) as Hhist.
  revert Ha_occ Hb_occ Hhist.
  generalize (Z.of_nat (length grayscale)). generalize (histogramOf grayscale).
  intros histogram total Ha_occ Hb_occ Hhist.
  pose proof (proj1 (proj2 Hhist)) as Hnonneg.
  pose proof (proj2 (proj2 Hhist)) as Htotal.
  destruct (otsuScan_inv _ _ Hhist) as (_ & _ & Hc).
  assert (Hpos : 1 <= scanVariance histogram total a).
  { apply (bcv_pos _ _ Hhist); [lia | |].
    - rewrite cumCount_step. pose proof (cumCount_nonneg histogram a Hnonneg). lia.
    - pose proof (cumCount_mono histogram (S a) b Hnonneg ltac:(lia)).
      pose proof (cumCount_mono histogram (S b) 256 Hnonneg ltac:(lia)).
      rewrite (cumCount_step histogram b) in *. lia. }
  destruct Hc as [(_ & _ & Hz) | (T' & HT & _ & H256 & _ & _ & _ & Hocc & Habove)].
  { exfalso. rewrite (Hz a) in Hpos by lia. lra. }
  rewrite <- Htotal in Habove.
  destruct (cumCount_gap histogram (S T') 256 ltac:(lia) Habove) as (b' & Hb' & Hb'occ).
  rewrite HT. split; [assumption|]. split.
  - exists b'. split; [lia|]. split; [lia | assumption].
  - intros Hothers.
    destruct (Nat.eq_dec T' a) as [-> | HTa]; [reflexivity|].
    exfalso.
    destruct (Nat.eq_dec T' b) as [-> | HTb].
    + rewrite (Hothers b') in Hb'occ; lia.
    + rewrite (Hothers T') in Hocc; lia.
Qed.

Lemma otsuThreshold_is_occupied_bin_witness :
  (0 < bin (histogramOf twoSpikes) (otsuThreshold twoSpikes))%Z.
Proof.
  pose proof (otsuThreshold_is_occupied_bin twoSpikes 50 200) as H.
  cbv zeta in H.
  apply H; [lia | lia | vm_compute; reflexivity | vm_compute; reflexivity].
Defined.

(** * Uniform regions *)

Lemma map_seq_const {A : Type} (f : nat -> A) (v : A) (n : nat) :
  (forall i, (i < n)%nat -> f i = v) -> map f (seq 0 n) = repeat v n.
Proof.
  intros H. apply nth_ext with (d := v) (d' := v).
  - now rewrite length_map, length_seq, repeat_length.
  - intros i Hi. rewrite length_map, length_seq in Hi.
    rewrite nth_map_seq by assumption. rewrite nth_repeat. now apply H.
Qed.

Lemma cropToROI_pixel img b i c :
  (i < Z.to_nat (roi_width b) * Z.to_nat (roi_height b))%nat -> (c < 4)%nat ->
  nth (i * 4 + c) (cropToROI img b) 0%Z
  = channelAt img b (i / Z.to_nat (roi_width b)) (i mod Z.to_nat (roi_width b)) c.
Proof.
  intros Hi Hc.
  set (w := Z.to_nat (roi_width b)) in *.
  set (h := Z.to_nat (roi_height b)) in *.
  assert (Hw : (0 < w)%nat) by nia.
  assert (Hrow : (i / w < h)%nat) by (apply Nat.Div0.div_lt_upper_bound; lia).
  assert (Hcol : (i mod w < w)%nat) by (apply Nat.mod_upper_bound; lia).
  assert (Ei : i = (i / w * w + i mod w)%nat).
  { rewrite (Nat.div_mod_eq i w) at 1. lia. }
  rewrite Ei at 1. unfold channelAt, w. now apply cropToROI_nth.
Qed.






Lemma histogram_bin_untouched g i : forall h0,
  (forall v, In v g -> Z.to_nat (binOf v) <> i) ->
  nth i (fold_left (fun h v => incrAt (Z.to_nat (binOf v)) h) g h0) 0%Z
  = nth i h0 0%Z.
Proof.
  induction g as [|v g IH]; intros h0 H; [reflexivity|].
  cbn [fold_left]. rewrite IH by (intros u Hu; apply H; now right).
  rewrite nth_incrAt.
  destruct (Nat.eqb_spec i (Z.to_nat (binOf v))) as [E | E].
  - exfalso. apply (H v); [now left | now symmetry].
  - cbn [andb]. lia.
Qed.

(** A histogram with one occupied bin is one-sided. *)
Lemma oneSided_single histogram total b0 :
  histogramFor histogram total ->
  (forall i, (i < 256)%nat -> i <> b0 -> bin histogram (Z.of_nat i) = 0%Z) ->
  oneSided histogram total.
Proof.
  intros Hhist Hz t Ht.
  pose proof (proj1 (proj2 Hhist)) as Hnonneg.
  pose proof (proj2 (proj2 Hhist)) as Htotal.
  destruct (Nat.lt_ge_cases t b0) as [Hlt | Hge].
  - left. pose proof (cumCount_nonneg histogram (S t) Hnonneg) as H0.
    destruct (Z.eq_dec (cumCount histogram (S t)) 0) as [E | E]; [assumption|].
    exfalso.
    destruct (cumCount_gap histogram 0 (S t) ltac:(lia)) as (i & Hi & Hb).
    { change (cumCount histogram 0) with 0%Z. lia. }
    rewrite Hz in Hb; lia.
  - right. pose proof (cumCount_mono histogram (S t) 256 Hnonneg ltac:(lia)) as H0.
    destruct (Z.eq_dec (cumCount histogram (S t)) total) as [E | E]; [lia|].
    exfalso.
    destruct (cumCount_gap histogram (S t) 256 ltac:(lia)) as (i & Hi & Hb); [lia|].
    rewrite Hz in Hb; lia.
Qed.

Lemma otsuThreshold_uniform v n : otsuThreshold (repeat v n) = 0%Z.
Proof.
  unfold otsuThreshold.
  apply otsuScan_oneSided; [apply histogramOf_for|].
  apply oneSided_single with (b0 := Z.to_nat (binOf v)); [apply histogramOf_for|].
  intros i Hi Hne. rewrite bin_of_nat. unfold histogramOf.
  rewrite histogram_bin_untouched.
  - apply nth_repeat.
  - intros u Hu. apply repeat_spec in Hu. subst. auto.
Qed.



(** ** The variance of a constant sequence *)

Lemma sum_squares_const c m n : forall a,
  fold_left (fun sum val => sum + (val - m) * (val - m)) (repeat c n) a
  == a + inject_Z (Z.of_nat n) * ((c - m) * (c - m)).
Proof.
  induction n as [|n IH]; intros a.
  - cbn [repeat fold_left]. change (inject_Z (Z.of_nat 0)) with 0. ring.
  - cbn [repeat fold_left]. rewrite IH, Nat2Z.inj_succ.
    unfold Z.succ. rewrite inject_Z_plus. change (inject_Z 1) with 1. ring.
Qed.

Lemma sumOf_const c n : sumOf (repeat c n) == inject_Z (Z.of_nat n) * c.
Proof.
  unfold sumOf.
  assert (H : forall a, fold_left Qplus (repeat c n) a
                        == a + inject_Z (Z.of_nat n) * c).
  { induction n as [|n IH]; intros a.
    - cbn [repeat fold_left]. change (inject_Z (Z.of_nat 0)) with 0. ring.
    - cbn [repeat fold_left]. rewrite IH, Nat2Z.inj_succ.
      unfold Z.succ. rewrite inject_Z_plus. change (inject_Z 1) with 1. ring. }
  rewrite H. ring.
Qed.

Lemma variance_const c n : (0 < n)%nat -> variance (repeat c n) == 0.
Proof.
  intros Hn. unfold variance, meanOf. rewrite repeat_length.
  assert (Hq : ~ inject_Z (Z.of_nat n) == 0).
  { intros E. change 0 with (inject_Z 0) in E.
    rewrite inject_Z_injective in E. lia. }
  rewrite sum_squares_const, sumOf_const.
  field. assumption.
Qed.

Lemma stdDevBelow_const c n eps :
  (0 < n)%nat -> 0 < eps -> stdDevBelow (repeat c n) eps = true.
Proof.
  intros Hn Heps. destruct n as [|n]; [lia|].
  unfold stdDevBelow. cbn [repeat]. change (c :: repeat c n) with (repeat c (S n)).
  apply Qltb_lt. rewrite variance_const by lia.
  apply Qmult_lt_0_compat; assumption.
Qed.




(** ** C6 *)




(** * The post-processor *)

Lemma sumOf_acc l : forall a, fold_left Qplus l a == a + sumOf l.
Proof.
  unfold sumOf. induction l as [|v l IH]; intros a; cbn [fold_left]; [ring|].
  rewrite (IH (a + v)), (IH (0 + v)). ring.
Qed.

Lemma sumOf_cons v l : sumOf (v :: l) == v + sumOf l.
Proof.
  unfold sumOf at 1. cbn [fold_left]. rewrite sumOf_acc. ring.
Qed.

Lemma sumOf_bounds lo hi l :
  Forall (fun v => lo <= v <= hi) l ->
  inject_Z (Z.of_nat (length l)) * lo <= sumOf l
  /\ sumOf l <= inject_Z (Z.of_nat (length l)) * hi.
Proof.
  induction 1 as [|v l [Hv1 Hv2] _ [IH1 IH2]].
  - unfold sumOf. cbn [length fold_left]. change (inject_Z (Z.of_nat 0)) with 0.
    split; lra.
  - rewrite sumOf_cons. cbn [length]. rewrite Nat2Z.inj_succ. unfold Z.succ.
    rewrite inject_Z_plus. change (inject_Z 1) with 1. split; lra.
Qed.

Lemma length_pos_Q {A : Type} (l : list A) :
  l <> [] -> 0 < inject_Z (Z.of_nat (length l)).
Proof.
  intros Hne. change 0 with (inject_Z 0). rewrite <- Zlt_Qlt.
  destruct l; [congruence | simpl; lia].
Qed.

Lemma meanOf_bounds lo hi l :
  l <> [] -> Forall (fun v => lo <= v <= hi) l -> lo <= meanOf l <= hi.
Proof.
  intros Hne Hall. destruct (sumOf_bounds lo hi l Hall) as [H1 H2].
  pose proof (length_pos_Q l Hne) as Hn. unfold meanOf. split.
  - apply Qle_shift_div_l; [assumption | lra].
  - apply Qle_shift_div_r; [assumption | lra].
Qed.

(** The normalised sequence lies in [[-1, 1]]. *)
Lemma normalizeWaveform_range data :
  Forall (fun v => -(1) <= v <= 1) (normalizeWaveform data).
Proof.
  unfold normalizeWaveform.
  destruct data as [|v0 data]; [constructor|].
  destruct (minOf_spec v0 data) as (mn & -> & _ & Hmin).
  destruct (maxOf_spec v0 data) as (mx & -> & _ & Hmax).
  destruct (Qeq_bool (mx - mn) 0) eqn:E.
  - apply Forall_forall. intros x Hx. apply repeat_spec in Hx. subst. split; lra.
  - apply Qeq_bool_false in E.
    apply Forall_forall. intros v Hv. apply in_map_iff in Hv.
    destruct Hv as (u & <- & Hu). rewrite fstore_eq.
    rewrite Forall_forall in Hmin, Hmax.
    pose proof (ratio_unit u mn mx (conj (Hmin u Hu) (Hmax u Hu)) E) as [Ha Hb].
    split; lra.
Qed.

(** After the mean is subtracted the sequence has mean 0. *)
Lemma sumOf_removeDC m l :
  sumOf (map (fun v => fstore (v - m)) l)
  == sumOf l - inject_Z (Z.of_nat (length l)) * m.
Proof.
  induction l as [|v l IH].
  - unfold sumOf. cbn [map length fold_left].
    change (inject_Z (Z.of_nat 0)) with 0. ring.
  - cbn [map length]. rewrite !sumOf_cons, IH, fstore_eq, Nat2Z.inj_succ.
    unfold Z.succ. rewrite inject_Z_plus. change (inject_Z 1) with 1. ring.
Qed.

Lemma meanOf_removeDCOffset data : data <> [] -> meanOf (removeDCOffset data) == 0.
Proof.
  intros Hne. pose proof (length_pos_Q data Hne) as Hn.
  unfold meanOf at 1. rewrite length_removeDCOffset.
  unfold removeDCOffset. rewrite sumOf_removeDC. unfold meanOf.
  field. intros E. rewrite E in Hn. now apply Qlt_irrefl in Hn.
Qed.

Lemma removeDCOffset_range data :
  data <> [] -> Forall (fun v => -(1) <= v <= 1) data ->
  Forall (fun v => -(2) <= v <= 2) (removeDCOffset data).
Proof.
  intros Hne Hall. pose proof (meanOf_bounds _ _ data Hne Hall) as [Hm1 Hm2].
  unfold removeDCOffset. apply Forall_forall. intros v Hv.
  apply in_map_iff in Hv. destruct Hv as (u & <- & Hu). rewrite fstore_eq.
  rewrite Forall_forall in Hall. destruct (Hall u Hu). split; lra.
Qed.

(** ** Smoothing *)

Lemma windowStep_count data acc j : (snd acc <= snd (windowStep data acc j))%Z.
Proof. unfold windowStep. destruct (_ && _); simpl; lia. Qed.

Lemma windowStep_centre data acc i :
  (i < length data)%nat -> (snd acc < snd (windowStep data acc (Z.of_nat i)))%Z.
Proof.
  intros Hi. unfold windowStep.
  replace ((0 <=? Z.of_nat i) && (Z.of_nat i <? Z.of_nat (length data)))%Z
    with true; [simpl; lia|].
  symmetry. apply andb_true_iff. split; [apply Z.leb_le | apply Z.ltb_lt]; lia.
Qed.

Lemma windowStep_inv lo hi data acc j :
  Forall (fun v => lo <= v <= hi) data ->
  avgInv lo hi acc -> avgInv lo hi (windowStep data acc j).
Proof.
  intros Hall Hacc. unfold windowStep.
  destruct (_ && _) eqn:E; [|assumption].
  apply avgInv_add; [assumption|].
  apply andb_true_iff in E. destruct E as [E1 E2].
  apply Z.leb_le in E1. apply Z.ltb_lt in E2.
  rewrite Forall_forall in Hall. apply Hall. apply nth_In. lia.
Qed.

Lemma window_centre i half : In (Z.of_nat i) (window i half).
Proof.
  unfold window. apply in_map_iff. exists half. split; [lia|].
  apply in_seq. lia.
Qed.

(** Every smoothed sample is the average of a non-empty window. *)
Lemma movingAverage_between lo hi data windowSize :
  Forall (fun v => lo <= v <= hi) data ->
  Forall (fun v => lo <= v <= hi) (movingAverage data windowSize).
Proof.
  intros Hall. unfold movingAverage. apply Forall_forall.
  intros v Hv. apply in_map_iff in Hv. destruct Hv as (i & <- & Hi).
  apply in_seq in Hi. rewrite fstore_eq.
  apply avgInv_bounds.
  - apply fold_invariant; [|apply avgInv_init].
    intros a k _. now apply windowStep_inv.
  - change 0%Z with (snd (0, 0%Z)) at 1.
    apply fold_count_strict with (k0 := Z.of_nat i).
    + intros; apply windowStep_count.
    + apply window_centre.
    + intros a. apply windowStep_centre. lia.
Qed.

(** ** The sum of the smoothed sequence *)

Lemma sumOf_app l1 l2 : sumOf (l1 ++ l2) == sumOf l1 + sumOf l2.
Proof.
  unfold sumOf at 1. rewrite fold_left_app, sumOf_acc. reflexivity.
Qed.

Lemma sumOf_map_ext {A} (f g : A -> Q) l :
  (forall i, In i l -> f i == g i) -> sumOf (map f l) == sumOf (map g l).
Proof.
  induction l as [|a l IH]; intros H; [reflexivity|].
  cbn [map]. rewrite !sumOf_cons, IH, (H a).
  - reflexivity.
  - now left.
  - intros i Hi. apply H. now right.
Qed.

Lemma sumOf_map_fstore l : sumOf (map fstore l) == sumOf l.
Proof.
  induction l as [|a l IH]; [reflexivity|].
  cbn [map]. now rewrite !sumOf_cons, IH, fstore_eq.
Qed.

Lemma sumOf_window5 {A} (f0 f1 f2 f3 f4 : A -> Q) l :
  sumOf (map (fun i => (f0 i + f1 i + f2 i + f3 i + f4 i) / 5) l)
  == (sumOf (map f0 l) + sumOf (map f1 l) + sumOf (map f2 l)
      + sumOf (map f3 l) + sumOf (map f4 l)) / 5.
Proof.
  induction l as [|a l IH].
  - unfold sumOf. cbn. field.
  - cbn [map]. rewrite !sumOf_cons, IH. field.
Qed.

Lemma map_seq_shift {A} (f g : nat -> A) m : forall a b,
  (forall k, (k < m)%nat -> f (a + k)%nat = g (b + k)%nat) ->
  map f (seq a m) = map g (seq b m).
Proof.
  induction m as [|m IH]; intros a b H; [reflexivity|].
  cbn [seq map]. f_equal.
  - specialize (H 0%nat ltac:(lia)). now rewrite !Nat.add_0_r in H.
  - apply IH. intros k Hk. specialize (H (S k) ltac:(lia)).
    now rewrite <- !plus_n_Sm in H.
Qed.

Lemma sumRange_all data : sumRange data 0 (length data) == sumOf data.
Proof.
  unfold sumRange. induction data as [|v data IH]; [reflexivity|].
  cbn [length seq map].
  rewrite (map_seq_shift (fun j => nth j (v :: data) 0) (fun j => nth j data 0)
             (length data) 1 0) by (intros k Hk; reflexivity).
  rewrite !sumOf_cons, <- IH. reflexivity.
Qed.

Lemma sumRange_split data a m1 m2 :
  sumRange data a (m1 + m2) == sumRange data a m1 + sumRange data (a + m1) m2.
Proof.
  unfold sumRange. rewrite seq_app, map_app. apply sumOf_app.
Qed.

Lemma sumRange_S data a m :
  sumRange data a (S m) == nth a data 0 + sumRange data (S a) m.
Proof. unfold sumRange. cbn [seq map]. apply sumOf_cons. Qed.

Lemma sumRange_0 data a : sumRange data a 0 == 0.
Proof. reflexivity. Qed.

(** The window loop, one step. *)
Lemma windowStep_in data acc j :
  (0 <= j < Z.of_nat (length data))%Z ->
  windowStep data acc j = (fst acc + nth (Z.to_nat j) data 0, (snd acc + 1)%Z).
Proof.
  intros H. unfold windowStep.
  replace ((0 <=? j) && (j <? Z.of_nat (length data)))%Z with true; [reflexivity|].
  symmetry. apply andb_true_iff. split; [apply Z.leb_le | apply Z.ltb_lt]; lia.
Qed.

Lemma windowStep_out data acc j :
  (j < 0 \/ Z.of_nat (length data) <= j)%Z -> windowStep data acc j = acc.
Proof.
  intros H. unfold windowStep.
  replace ((0 <=? j) && (j <? Z.of_nat (length data)))%Z with false; [reflexivity|].
  symmetry. apply andb_false_iff.
  destruct H; [left; apply Z.leb_gt | right; apply Z.ltb_ge]; lia.
Qed.

Lemma movingAverage_nth data i :
  (i < length data)%nat ->
  nth i (movingAverage data 5) 0
  == fst (fold_left (windowStep data) (window i 2) (0, 0%Z))
     / inject_Z (snd (fold_left (windowStep data) (window i 2) (0, 0%Z))).
Proof.
  intros Hi. unfold movingAverage.
  change (5 / 2)%nat with 2%nat.
  rewrite nth_map_seq by assumption. apply fstore_eq.
Qed.

Lemma window_5 i :
  window i 2 = [(Z.of_nat i - 2)%Z; (Z.of_nat i - 1)%Z; Z.of_nat i;
                (Z.of_nat i + 1)%Z; (Z.of_nat i + 2)%Z].
Proof.
  unfold window. cbn [Nat.mul Nat.add seq map].
  repeat (f_equal; try lia).
Qed.

Lemma movingAverage_interior data i :
  (2 <= i)%nat -> (i + 2 < length data)%nat ->
  nth i (movingAverage data 5) 0
  == (nth (i - 2) data 0 + nth (i - 1) data 0 + nth i data 0
      + nth (i + 1) data 0 + nth (i + 2) data 0) / 5.
Proof.
  intros H2 Hn. rewrite movingAverage_nth by lia. rewrite window_5.
  cbn [fold_left]. rewrite !windowStep_in by (cbn [fst snd]; lia).
  cbn [fst snd].
  replace (Z.to_nat (Z.of_nat i - 2)) with (i - 2)%nat by lia.
  replace (Z.to_nat (Z.of_nat i - 1)) with (i - 1)%nat by lia.
  replace (Z.to_nat (Z.of_nat i + 1)) with (i + 1)%nat by lia.
  replace (Z.to_nat (Z.of_nat i + 2)) with (i + 2)%nat by lia.
  rewrite Nat2Z.id.
  change (inject_Z (0 + 1 + 1 + 1 + 1 + 1)) with 5. field.
Qed.

Lemma movingAverage_first data :
  (3 <= length data)%nat ->
  nth 0 (movingAverage data 5) 0
  == (nth 0 data 0 + nth 1 data 0 + nth 2 data 0) / 3.
Proof.
  intros Hn. rewrite movingAverage_nth by lia. rewrite window_5.
  cbn [fold_left].
  rewrite (windowStep_out data _ (Z.of_nat 0 - 2)) by lia.
  rewrite (windowStep_out data _ (Z.of_nat 0 - 1)) by lia.
  rewrite !windowStep_in by (cbn [fst snd]; lia).
  cbn [fst snd].
  change (Z.to_nat (Z.of_nat 0)) with 0%nat.
  change (Z.to_nat (Z.of_nat 0 + 1)) with 1%nat.
  change (Z.to_nat (Z.of_nat 0 + 2)) with 2%nat.
  change (inject_Z (0 + 1 + 1 + 1)) with 3. field.
Qed.

Lemma movingAverage_second data :
  (4 <= length data)%nat ->
  nth 1 (movingAverage data 5) 0
  == (nth 0 data 0 + nth 1 data 0 + nth 2 data 0 + nth 3 data 0) / 4.
Proof.
  intros Hn. rewrite movingAverage_nth by lia. rewrite window_5.
  cbn [fold_left].
  rewrite (windowStep_out data _ (Z.of_nat 1 - 2)) by lia.
  rewrite !windowStep_in by (cbn [fst snd]; lia).
  cbn [fst snd].
  change (Z.to_nat (Z.of_nat 1 - 1)) with 0%nat.
  change (Z.to_nat (Z.of_nat 1)) with 1%nat.
  change (Z.to_nat (Z.of_nat 1 + 1)) with 2%nat.
  change (Z.to_nat (Z.of_nat 1 + 2)) with 3%nat.
  change (inject_Z (0 + 1 + 1 + 1 + 1)) with 4. field.
Qed.

Lemma movingAverage_last_but_one data m :
  length data = (m + 4)%nat ->
  nth (m + 2) (movingAverage data 5) 0
  == (nth m data 0 + nth (m + 1) data 0 + nth (m + 2) data 0
      + nth (m + 3) data 0) / 4.
Proof.
  intros Hn. rewrite movingAverage_nth by lia. rewrite window_5.
  cbn [fold_left].
  rewrite (windowStep_out data _ (Z.of_nat (m + 2) + 2)) by lia.
  rewrite !windowStep_in by (cbn [fst snd]; lia).
  cbn [fst snd].
  replace (Z.to_nat (Z.of_nat (m + 2) - 2)) with m by lia.
  replace (Z.to_nat (Z.of_nat (m + 2) - 1)) with (m + 1)%nat by lia.
  replace (Z.to_nat (Z.of_nat (m + 2) + 1)) with (m + 3)%nat by lia.
  rewrite Nat2Z.id.
  change (inject_Z (0 + 1 + 1 + 1 + 1)) with 4. field.
Qed.

Lemma movingAverage_last data m :
  length data = (m + 4)%nat ->
  nth (m + 3) (movingAverage data 5) 0
  == (nth (m + 1) data 0 + nth (m + 2) data 0 + nth (m + 3) data 0) / 3.
Proof.
  intros Hn. rewrite movingAverage_nth by lia. rewrite window_5.
  cbn [fold_left].
  rewrite (windowStep_out data _ (Z.of_nat (m + 3) + 2)) by lia.
  rewrite (windowStep_out data _ (Z.of_nat (m + 3) + 1)) by lia.
  rewrite !windowStep_in by (cbn [fst snd]; lia).
  cbn [fst snd].
  replace (Z.to_nat (Z.of_nat (m + 3) - 2)) with (m + 1)%nat by lia.
  replace (Z.to_nat (Z.of_nat (m + 3) - 1)) with (m + 2)%nat by lia.
  rewrite Nat2Z.id.
  change (inject_Z (0 + 1 + 1 + 1)) with 3. field.
Qed.

(** Smoothing changes the sum of a sequence only through its first four and
    last four samples. *)
Lemma sumOf_movingAverage data m :
  length data = (m + 4)%nat ->
  sumOf (movingAverage data 5)
  == sumOf data
     + (- (13 # 60)) * nth 0 data 0 + (- (1 # 60)) * nth 1 data 0
     + (11 # 60) * nth 2 data 0 + (3 # 60) * nth 3 data 0
     + (3 # 60) * nth m data 0 + (11 # 60) * nth (m + 1) data 0
     + (- (1 # 60)) * nth (m + 2) data 0 + (- (13 # 60)) * nth (m + 3) data 0.
Proof.
  intros Hn.
  assert (Hlen : length (movingAverage data 5) = (2 + (m + 2))%nat)
    by (rewrite length_movingAverage; lia).
  rewrite <- (sumRange_all (movingAverage data 5)), Hlen.
  rewrite sumRange_split, (sumRange_split _ (0 + 2) m 2).
  rewrite !sumRange_S, !sumRange_0.
  change (0 + 2)%nat with 2%nat.
  replace (2 + m)%nat with (m + 2)%nat by lia.
  replace (S (m + 2)) with (m + 3)%nat by lia.
  rewrite movingAverage_first, movingAverage_second by lia.
  rewrite (movingAverage_last_but_one data m Hn), (movingAverage_last data m Hn).
  assert (Hmid : sumRange (movingAverage data 5) 2 m
                 == (sumRange data 0 m + sumRange data 1 m + sumRange data 2 m
                     + sumRange data 3 m + sumRange data 4 m) / 5).
  { unfold sumRange at 1.
    rewrite (sumOf_map_ext _
               (fun i => (nth (i - 2) data 0 + nth (i - 1) data 0 + nth i data 0
                          + nth (i + 1) data 0 + nth (i + 2) data 0) / 5)).
    - rewrite (sumOf_window5 (fun i => nth (i - 2) data 0)
                 (fun i => nth (i - 1) data 0) (fun i => nth i data 0)
                 (fun i => nth (i + 1) data 0) (fun i => nth (i + 2) data 0)).
      unfold sumRange.
      rewrite (map_seq_shift (fun i => nth (i - 2) data 0)
                 (fun j => nth j data 0) m 2 0)
        by (intros k Hk; f_equal; lia).
      rewrite (map_seq_shift (fun i => nth (i - 1) data 0)
                 (fun j => nth j data 0) m 2 1)
        by (intros k Hk; f_equal; lia).
      rewrite (map_seq_shift (fun i => nth (i + 1) data 0)
                 (fun j => nth j data 0) m 2 3)
        by (intros k Hk; f_equal; lia).
      rewrite (map_seq_shift (fun i => nth (i + 2) data 0)
                 (fun j => nth j data 0) m 2 4)
        by (intros k Hk; f_equal; lia).
      reflexivity.
    - intros i Hi. apply in_seq in Hi.
      apply movingAverage_interior; lia. }
  rewrite Hmid.
  pose proof (sumRange_all data) as HS. rewrite Hn in HS.
  assert (H0 : sumRange data 0 (m + 4)
               == sumRange data 0 m + nth m data 0 + nth (m + 1) data 0
                  + nth (m + 2) data 0 + nth (m + 3) data 0).
  { rewrite sumRange_split, !sumRange_S, sumRange_0.
    change (0 + m)%nat with m.
    replace (S m) with (m + 1)%nat by lia.
    replace (S (m + 1)) with (m + 2)%nat by lia.
    replace (S (m + 2)) with (m + 3)%nat by lia. ring. }
  assert (H1 : sumRange data 0 (m + 4)
               == nth 0 data 0 + sumRange data 1 m + nth (m + 1) data 0
                  + nth (m + 2) data 0 + nth (m + 3) data 0).
  { replace (m + 4)%nat with (S (m + 3)) by lia.
    rewrite sumRange_S, sumRange_split, !sumRange_S, sumRange_0.
    replace (1 + m)%nat with (m + 1)%nat by lia.
    replace (S (m + 1)) with (m + 2)%nat by lia.
    replace (S (m + 2)) with (m + 3)%nat by lia. ring. }
  assert (H2 : sumRange data 0 (m + 4)
               == nth 0 data 0 + nth 1 data 0 + sumRange data 2 m
                  + nth (m + 2) data 0 + nth (m + 3) data 0).
  { replace (m + 4)%nat with (S (S (m + 2))) by lia.
    rewrite !sumRange_S, sumRange_split, !sumRange_S, sumRange_0.
    replace (2 + m)%nat with (m + 2)%nat by lia.
    replace (S (m + 2)) with (m + 3)%nat by lia. ring. }
  assert (H3 : sumRange data 0 (m + 4)
               == nth 0 data 0 + nth 1 data 0 + nth 2 data 0 + sumRange data 3 m
                  + nth (m + 3) data 0).
  { replace (m + 4)%nat with (S (S (S (m + 1)))) by lia.
    rewrite !sumRange_S, sumRange_split, !sumRange_S, sumRange_0.
    replace (3 + m)%nat with (m + 3)%nat by lia. ring. }
  assert (H4 : sumRange data 0 (m + 4)
               == nth 0 data 0 + nth 1 data 0 + nth 2 data 0 + nth 3 data 0
                  + sumRange data 4 m).
  { replace (m + 4)%nat with (S (S (S (S m)))) by lia.
    rewrite !sumRange_S. ring. }
  rewrite HS in H0, H1, H2, H3, H4.
  set (Sd := sumOf data) in *.
  set (A0 := sumRange data 0 m) in *. set (A1 := sumRange data 1 m) in *.
  set (A2 := sumRange data 2 m) in *. set (A3 := sumRange data 3 m) in *.
  set (A4 := sumRange data 4 m) in *.
  set (a0 := nth 0 data 0) in *. set (a1 := nth 1 data 0) in *.
  set (a2 := nth 2 data 0) in *. set (a3 := nth 3 data 0) in *.
  set (b3 := nth m data 0) in *. set (b2 := nth (m + 1) data 0) in *.
  set (b1 := nth (m + 2) data 0) in *. set (b0 := nth (m + 3) data 0) in *.
  clearbody Sd A0 A1 A2 A3 A4 a0 a1 a2 a3 b0 b1 b2 b3.
  unfold Qdiv. change (/ 3) with (1 # 3). change (/ 4) with (1 # 4).
  change (/ 5) with (1 # 5). lra.
Qed.

Lemma sumOf_removeDCOffset data : data <> [] -> sumOf (removeDCOffset data) == 0.
Proof.
  intros Hne. pose proof (length_pos_Q data Hne) as Hn.
  unfold removeDCOffset. rewrite sumOf_removeDC. unfold meanOf.
  field. intros E. rewrite E in Hn. now apply Qlt_irrefl in Hn.
Qed.

Lemma removeDCOffset_centred data :
  data <> [] -> Forall (fun v => -(1) <= v <= 1) data ->
  Forall (fun v => - meanOf data - 1 <= v <= - meanOf data + 1)
         (removeDCOffset data).
Proof.
  intros Hne Hall. unfold removeDCOffset. apply Forall_forall. intros v Hv.
  apply in_map_iff in Hv. destruct Hv as (u & <- & Hu). rewrite fstore_eq.
  rewrite Forall_forall in Hall. destruct (Hall u Hu). split; lra.
Qed.

(** A sequence of sum 0 whose samples lie within 1 of some centre: smoothing
    moves the sum by at most 14/15. *)
Lemma smoothed_sum_bound data c m :
  length data = (m + 4)%nat -> sumOf data == 0 ->
  Forall (fun v => c - 1 <= v <= c + 1) data ->
  -(14 # 15) <= sumOf (movingAverage data 5) <= 14 # 15.
Proof.
  intros Hn Hsum Hall. rewrite (sumOf_movingAverage data m Hn), Hsum.
  assert (Hnth : forall j, (j < m + 4)%nat -> c - 1 <= nth j data 0 <= c + 1).
  { intros j Hj. rewrite Forall_forall in Hall. apply Hall, nth_In. lia. }
  pose proof (Hnth 0%nat ltac:(lia)). pose proof (Hnth 1%nat ltac:(lia)).
  pose proof (Hnth 2%nat ltac:(lia)). pose proof (Hnth 3%nat ltac:(lia)).
  pose proof (Hnth m ltac:(lia)). pose proof (Hnth (m + 1)%nat ltac:(lia)).
  pose proof (Hnth (m + 2)%nat ltac:(lia)). pose proof (Hnth (m + 3)%nat ltac:(lia)).
  split; lra.
Qed.

(** ** C3 *)

(** C3 fails on the code.  The mean is subtracted after the normalisation
    to [[-1, 1]], which moves the samples out of that interval: on the
    two-level image the first sample is -103/100, and on the skewed image
    the last sample is 793/540. *)
Lemma samples_leave_unit_interval :
  (exists wf, extractWaveform twoLevelImage (fullRegion 20 20) = Return wf /\
              nth 0 wf 0 == -(103 # 100) /\ nth 0 wf 0 < -(1)) /\
  (exists wf, extractWaveform skewedImage (fullRegion 20 20) = Return wf /\
              nth 19 wf 0 == 793 # 540 /\ 1 < nth 19 wf 0).
Proof.
  split.
  - eexists. split; [apply twoLevel_extract|]. split; vm_compute; reflexivity.
  - eexists. split; [apply skewed_extract|]. split; vm_compute; reflexivity.
Qed.

(** C3, amended.  On every successful extraction the returned waveform is
    the 5-sample moving average of the DC-removed sequence; that sequence
    has mean exactly 0 and every returned sample lies in [[-2, 2]].  The
    mean of the returned samples is close to 0: smoothing changes the sum
    only at the two ends, so the samples sum to at most 14/15 in absolute
    value and their mean is within 1/20 of 0. *)
Theorem extractWaveform_sample_range img b wf :
  extractWaveform img b = Return wf ->
  let dcRemoved := removeDCOffset (normalizeWaveform (rawWaveform img b)) in
  wf = map fstore (movingAverage dcRemoved 5) /\
  meanOf dcRemoved == 0 /\
  Forall (fun s => -(2) <= s <= 2) wf /\
  -(14 # 15) <= sumOf wf <= 14 # 15 /\
  -(1 # 20) <= meanOf wf <= 1 # 20.
Proof.
  unfold extractWaveform.
  destruct ((roi_width b <? 20) || (roi_height b <? 20))%Z eqn:Esize;
    [discriminate|].
  destruct (stdDevBelow (rawWaveform img b) (1 # 100)); [discriminate|].
  intros H. injection H as <-. cbv zeta.
  apply orb_false_iff in Esize. destruct Esize as [_ Eh].
  apply Z.ltb_ge in Eh.
  set (normalized := normalizeWaveform (rawWaveform img b)).
  assert (Hlen : length normalized = Z.to_nat (roi_height b)).
  { unfold normalized. now rewrite length_normalizeWaveform, length_rawWaveform. }
  assert (Hne : normalized <> []).
  { intros E. rewrite E in Hlen. simpl in Hlen. lia. }
  assert (Hsum : -(14 # 15)
                 <= sumOf (map fstore (movingAverage (removeDCOffset normalized) 5))
                 <= 14 # 15).
  { rewrite sumOf_map_fstore.
    apply (smoothed_sum_bound _ (- meanOf normalized)
             (Z.to_nat (roi_height b) - 4)).
    - rewrite length_removeDCOffset, Hlen. lia.
    - now apply sumOf_removeDCOffset.
    - apply removeDCOffset_centred; [assumption|].
      apply normalizeWaveform_range. }
  split; [reflexivity|]. split; [now apply meanOf_removeDCOffset|].
  split; [|split; [exact Hsum|]].
  - apply Forall_forall. intros s Hs. apply in_map_iff in Hs.
    destruct Hs as (u & <- & Hu). rewrite fstore_eq.
    revert u Hu. apply Forall_forall. apply movingAverage_between.
    apply removeDCOffset_range; [assumption | apply normalizeWaveform_range].
  - unfold meanOf.
    rewrite length_map, length_movingAverage, length_removeDCOffset, Hlen.
    assert (Hn : 20 <= inject_Z (Z.of_nat (Z.to_nat (roi_height b)))).
    { change 20 with (inject_Z 20). rewrite <- Zle_Qle. lia. }
    destruct Hsum as [Hlo Hhi]. split.
    + apply Qle_shift_div_l; lra.
    + apply Qle_shift_div_r; lra.
Qed.

Lemma extractWaveform_sample_range_witness :
  Forall (fun s => -(2) <= s <= 2)
         [-103 # 100; -103 # 100; -103 # 100; -103 # 100; -103 # 100;
          -99 # 100; -91 # 100; -79 # 100; -47 # 100; -11 # 100; 1 # 4;
          57 # 100; 17 # 20; 93 # 100; 97 # 100; 97 # 100; 97 # 100;
          97 # 100; 97 # 100; 97 # 100].
Proof.
  pose proof (extractWaveform_sample_range twoLevelImage (fullRegion 20 20)) as H.
  cbv zeta in H. eapply H. apply twoLevel_extract.
Defined.

(** * The signal validator *)

Lemma sum_squares_nonneg m l : forall a,
  0 <= a -> 0 <= fold_left (fun sum val => sum + (val - m) * (val - m)) l a.
Proof.
  induction l as [|v l IH]; intros a Ha; cbn [fold_left]; [assumption|].
  apply IH.
  assert (H : 0 <= (v - m) * (v - m)).
  { destruct (Qlt_le_dec (v - m) 0) as [Hd | Hd].
    - setoid_replace ((v - m) * (v - m)) with ((- (v - m)) * (- (v - m))) by ring.
      apply Qmult_le_0_compat; lra.
    - now apply Qmult_le_0_compat. }
  lra.
Qed.

Lemma variance_nonneg data : data <> [] -> 0 <= variance data.
Proof.
  intros Hne. unfold variance.
  apply Qle_shift_div_l; [now apply length_pos_Q|].
  rewrite Qmult_0_l. apply sum_squares_nonneg. apply Qle_refl.
Qed.

Lemma sqrt_below (v e : R) :
  (0 <= v)%R -> (0 < e)%R -> (sqrt v < e)%R <-> (v < e * e)%R.
Proof.
  intros Hv He. split; intros H.
  - rewrite <- (sqrt_sqrt v Hv).
    apply Rmult_le_0_lt_compat; try assumption; apply sqrt_pos.
  - rewrite <- (sqrt_square e) by now apply Rlt_le.
    apply sqrt_lt_1; [assumption | | assumption].
    apply Rmult_le_pos; now apply Rlt_le.
Qed.

(** The test on the variance decides the comparison of the standard
    deviation with [eps]. *)
Lemma stdDevBelow_spec data eps :
  0 < eps ->
  stdDevBelow data eps = true <-> (standardDeviation data < Q2R eps)%R.
Proof.
  intros Heps.
  assert (HepsR : (0 < Q2R eps)%R).
  { replace 0%R with (Q2R 0) by (unfold Q2R; simpl; field). now apply Qlt_Rlt. }
  destruct data as [|v data].
  - cbn [stdDevBelow standardDeviation]. rewrite Qltb_lt. tauto.
  - unfold stdDevBelow, standardDeviation. rewrite Qltb_lt.
    assert (Hv : (0 <= Q2R (variance (v :: data)))%R).
    { replace 0%R with (Q2R 0) by (unfold Q2R; simpl; field).
      apply Qle_Rle. apply variance_nonneg. discriminate. }
    rewrite (sqrt_below _ _ Hv HepsR), <- Q2R_mult.
    split; [apply Qlt_Rlt | apply Rlt_Qlt].
Qed.

(** * Further properties of the stages *)

(** ** cropToROI *)

(** A byte of a clamped array, read inside it, is the byte itself. *)
Lemma readByte_inside data i :
  Forall (fun v => (0 <= v <= 255)%Z) data ->
  (0 <= i < Z.of_nat (length data))%Z ->
  readByte data i = nth (Z.to_nat i) data 0%Z.
Proof.
  intros Hall [H0 H1]. unfold readByte.
  destruct (Z.ltb_spec i 0); [lia|].
  rewrite (nth_error_nth' data 0%Z) by lia.
  unfold clamp8. rewrite Forall_forall in Hall.
  assert (0 <= nth (Z.to_nat i) data 0 <= 255)%Z by (apply Hall, nth_In; lia).
  lia.
Qed.

(** Inside the buffer, [cropToROI] copies: the channel [c] of the pixel
    [(row, col)] of the result is the channel [c] of the source pixel
    [(y + row, x + col)]. *)
Theorem cropToROI_copies_region img b row col c :
  wellFormed img -> Forall (fun v => (0 <= v <= 255)%Z) (img_data img) ->
  insideBuffer img b ->
  (row < Z.to_nat (roi_height b))%nat -> (col < Z.to_nat (roi_width b))%nat ->
  (c < 4)%nat ->
  nth ((row * Z.to_nat (roi_width b) + col) * 4 + c) (cropToROI img b) 0%Z
  = nth (((Z.to_nat (roi_y b) + row) * Z.to_nat (img_width img)
          + (Z.to_nat (roi_x b) + col)) * 4 + c)
        (img_data img) 0%Z.
Proof.
  intros (HW & HH & Hlen) Hbytes (Hx & Hy & Hxw & Hyh) Hrow Hcol Hc.
  rewrite cropToROI_nth by assumption.
  rewrite readByte_inside; [| assumption |].
  - f_equal. unfold srcIndex. lia.
  - unfold srcIndex. rewrite Hlen. split; [nia|].
    assert (H1 : (roi_y b + Z.of_nat row <= img_height img - 1)%Z) by lia.
    assert (H2 : (roi_x b + Z.of_nat col <= img_width img - 1)%Z) by lia.
    nia.
Qed.

Lemma cropToROI_copies_region_witness :
  nth ((3 * Z.to_nat (roi_width (mkBounds 2 1 20 20)) + 4) * 4 + 0)
      (cropToROI (bandImage 30 30 (fun _ => 10%nat)) (mkBounds 2 1 20 20)) 0%Z
  = nth (((Z.to_nat (roi_y (mkBounds 2 1 20 20)) + 3)
          * Z.to_nat (img_width (bandImage 30 30 (fun _ => 10%nat)))
          + (Z.to_nat (roi_x (mkBounds 2 1 20 20)) + 4)) * 4 + 0)
        (img_data (bandImage 30 30 (fun _ => 10%nat))) 0%Z.
Proof.
  apply (cropToROI_copies_region (bandImage 30 30 (fun _ => 10%nat))
           (mkBounds 2 1 20 20) 3 4 0).
  - unfold wellFormed. repeat split; vm_compute; congruence.
  - apply Forall_forall. intros v Hv. unfold bandImage in Hv. cbn [img_data] in Hv.
    apply in_flat_map in Hv. destruct Hv as (r & _ & Hv).
    apply in_flat_map in Hv. destruct Hv as (k & _ & Hv).
    destruct (k <? 10)%nat; cbn in Hv; intuition lia.
  - unfold insideBuffer. repeat split; vm_compute; congruence.
  - vm_compute. lia.
  - vm_compute. lia.
  - lia.
Defined.

(** ** toGrayscale *)

(** The opacity channel is ignored: two pixel arrays that agree on their
    colour channels have the same luminance field; and a gray pixel
    [(v, v, v)] has luminance [v]. *)
Theorem toGrayscale_ignores_alpha rgba rgba' :
  length rgba = length rgba' ->
  (forall i, (i mod 4 <> 3)%nat -> nth i rgba 0%Z = nth i rgba' 0%Z) ->
  toGrayscale rgba = toGrayscale rgba' /\
  forall i v, (i < length rgba / 4)%nat ->
    nth (i * 4) rgba 0%Z = v -> nth (i * 4 + 1) rgba 0%Z = v ->
    nth (i * 4 + 2) rgba 0%Z = v ->
    nth i (toGrayscale rgba) 0 == inject_Z v.
Proof.
  intros Hlen Hsame. split.
  - unfold toGrayscale. rewrite <- Hlen. apply map_ext. intros i.
    unfold chan.
    rewrite (Hsame (i * 4)%nat), (Hsame (i * 4 + 1)%nat), (Hsame (i * 4 + 2)%nat);
      [reflexivity | | |].
    + rewrite Nat.add_comm, Nat.Div0.mod_add. cbn. lia.
    + rewrite Nat.add_comm, Nat.Div0.mod_add. cbn. lia.
    + rewrite Nat.Div0.mod_mul. lia.
  - intros i v Hi Hr Hg Hb. unfold toGrayscale.
    rewrite nth_map_seq by assumption. rewrite fstore_eq.
    unfold chan. rewrite Hr, Hg, Hb. ring.
Qed.

Lemma toGrayscale_ignores_alpha_witness :
  toGrayscale [10; 20; 30; 255; 7; 7; 7; 0]%Z
  = toGrayscale [10; 20; 30; 0; 7; 7; 7; 128]%Z.
Proof.
  apply (toGrayscale_ignores_alpha [10; 20; 30; 255; 7; 7; 7; 0]%Z
           [10; 20; 30; 0; 7; 7; 7; 128]%Z).
  - reflexivity.
  - intros i Hi.
    do 8 (destruct i as [|i]; [try reflexivity; cbn in Hi; lia|]).
    destruct i; reflexivity.
Defined.

(** ** stretchContrast *)

Lemma fstore_of_zero q : q == 0 -> fstore q = 0.
Proof. intros H. now rewrite (fstore_complete q 0 H). Qed.

(** On a field that is not uniform the stretched values fill [[0, 255]]:
    they all lie in it, the minimum goes to 0 and the maximum to 255; and the
    order of any two values is kept. *)
Theorem stretchContrast_fills_range grayscale mn mx :
  minOf grayscale = Some mn -> maxOf grayscale = Some mx -> mn < mx ->
  let stretched := stretchContrast grayscale in
  Forall (fun v => 0 <= v <= 255) stretched /\
  In 0 stretched /\ In 255 stretched /\
  forall i j, (i < length grayscale)%nat -> (j < length grayscale)%nat ->
    nth i grayscale 0 <= nth j grayscale 0 ->
    nth i stretched 0 <= nth j stretched 0.
Proof.
  intros Hmn Hmx Hlt stretched.
  destruct grayscale as [|v0 g]; [discriminate|].
  destruct (minOf_spec v0 g) as (mn' & Emn & Hinmn & Hmin).
  destruct (maxOf_spec v0 g) as (mx' & Emx & Hinmx & Hmax).
  rewrite Emn in Hmn. rewrite Emx in Hmx.
  injection Hmn as ->. injection Hmx as ->.
  assert (Hne : ~ mx - mn == 0) by (intros E; lra).
  assert (Es : stretched
               = map (fun v => fstore (((v - mn) / (mx - mn)) * 255)) (v0 :: g)).
  { unfold stretched, stretchContrast. rewrite Emn, Emx.
    destruct (Qeq_bool (mx - mn) 0) eqn:E; [|reflexivity].
    apply Qeq_bool_iff in E. contradiction. }
  rewrite Forall_forall in Hmin, Hmax.
  split; [|split; [|split]].
  - rewrite Es. apply Forall_forall. intros v Hv. apply in_map_iff in Hv.
    destruct Hv as (u & <- & Hu). rewrite fstore_eq.
    pose proof (ratio_unit u mn mx (conj (Hmin u Hu) (Hmax u Hu)) Hne) as [Ha Hb].
    split; lra.
  - rewrite Es. apply in_map_iff. exists mn. split; [|assumption].
    apply fstore_of_zero. field. assumption.
  - rewrite Es. apply in_map_iff. exists mx. split; [|assumption].
    rewrite (fstore_complete _ 255); [reflexivity|]. field. assumption.
  - intros i j Hi Hj Hle. rewrite Es.
    rewrite (nth_indep _ 0 (fstore (((0 - mn) / (mx - mn)) * 255)))
      by now rewrite length_map.
    rewrite (nth_indep (map _ _) 0 (fstore (((0 - mn) / (mx - mn)) * 255)))
      by now rewrite length_map.
    rewrite !(map_nth (fun v => fstore (((v - mn) / (mx - mn)) * 255))).
    rewrite !fstore_eq.
    assert (Hpos : 0 < mx - mn) by lra.
    apply Qmult_le_compat_r; [|lra].
    apply Qle_shift_div_l; [assumption|].
    setoid_replace ((nth i (v0 :: g) 0 - mn) / (mx - mn) * (mx - mn))
      with (nth i (v0 :: g) 0 - mn) by (field; assumption).
    lra.
Qed.

Lemma stretchContrast_fills_range_witness :
  In 255 (stretchContrast [10; 30; 20]).
Proof.
  pose proof (stretchContrast_fills_range [10; 30; 20] 10 30) as H.
  cbv zeta in H. apply H; reflexivity.
Defined.

(** ** The histogram of otsuThreshold *)

Lemma histogram_fold_count g t : forall h0,
  length h0 = 256%nat -> (t < 256)%nat ->
  nth t (fold_left (fun h v => incrAt (Z.to_nat (binOf v)) h) g h0) 0%Z
  = (nth t h0 0 + Z.of_nat (length (filter (inBin t) g)))%Z.
Proof.
  induction g as [|v g IH]; intros h0 Hlen Ht.
  - cbn [fold_left filter length]. lia.
  - cbn [fold_left filter].
    rewrite IH by (rewrite ?length_incrAt; assumption).
    rewrite nth_incrAt, Hlen. unfold inBin at 2.
    pose proof (binOf_range v).
    destruct (Nat.ltb_spec (Z.to_nat (binOf v)) 256); [|lia].
    rewrite andb_true_r, Nat.eqb_sym.
    destruct (Z.to_nat (binOf v) =? t)%nat; cbn [length]; lia.
Qed.

(** The histogram counts every pixel once: bin [t] holds the number of
    pixels whose floored, clamped brightness is [t], there are 256 bins and
    they add up to the number of pixels. *)
Theorem histogramOf_counts_pixels grayscale :
  length (histogramOf grayscale) = 256%nat /\
  (forall t, (t < 256)%nat ->
     bin (histogramOf grayscale) (Z.of_nat t)
     = Z.of_nat (length (filter (inBin t) grayscale))) /\
  cumCount (histogramOf grayscale) 256 = Z.of_nat (length grayscale).
Proof.
  destruct (histogramOf_for grayscale) as (Hlen & _ & Htot).
  split; [assumption|]. split; [|assumption].
  intros t Ht. rewrite bin_of_nat. unfold histogramOf.
  rewrite histogram_fold_count; [|apply repeat_length | assumption].
  rewrite nth_repeat. lia.
Qed.

Lemma histogramOf_counts_pixels_witness :
  bin (histogramOf [3; 7 # 2; 300; -(5)]) (Z.of_nat 3)
  = Z.of_nat (length (filter (inBin 3) [3; 7 # 2; 300; -(5)])).
Proof.
  apply (histogramOf_counts_pixels [3; 7 # 2; 300; -(5)]). lia.
Defined.

(** ** findBoundaries: what a row measures *)

Lemma firstIndex_skip p pre l :
  Forall (fun v => p v = false) pre ->
  firstIndex p (pre ++ l) = option_map (Nat.add (length pre)) (firstIndex p l).
Proof.
  induction 1 as [|v pre Hv _ IH]; cbn [app firstIndex length].
  - destruct (firstIndex p l); reflexivity.
  - rewrite Hv, IH. destruct (firstIndex p l); reflexivity.
Qed.

Lemma firstIndex_all_false p l :
  Forall (fun v => p v = false) l -> firstIndex p l = None.
Proof.
  induction 1 as [|v l Hv _ IH]; cbn [firstIndex]; [reflexivity|].
  now rewrite Hv, IH.
Qed.

Lemma skipn_app_length {A : Type} (pre l : list A) :
  skipn (length pre) (pre ++ l) = l.
Proof. induction pre; simpl; auto. Qed.

(** The edges of a run of samples satisfying [p], after samples that do
    not and before one that does not (or the end of the row). *)
Lemma edgesSpec_run p pre run rest :
  Forall (fun v => p v = false) pre ->
  Forall (fun v => p v = true) run -> run <> [] ->
  (rest = [] \/ exists v rest', rest = v :: rest' /\ p v = false) ->
  edgesSpec p (pre ++ run ++ rest)
  = Some (length pre, (length pre + length run)%nat).
Proof.
  intros Hpre Hrun Hne Hrest. unfold edgesSpec.
  rewrite firstIndex_skip by assumption.
  destruct run as [|v run]; [congruence|].
  inversion Hrun as [|? ? Hv Hrun']; subst.
  change ((v :: run) ++ rest) with (v :: (run ++ rest)).
  cbn [firstIndex]. rewrite Hv. cbn [option_map].
  rewrite Nat.add_0_r, skipn_app_length.
  assert (Hnot : Forall (fun u => negb (p u) = false) (v :: run)).
  { apply Forall_forall. intros u Hu. rewrite Forall_forall in Hrun.
    now rewrite (Hrun u Hu). }
  change (v :: run ++ rest) with ((v :: run) ++ rest).
  rewrite (firstIndex_skip (fun u => negb (p u))) by assumption.
  destruct Hrest as [-> | (u & rest' & -> & Hu)].
  - cbn [firstIndex option_map]. rewrite app_nil_r, !length_app. reflexivity.
  - cbn [firstIndex]. rewrite Hu. cbn [negb option_map].
    now rewrite Nat.add_0_r.
Qed.

(** The raw amplitude of a row is the length of its first run of light
    samples over its width, whatever follows the run. *)
Theorem rowAmplitude_first_light_run threshold pre run rest :
  Forall (fun v => v <= threshold) pre ->
  Forall (fun v => threshold < v) run -> run <> [] ->
  (rest = [] \/ exists v rest', rest = v :: rest' /\ v <= threshold) ->
  let row := pre ++ run ++ rest in
  rowEdges row (length row) 0 threshold
  = (Z.of_nat (length pre), Z.of_nat (length pre + length run)) /\
  rowAmplitude row (length row) 0 threshold
  == inject_Z (Z.of_nat (length run)) / inject_Z (Z.of_nat (length row)).
Proof.
  intros Hpre Hrun Hne Hrest row.
  assert (He : polarityEdges threshold row
               = Some (length pre, (length pre + length run)%nat)).
  { unfold polarityEdges, row. rewrite edgesSpec_run; try assumption; [reflexivity | | |].
    - apply Forall_forall. intros v Hv. rewrite Forall_forall in Hpre.
      unfold light. apply Qltb_ge. now apply Hpre.
    - apply Forall_forall. intros v Hv. rewrite Forall_forall in Hrun.
      unfold light. apply Qltb_lt. now apply Hrun.
    - destruct Hrest as [-> | (v & rest' & -> & Hv)]; [now left | right].
      exists v, rest'. split; [reflexivity|]. unfold light. now apply Qltb_ge. }
  split.
  - now rewrite rowEdges_row, He.
  - rewrite (rowAmplitude_row threshold row _ _ He).
    replace (Z.of_nat (length pre + length run) - Z.of_nat (length pre))%Z
      with (Z.of_nat (length run)) by lia.
    reflexivity.
Qed.

Lemma rowAmplitude_first_light_run_witness :
  rowAmplitude ([0; 1] ++ [9; 8; 7] ++ [2; 9; 0]) 8 0 5
  == inject_Z (Z.of_nat 3) / inject_Z (Z.of_nat 8).
Proof.
  pose proof (rowAmplitude_first_light_run 5 [0; 1] [9; 8; 7] [2; 9; 0]) as H.
  cbv zeta in H. apply H.
  - repeat constructor; vm_compute; discriminate.
  - repeat constructor; vm_compute; reflexivity.
  - discriminate.
  - right. exists 2, [9; 0]. split; [reflexivity|]. vm_compute. discriminate.
Defined.

(** A row without any light sample has the same raw amplitude as a row that
    is all light: 1. *)
Theorem rowAmplitude_uniform_polarity threshold row :
  row <> [] ->
  Forall (fun v => v <= threshold) row \/ Forall (fun v => threshold < v) row ->
  rowEdges row (length row) 0 threshold = (0%Z, Z.of_nat (length row)) /\
  rowAmplitude row (length row) 0 threshold == 1.
Proof.
  intros Hne Hrow.
  assert (He : polarityEdges threshold row = Some (0%nat, length row)).
  { unfold polarityEdges. destruct Hrow as [Hdark | Hlight].
    - assert (Hl : edgesSpec (light threshold) row = None).
      { unfold edgesSpec. rewrite firstIndex_all_false; [reflexivity|].
        apply Forall_forall. intros v Hv. rewrite Forall_forall in Hdark.
        unfold light. apply Qltb_ge. now apply Hdark. }
      rewrite Hl.
      pose proof (edgesSpec_run (dark threshold) [] row []) as H.
      cbn [app length Nat.add] in H. rewrite app_nil_r in H. apply H; auto.
      apply Forall_forall. intros v Hv. rewrite Forall_forall in Hdark.
      unfold dark. apply Qle_bool_iff. now apply Hdark.
    - pose proof (edgesSpec_run (light threshold) [] row []) as H.
      cbn [app length Nat.add] in H. rewrite app_nil_r in H. rewrite H; auto.
      apply Forall_forall. intros v Hv. rewrite Forall_forall in Hlight.
      unfold light. apply Qltb_lt. now apply Hlight. }
  split.
  - now rewrite rowEdges_row, He.
  - rewrite (rowAmplitude_row threshold row _ _ He).
    rewrite Z.sub_0_r. field.
    pose proof (length_pos_Q row Hne) as Hpos. intros E. rewrite E in Hpos.
    now apply Qlt_irrefl in Hpos.
Qed.

Lemma rowAmplitude_uniform_polarity_witness :
  rowAmplitude [1; 2; 3] (length [1; 2; 3]) 0 5 == 1.
Proof.
  apply (rowAmplitude_uniform_polarity 5 [1; 2; 3]).
  - discriminate.
  - left. repeat constructor; vm_compute; discriminate.
Defined.

(** ** normalizeWaveform and movingAverage *)

(** A waveform that is not constant is mapped onto [[-1, 1]]: every value
    lies in it, a sample at the minimum goes to -1 and a sample at the
    maximum to 1 (so both ends are reached), and the order of any two
    samples is kept; a constant waveform is mapped to zeros. *)
Theorem normalizeWaveform_spans data mn mx :
  minOf data = Some mn -> maxOf data = Some mx ->
  (mn < mx ->
   Forall (fun v => -(1) <= v <= 1) (normalizeWaveform data) /\
   (forall i, (i < length data)%nat ->
      (nth i data 0 == mn -> nth i (normalizeWaveform data) 0 == -(1)) /\
      (nth i data 0 == mx -> nth i (normalizeWaveform data) 0 == 1)) /\
   In (-(1)) (normalizeWaveform data) /\ In 1 (normalizeWaveform data) /\
   (forall i j, (i < length data)%nat -> (j < length data)%nat ->
      nth i data 0 <= nth j data 0 ->
      nth i (normalizeWaveform data) 0 <= nth j (normalizeWaveform data) 0)) /\
  (mx == mn -> normalizeWaveform data = repeat 0 (length data)).
Proof.
  intros Hmn Hmx. split.
  - intros Hlt. split; [apply normalizeWaveform_range|].
    destruct data as [|v0 g]; [discriminate|].
    destruct (minOf_spec v0 g) as (mn' & Emn & Hinmn & _).
    destruct (maxOf_spec v0 g) as (mx' & Emx & Hinmx & _).
    rewrite Emn in Hmn. rewrite Emx in Hmx.
    injection Hmn as ->. injection Hmx as ->.
    assert (Hne : ~ mx - mn == 0) by (intros E; lra).
    assert (Hpos : 0 < mx - mn) by lra.
    assert (En : normalizeWaveform (v0 :: g)
                 = map (fun v => fstore (((v - mn) / (mx - mn)) * 2 - 1)) (v0 :: g)).
    { unfold normalizeWaveform. rewrite Emn, Emx.
      destruct (Qeq_bool (mx - mn) 0) eqn:E; [|reflexivity].
      apply Qeq_bool_iff in E. contradiction. }
    assert (Enth : forall i, (i < length (v0 :: g))%nat ->
                   nth i (normalizeWaveform (v0 :: g)) 0
                   == (nth i (v0 :: g) 0 - mn) / (mx - mn) * 2 - 1).
    { intros i Hi. rewrite En.
      rewrite (nth_indep _ 0 (fstore (((0 - mn) / (mx - mn)) * 2 - 1)))
        by now rewrite length_map.
      rewrite (map_nth (fun v => fstore (((v - mn) / (mx - mn)) * 2 - 1))).
      apply fstore_eq. }
    split; [|split; [|split]].
    + intros i Hi. rewrite (Enth i Hi). split; intros ->; field; assumption.
    + rewrite En. apply in_map_iff. exists mn. split; [|assumption].
      rewrite (fstore_complete _ (-(1))); [reflexivity|]. field. assumption.
    + rewrite En. apply in_map_iff. exists mx. split; [|assumption].
      rewrite (fstore_complete _ 1); [reflexivity|]. field. assumption.
    + intros i j Hi Hj Hle. rewrite (Enth i Hi), (Enth j Hj).
      assert (H : (nth i (v0 :: g) 0 - mn) / (mx - mn)
                  <= (nth j (v0 :: g) 0 - mn) / (mx - mn)).
      { apply Qle_shift_div_l; [assumption|].
        setoid_replace ((nth i (v0 :: g) 0 - mn) / (mx - mn) * (mx - mn))
          with (nth i (v0 :: g) 0 - mn) by (field; assumption).
        lra. }
      lra.
  - intros Heq. unfold normalizeWaveform. rewrite Hmn, Hmx.
    assert (E : Qeq_bool (mx - mn) 0 = true) by (apply Qeq_bool_iff; lra).
    now rewrite E.
Qed.

Lemma normalizeWaveform_spans_witness :
  In 1 (normalizeWaveform [1 # 4; 3 # 4; 1 # 2]).
Proof.
  pose proof (normalizeWaveform_spans [1 # 4; 3 # 4; 1 # 2] (1 # 4) (3 # 4)
                eq_refl eq_refl) as [H _].
  apply H. reflexivity.
Defined.

(** Smoothing keeps the length and never leaves the range of its input: a
    sequence within [[lo, hi]] stays within [[lo, hi]], so a constant
    sequence is unchanged. *)
Theorem movingAverage_stays_in_range data windowSize lo hi :
  Forall (fun v => lo <= v <= hi) data ->
  length (movingAverage data windowSize) = length data /\
  Forall (fun v => lo <= v <= hi) (movingAverage data windowSize) /\
  (lo == hi -> movingAverage data windowSize = repeat (fstore lo) (length data)).
Proof.
  intros Hall. split; [apply length_movingAverage|].
  pose proof (movingAverage_between lo hi data windowSize Hall) as Hb.
  split; [assumption|].
  intros Heq. rewrite <- (length_movingAverage data windowSize).
  apply Forall_eq_repeat. apply Forall_forall. intros v Hv.
  rewrite Forall_forall in Hb. destruct (Hb v Hv) as [H1 H2].
  unfold movingAverage in Hv. apply in_map_iff in Hv.
  destruct Hv as (i & <- & _).
  rewrite <- (fstore_idem (fst _ / _)). apply fstore_complete.
  rewrite fstore_eq in H1, H2. rewrite fstore_eq. lra.
Qed.

Lemma movingAverage_stays_in_range_witness :
  Forall (fun v => 0 <= v <= 4) (movingAverage [0; 4; 0; 4; 1; 2; 3] 5).
Proof.
  apply (movingAverage_stays_in_range [0; 4; 0; 4; 1; 2; 3] 5 0 4).
  repeat constructor; vm_compute; discriminate.
Defined.

(** ** Regions whose rows are all alike *)

Section EqualRows.
Variables (data : list Q) (w h r x : nat).
Hypothesis Hrows : rowsEqual data w h.
Hypothesis Hh : (0 < h)%nat.
Hypothesis Hx : (x < w)%nat.

Let inner (y : nat) (acc : Q * Z) (ky : Z) : Q * Z :=
  fold_left (fun acc kx => blurStep data w h y x ky kx acc) (kernel r) acc.

(** On a row inside the field a kernel step reads what it reads on row 0. *)
Lemma blurStep_any_row y ky kx acc :
  (0 <= Z.of_nat y + ky < Z.of_nat h)%Z ->
  blurStep data w h y x ky kx acc = blurStep data w h 0 x 0 kx acc.
Proof.
  intros Hny. unfold blurStep.
  replace ((0 <=? Z.of_nat y + ky) && (Z.of_nat y + ky <? Z.of_nat h))%Z
    with true
    by (symmetry; apply andb_true_iff; split;
        [apply Z.leb_le | apply Z.ltb_lt]; lia).
  replace ((0 <=? Z.of_nat 0 + 0) && (Z.of_nat 0 + 0 <? Z.of_nat h))%Z
    with true
    by (symmetry; apply andb_true_iff; split;
        [apply Z.leb_le | apply Z.ltb_lt]; lia).
  cbn [andb].
  destruct ((0 <=? Z.of_nat x + kx) && (Z.of_nat x + kx <? Z.of_nat w))%Z eqn:E;
    [|reflexivity].
  apply andb_true_iff in E. destruct E as [E1 E2].
  apply Z.leb_le in E1. apply Z.ltb_lt in E2.
  f_equal. f_equal.
  replace (Z.to_nat ((Z.of_nat y + ky) * Z.of_nat w + (Z.of_nat x + kx)))
    with (Z.to_nat (Z.of_nat y + ky) * w + Z.to_nat (Z.of_nat x + kx))%nat by nia.
  replace (Z.to_nat ((Z.of_nat 0 + 0) * Z.of_nat w + (Z.of_nat x + kx)))
    with (Z.to_nat (Z.of_nat x + kx)) by lia.
  apply Hrows; lia.
Qed.

Lemma blurStep_outside_row y ky kx acc :
  ~ (0 <= Z.of_nat y + ky < Z.of_nat h)%Z ->
  blurStep data w h y x ky kx acc = acc.
Proof.
  intros Hny. unfold blurStep.
  destruct (Z.leb_spec 0 (Z.of_nat y + ky)); [|reflexivity].
  destruct (Z.ltb_spec (Z.of_nat y + ky) (Z.of_nat h)); [lia | reflexivity].
Qed.

Lemma inner_any_row y ky acc :
  (0 <= Z.of_nat y + ky < Z.of_nat h)%Z -> inner y acc ky = inner 0 acc 0%Z.
Proof.
  intros Hny. unfold inner. apply fold_left_ext_in.
  intros a kx _. now apply blurStep_any_row.
Qed.

Lemma inner_outside_row y ky acc :
  ~ (0 <= Z.of_nat y + ky < Z.of_nat h)%Z -> inner y acc ky = acc.
Proof.
  intros Hny. unfold inner. generalize (kernel r). intros l.
  induction l as [|kx l IH]; cbn [fold_left]; [reflexivity|].
  now rewrite blurStep_outside_row.
Qed.

(** The pass over row 0 adds the same sum and count to any accumulator. *)
Lemma inner_shift l : forall acc,
  let f := fun acc kx => blurStep data w h 0 x 0 kx acc in
  fst (fold_left f l acc) == fst acc + fst (fold_left f l (0%Q, 0%Z)) /\
  snd (fold_left f l acc) = (snd acc + snd (fold_left f l (0%Q, 0%Z)))%Z.
Proof.
  induction l as [|kx l IH]; intros acc f; cbn [fold_left].
  - cbn [fst snd]. split; [ring | lia].
  - fold f in IH.
    destruct (IH (f acc kx)) as [H1 H2].
    destruct (IH (f (0%Q, 0%Z) kx)) as [H3 H4].
    assert (Hs : fst (f acc kx) == fst acc + fst (f (0%Q, 0%Z) kx) /\
                 snd (f acc kx) = (snd acc + snd (f (0%Q, 0%Z) kx))%Z).
    { unfold f, blurStep. destruct (_ && _); cbn [fst snd]; split;
        try ring; lia. }
    destruct Hs as [Hs1 Hs2].
    split.
    + rewrite H1, H3, Hs1. ring.
    + rewrite H2, H4, Hs2. lia.
Qed.

(** Every row of the blurred field has, at column [x], the value that row 0
    has there. *)
Lemma blurAt_any_row y :
  (y < h)%nat -> blurAt data w h r y x == blurAt data w h r 0 x.
Proof.
  intros Hy.
  set (S0 := fst (inner 0 (0%Q, 0%Z) 0%Z)).
  set (C0 := snd (inner 0 (0%Q, 0%Z) 0%Z)).
  assert (Hgen : forall y', (y' < h)%nat ->
            exists m, (0 < m)%Z /\ (0 < C0)%Z /\
              fst (fold_left (inner y') (kernel r) (0%Q, 0%Z)) == inject_Z m * S0 /\
              snd (fold_left (inner y') (kernel r) (0%Q, 0%Z)) = (m * C0)%Z).
  { intros y' Hy'.
    assert (HC : (0 <= C0)%Z).
    { unfold C0, inner. change 0%Z with (snd (0%Q, 0%Z)) at 1.
      apply fold_count_mono. intros; apply blurStep_count. }
    assert (Hinv : exists m, (0 <= m)%Z /\
              fst (fold_left (inner y') (kernel r) (0%Q, 0%Z)) == inject_Z m * S0 /\
              snd (fold_left (inner y') (kernel r) (0%Q, 0%Z)) = (m * C0)%Z).
    { apply (fold_invariant (inner y')
               (fun acc => exists m, (0 <= m)%Z /\ fst acc == inject_Z m * S0 /\
                                     snd acc = (m * C0)%Z)).
      - intros a ky _ (m & Hm & Ha1 & Ha2).
        destruct (Z_le_dec 0 (Z.of_nat y' + ky)) as [L1 | L1];
          [destruct (Z_lt_dec (Z.of_nat y' + ky) (Z.of_nat h)) as [L2 | L2]|].
        + rewrite inner_any_row by lia.
          destruct (inner_shift (kernel r) a) as [H1 H2].
          exists (m + 1)%Z. split; [lia|]. unfold inner. split.
          * rewrite H1, Ha1, inject_Z_plus. fold (inner 0 (0%Q, 0%Z) 0%Z).
            fold S0. change (inject_Z 1) with 1. ring.
          * rewrite H2, Ha2. fold (inner 0 (0%Q, 0%Z) 0%Z). fold C0. lia.
        + rewrite inner_outside_row by lia. exists m. auto.
        + rewrite inner_outside_row by lia. exists m. auto.
      - exists 0%Z. cbn [fst snd]. split; [lia|]. split; [|lia].
        change (inject_Z 0) with 0. ring. }
    destruct Hinv as (m & Hm & H1 & H2).
    assert (Hpos : (0 < snd (fold_left (inner y') (kernel r) (0%Q, 0%Z)))%Z).
    { change 0%Z with (snd (0%Q, 0%Z)) at 1.
      apply fold_count_strict with (k0 := 0%Z).
      - intros a k. unfold inner. apply fold_count_mono.
        intros; apply blurStep_count.
      - apply kernel_centre.
      - intros a. unfold inner.
        apply fold_count_strict with (k0 := 0%Z);
          [intros; apply blurStep_count | apply kernel_centre |].
        intros a'. now apply blurStep_centre. }
    exists m. rewrite H2 in Hpos. repeat split; try assumption; nia. }
  destruct (Hgen y Hy) as (m & Hm & HC & H1 & H2).
  destruct (Hgen 0%nat Hh) as (m0 & Hm0 & _ & H3 & H4).
  unfold blurAt. fold (inner y) (inner 0%nat).
  rewrite H1, H2, H3, H4, !inject_Z_mult.
  assert (Qm : ~ inject_Z m == 0).
  { intros E. change 0 with (inject_Z 0) in E. rewrite inject_Z_injective in E. lia. }
  assert (Qm0 : ~ inject_Z m0 == 0).
  { intros E. change 0 with (inject_Z 0) in E. rewrite inject_Z_injective in E. lia. }
  assert (QC : ~ inject_Z C0 == 0).
  { intros E. change 0 with (inject_Z 0) in E. rewrite inject_Z_injective in E. lia. }
  field. auto.
Qed.
End EqualRows.

Lemma nth_map_default (f : Q -> Q) (l : list Q) i :
  (i < length l)%nat -> nth i (map f l) 0 = f (nth i l 0).
Proof.
  intros Hi. rewrite (nth_indep _ 0 (f 0)) by now rewrite length_map.
  apply map_nth.
Qed.

Lemma toGrayscale_crop_rowsEqual img b :
  identicalRows img b ->
  rowsEqual (toGrayscale (cropToROI img b))
            (Z.to_nat (roi_width b)) (Z.to_nat (roi_height b)).
Proof.
  intros Hid y x Hy Hx.
  set (w := Z.to_nat (roi_width b)) in *.
  set (h := Z.to_nat (roi_height b)) in *.
  assert (Hlen : (length (cropToROI img b) / 4 = w * h)%nat).
  { rewrite length_cropToROI. fold w h. apply Nat.div_mul. lia. }
  assert (Hcell : forall y' , (y' < h)%nat ->
            nth (y' * w + x) (toGrayscale (cropToROI img b)) 0
            = luminance (channelAt img b y' x 0) (channelAt img b y' x 1)
                        (channelAt img b y' x 2)).
  { intros y' Hy'. unfold toGrayscale. rewrite Hlen.
    rewrite nth_map_seq by nia.
    assert (Hi : (y' * w + x < w * h)%nat) by nia.
    pose proof (cropToROI_pixel img b (y' * w + x) 0 Hi ltac:(lia)) as P0.
    pose proof (cropToROI_pixel img b (y' * w + x) 1 Hi ltac:(lia)) as P1.
    pose proof (cropToROI_pixel img b (y' * w + x) 2 Hi ltac:(lia)) as P2.
    fold w in P0, P1, P2.
    rewrite (cell_div w y' x Hx), (cell_mod w y' x Hx) in P0, P1, P2.
    rewrite Nat.add_0_r in P0.
    unfold luminance, chan. now rewrite P0, P1, P2. }
  rewrite (Hcell y Hy).
  change x with (0 * w + x)%nat at 4. rewrite (Hcell 0%nat) by lia.
  now rewrite !(Hid y x) by (fold w h; lia).
Qed.

Lemma stretchContrast_rowsEqual g w h :
  length g = (w * h)%nat -> rowsEqual g w h -> rowsEqual (stretchContrast g) w h.
Proof.
  intros Hlen Hrows. unfold stretchContrast.
  destruct g as [|v0 g]; [intros y x _ _; now destruct (y * w + x)%nat, x|].
  destruct (minOf_spec v0 g) as (mn & -> & _).
  destruct (maxOf_spec v0 g) as (mx & -> & _).
  destruct (Qeq_bool (mx - mn) 0); [assumption|].
  intros y x Hy Hx.
  rewrite !nth_map_default by (rewrite Hlen; nia).
  now rewrite Hrows.
Qed.

Lemma boxBlur_rowsEqual data w h r :
  length data = (w * h)%nat -> rowsEqual data w h ->
  rowsEqual (boxBlur data w h r) w h.
Proof.
  intros Hlen Hrows y x Hy Hx. unfold boxBlur. rewrite Hlen.
  rewrite !nth_map_seq by nia.
  destruct (Nat.ltb_spec (y * w + x) (w * h)); [|nia].
  destruct (Nat.ltb_spec x (w * h)); [|nia].
  rewrite (cell_div w y x Hx), (cell_mod w y x Hx).
  rewrite (Nat.div_small x w Hx), (Nat.mod_small x w Hx).
  apply fstore_complete.
  apply blurAt_any_row; [assumption | lia | assumption | assumption].
Qed.

Lemma rowOf_rowsEqual data w h y :
  length data = (w * h)%nat -> rowsEqual data w h -> (y < h)%nat ->
  rowOf data w y = rowOf data w 0.
Proof.
  intros Hlen Hrows Hy. apply nth_error_ext. intros k.
  destruct (Nat.lt_ge_cases k w) as [Hk | Hk].
  - rewrite !nth_error_rowOf by assumption.
    rewrite !(nth_error_nth' data 0) by (rewrite Hlen; nia).
    f_equal. cbn [Nat.mul Nat.add]. now apply Hrows.
  - unfold rowOf. rewrite !nth_error_firstn.
    destruct (Nat.ltb_spec k w); [lia | reflexivity].
Qed.

Lemma findBoundaries_rowsEqual data w h threshold :
  length data = (w * h)%nat -> rowsEqual data w h ->
  exists a, findBoundaries data w h threshold = repeat a h.
Proof.
  intros Hlen Hrows.
  exists (fstore (rowAmplitude (rowOf data w 0) w 0 threshold)).
  unfold findBoundaries. apply map_seq_const. intros y Hy.
  now rewrite rowAmplitude_rowOf, (rowOf_rowsEqual data w h y).
Qed.

(** A region whose rows are all alike (a track of constant width) has a
    constant raw waveform, so its extraction throws [NO_VARIATION] once it
    passes the size check. *)
Theorem identical_rows_no_variation img b :
  identicalRows img b ->
  (20 <= roi_width b)%Z -> (20 <= roi_height b)%Z ->
  (exists a, rawWaveform img b = repeat a (Z.to_nat (roi_height b))) /\
  extractWaveform img b = Throw NO_VARIATION.
Proof.
  intros Hid Hw Hh.
  set (w := Z.to_nat (roi_width b)).
  set (h := Z.to_nat (roi_height b)).
  assert (Hlen : length (toGrayscale (cropToROI img b)) = (w * h)%nat).
  { rewrite length_toGrayscale, length_cropToROI. fold w h.
    apply Nat.div_mul. lia. }
  assert (Hraw : exists a, rawWaveform img b = repeat a h).
  { unfold rawWaveform. fold w h.
    apply findBoundaries_rowsEqual.
    - now rewrite length_boxBlur, length_stretchContrast.
    - apply boxBlur_rowsEqual; [now rewrite length_stretchContrast|].
      apply stretchContrast_rowsEqual; [assumption|].
      now apply toGrayscale_crop_rowsEqual. }
  split; [exact Hraw|].
  destruct Hraw as (a & Ha). unfold extractWaveform.
  rewrite (size_check_passes _ Hw Hh), Ha.
  rewrite stdDevBelow_const; [reflexivity | unfold h; lia | reflexivity].
Qed.

Lemma identicalRowsb_spec img b :
  identicalRowsb img b = true -> identicalRows img b.
Proof.
  unfold identicalRowsb. intros H row col c Hrow Hcol Hc.
  rewrite forallb_forall in H.
  specialize (H row ltac:(apply in_seq; lia)).
  rewrite forallb_forall in H.
  specialize (H col ltac:(apply in_seq; lia)).
  rewrite forallb_forall in H.
  specialize (H c ltac:(apply in_seq; lia)).
  now apply Z.eqb_eq.
Qed.

Lemma identical_rows_no_variation_witness :
  extractWaveform (bandImage 20 20 (fun _ => 10%nat)) (fullRegion 20 20)
  = Throw NO_VARIATION.
Proof.
  apply (identical_rows_no_variation (bandImage 20 20 (fun _ => 10%nat))
           (fullRegion 20 20)).
  - apply identicalRowsb_spec. vm_compute. reflexivity.
  - vm_compute; congruence.
  - vm_compute; congruence.
Defined.

(** * AudioEngine *)

(** ** Resampling *)

Lemma floor_range (q : Q) (n : Z) :
  0 <= q -> q < inject_Z n -> (0 <= Qfloor q < n)%Z.
Proof.
  intros H0 Hn. split.
  - rewrite <- (Qfloor_Z 0). now apply Qfloor_resp_le.
  - rewrite Zlt_Qlt. apply Qle_lt_trans with q; [apply Qfloor_le | assumption].
Qed.

(** The position read for output sample [i] lies inside the waveform. *)
Lemma sourceIndex_range (len : Z) (i : nat) :
  (0 < len)%Z -> (i < targetSamples)%nat ->
  let sourceIndex :=
    (inject_Z (Z.of_nat i) / inject_Z (Z.of_nat targetSamples)) * inject_Z len in
  0 <= sourceIndex /\ sourceIndex < inject_Z len.
Proof.
  intros Hlen Hi sourceIndex.
  assert (HT : 0 < inject_Z (Z.of_nat targetSamples)) by reflexivity.
  assert (HL : 0 < inject_Z len).
  { change 0 with (inject_Z 0). now rewrite <- Zlt_Qlt. }
  assert (Hi0 : 0 <= inject_Z (Z.of_nat i)).
  { change 0 with (inject_Z 0). rewrite <- Zle_Qle. lia. }
  assert (Hi1 : inject_Z (Z.of_nat i) < inject_Z (Z.of_nat targetSamples)).
  { rewrite <- Zlt_Qlt. lia. }
  assert (Hr0 : 0 <= inject_Z (Z.of_nat i) / inject_Z (Z.of_nat targetSamples)).
  { apply Qle_shift_div_l; [assumption | lra]. }
  assert (Hr1 : inject_Z (Z.of_nat i) / inject_Z (Z.of_nat targetSamples) < 1).
  { apply Qlt_shift_div_r; [assumption | lra]. }
  unfold sourceIndex. split.
  - apply Qmult_le_0_compat; [assumption | lra].
  - setoid_replace (inject_Z len) with (1 * inject_Z len) at 2 by ring.
    apply Qmult_lt_compat_r; assumption.
Qed.

Lemma readSample_in_range lo hi data k :
  Forall (fun v => lo <= v <= hi) data ->
  (0 <= k < Z.of_nat (length data))%Z -> lo <= readSample data k <= hi.
Proof.
  intros Hall Hk. unfold readSample.
  destruct (Z.ltb_spec k 0); [lia|].
  rewrite Forall_forall in Hall. apply Hall, nth_In. lia.
Qed.

Lemma lerp_between lo hi a b t :
  lo <= a <= hi -> lo <= b <= hi -> 0 <= t <= 1 -> lo <= lerp a b t <= hi.
Proof.
  intros [Ha1 Ha2] [Hb1 Hb2] [Ht1 Ht2]. unfold lerp.
  assert (H1 : 0 <= (a - lo) * (1 - t)) by (apply Qmult_le_0_compat; lra).
  assert (H2 : 0 <= (b - lo) * t) by (apply Qmult_le_0_compat; lra).
  assert (H3 : 0 <= (hi - a) * (1 - t)) by (apply Qmult_le_0_compat; lra).
  assert (H4 : 0 <= (hi - b) * t) by (apply Qmult_le_0_compat; lra).
  split.
  - setoid_replace (a + (b - a) * t)
      with (lo + ((a - lo) * (1 - t) + (b - lo) * t)) by ring. lra.
  - setoid_replace (a + (b - a) * t)
      with (hi - ((hi - a) * (1 - t) + (hi - b) * t)) by ring. lra.
Qed.

Lemma resampleAt_between lo hi data i :
  data <> [] -> Forall (fun v => lo <= v <= hi) data ->
  (i < targetSamples)%nat -> lo <= resampleAt data i <= hi.
Proof.
  intros Hne Hall Hi. unfold resampleAt.
  assert (Hlen : (0 < Z.of_nat (length data))%Z).
  { destruct data; [congruence | simpl; lia]. }
  destruct (sourceIndex_range _ i Hlen Hi) as [H0 H1].
  set (src := inject_Z (Z.of_nat i) / inject_Z (Z.of_nat targetSamples)
              * inject_Z (Z.of_nat (length data))) in *.
  pose proof (floor_range src _ H0 H1) as Hf.
  pose proof (Qfloor_le src) as Hfl. pose proof (Qlt_floor src) as Hfu.
  rewrite inject_Z_plus in Hfu. change (inject_Z 1) with 1 in Hfu.
  apply lerp_between.
  - apply readSample_in_range; [assumption | lia].
  - apply readSample_in_range; [assumption | lia].
  - split; lra.
Qed.

(** [createAudioBuffer] of a non-empty waveform gives 1837 samples at
    44100 Hz; interpolation never leaves the range of the waveform, and the
    first sample is the first sample of the waveform. *)
Theorem createAudioBuffer_interpolates waveformData lo hi :
  waveformData <> [] -> Forall (fun v => lo <= v <= hi) waveformData ->
  let buffer := createAudioBuffer waveformData in
  length (channelData buffer) = 1837%nat /\
  sampleRate buffer = 44100%Z /\
  Forall (fun v => lo <= v <= hi) (channelData buffer) /\
  nth 0 (channelData buffer) 0 == nth 0 waveformData 0.
Proof.
  intros Hne Hall buffer. unfold buffer, createAudioBuffer.
  cbn [channelData sampleRate].
  split; [now rewrite length_map, length_seq|]. split; [reflexivity|]. split.
  - apply Forall_forall. intros v Hv. apply in_map_iff in Hv.
    destruct Hv as (i & <- & Hi). apply in_seq in Hi.
    rewrite fstore_eq. apply resampleAt_between; try assumption. lia.
  - rewrite nth_map_seq by (unfold targetSamples; lia).
    rewrite fstore_eq. unfold resampleAt.
    set (src := inject_Z (Z.of_nat 0) / inject_Z (Z.of_nat targetSamples)
                * inject_Z (Z.of_nat (length waveformData))).
    assert (Hsrc : src == 0) by (unfold src; change (inject_Z (Z.of_nat 0)) with 0;
                                 unfold Qdiv; ring).
    rewrite (Qfloor_comp _ _ Hsrc). change (Qfloor 0) with 0%Z.
    unfold lerp, readSample at 1. cbn [Z.ltb Z.compare Z.to_nat].
    rewrite Hsrc. change (inject_Z 0) with 0. ring.
Qed.

Lemma createAudioBuffer_interpolates_witness :
  Forall (fun v => -(1) <= v <= 1)
         (channelData (createAudioBuffer [1; -(1); 1 # 2])).
Proof.
  pose proof (createAudioBuffer_interpolates [1; -(1); 1 # 2] (-(1)) 1) as H.
  cbv zeta in H. apply H.
  - discriminate.
  - repeat constructor; vm_compute; discriminate.
Defined.

(** ** The WAV file *)

Lemma littleEndian_setUint32 v :
  littleEndian (setUint32 v) = (v mod 4294967296)%Z.
Proof.
  unfold setUint32. cbn [littleEndian].
  set (u := (v mod 4294967296)%Z).
  assert (Hu : (0 <= u < 4294967296)%Z) by (apply Z.mod_pos_bound; lia).
  clearbody u. Z.to_euclidean_division_equations. lia.
Qed.

Lemma littleEndian_setUint16 v :
  littleEndian (setUint16 v) = (v mod 65536)%Z.
Proof.
  unfold setUint16. cbn [littleEndian].
  set (u := (v mod 65536)%Z).
  assert (Hu : (0 <= u < 65536)%Z) by (apply Z.mod_pos_bound; lia).
  clearbody u. Z.to_euclidean_division_equations. lia.
Qed.

Lemma setUint16_bytes v : Forall (fun b => (0 <= b <= 255)%Z) (setUint16 v).
Proof.
  unfold setUint16. set (u := (v mod 65536)%Z).
  assert (Hu : (0 <= u < 65536)%Z) by (apply Z.mod_pos_bound; lia).
  clearbody u. repeat constructor; Z.to_euclidean_division_equations; lia.
Qed.

Lemma setUint32_bytes v : Forall (fun b => (0 <= b <= 255)%Z) (setUint32 v).
Proof.
  unfold setUint32. set (u := (v mod 4294967296)%Z).
  assert (Hu : (0 <= u < 4294967296)%Z) by (apply Z.mod_pos_bound; lia).
  clearbody u. repeat constructor; Z.to_euclidean_division_equations; lia.
Qed.

Lemma length_sampleBytes samples :
  length (sampleBytes samples) = (2 * length samples)%nat.
Proof.
  unfold sampleBytes. induction samples as [|s l IH]; [reflexivity|].
  cbn [flat_map length]. rewrite length_app, IH. cbn. lia.
Qed.

Lemma sampleBytes_at samples : forall i,
  (i < length samples)%nat ->
  bytesAt (2 * i) 2 (sampleBytes samples) = setInt16 (pcmValue (nth i samples 0)).
Proof.
  unfold bytesAt, sampleBytes.
  induction samples as [|s l IH]; intros i Hi; [simpl in Hi; lia|].
  destruct i as [|i].
  - reflexivity.
  - replace (2 * S i)%nat with (S (S (2 * i))) by lia.
    cbn [flat_map setInt16 setUint16 app skipn nth].
    apply IH. simpl in Hi. lia.
Qed.

Lemma sampleBytes_bytes samples :
  Forall (fun b => (0 <= b <= 255)%Z) (sampleBytes samples).
Proof.
  unfold sampleBytes. apply Forall_forall. intros b Hb.
  apply in_flat_map in Hb. destruct Hb as (s & _ & Hb).
  pose proof (setUint16_bytes (truncate (pcmValue s))) as H.
  rewrite Forall_forall in H. now apply H.
Qed.

(** The 44 bytes of the header, then the sample data. *)
Lemma encodeWAV_layout buffer :
  let n := Z.of_nat (length (channelData buffer)) in
  encodeWAV buffer
  = [82; 73; 70; 70]%Z ++ setUint32 (36 + n * 2)
    ++ [87; 65; 86; 69]%Z ++ [102; 109; 116; 32]%Z
    ++ setUint32 16 ++ setUint16 1 ++ setUint16 1
    ++ setUint32 (sampleRate buffer) ++ setUint32 (sampleRate buffer * 1 * 2)
    ++ setUint16 (1 * 2) ++ setUint16 16
    ++ [100; 97; 116; 97]%Z ++ setUint32 (n * 2)
    ++ sampleBytes (channelData buffer).
Proof. reflexivity. Qed.

(** The WAV file is 44 + 2n bytes long; its header announces a RIFF/WAVE
    file of that length with one channel of 16-bit PCM at the buffer's
    sample rate and 2n bytes of sample data. *)
Theorem encodeWAV_header buffer :
  let n := Z.of_nat (length (channelData buffer)) in
  let bytes := encodeWAV buffer in
  (36 + n * 2 < 4294967296)%Z -> (0 <= sampleRate buffer < 2147483648)%Z ->
  length bytes = (44 + 2 * length (channelData buffer))%nat /\
  Forall (fun b => (0 <= b <= 255)%Z) bytes /\
  bytesAt 0 4 bytes = writeString "RIFF" /\
  littleEndian (bytesAt 4 4 bytes) = (Z.of_nat (length bytes) - 8)%Z /\
  bytesAt 8 8 bytes = writeString "WAVEfmt " /\
  littleEndian (bytesAt 16 4 bytes) = 16%Z /\
  littleEndian (bytesAt 20 2 bytes) = 1%Z /\
  littleEndian (bytesAt 22 2 bytes) = 1%Z /\
  littleEndian (bytesAt 24 4 bytes) = sampleRate buffer /\
  littleEndian (bytesAt 28 4 bytes) = (sampleRate buffer * 2)%Z /\
  littleEndian (bytesAt 32 2 bytes) = 2%Z /\
  littleEndian (bytesAt 34 2 bytes) = 16%Z /\
  bytesAt 36 4 bytes = writeString "data" /\
  littleEndian (bytesAt 40 4 bytes) = (2 * n)%Z.
Proof.
  intros n bytes Hn Hrate.
  assert (Hlen : length bytes = (44 + 2 * length (channelData buffer))%nat).
  { unfold bytes. rewrite encodeWAV_layout. cbv zeta.
    rewrite !length_app, length_sampleBytes. reflexivity. }
  split; [exact Hlen|]. split.
  { unfold bytes. rewrite encodeWAV_layout. cbv zeta.
    repeat (apply Forall_app; split);
      try apply setUint32_bytes; try apply setUint16_bytes;
      try apply sampleBytes_bytes;
      repeat constructor; lia. }
  rewrite Hlen. unfold bytes. rewrite encodeWAV_layout. cbv zeta. fold n.
  repeat split; try reflexivity.
  - change (bytesAt 4 4 _) with (setUint32 (36 + n * 2)).
    rewrite littleEndian_setUint32, Z.mod_small by lia. lia.
  - change (bytesAt 24 4 _) with (setUint32 (sampleRate buffer)).
    rewrite littleEndian_setUint32, Z.mod_small by lia. reflexivity.
  - change (bytesAt 28 4 _) with (setUint32 (sampleRate buffer * 1 * 2)).
    rewrite littleEndian_setUint32, Z.mod_small by lia. lia.
  - change (bytesAt 40 4 _) with (setUint32 (n * 2)).
    rewrite littleEndian_setUint32, Z.mod_small by lia. lia.
Qed.

Lemma encodeWAV_header_witness :
  length (encodeWAV (createAudioBuffer threeSamples))
  = (44 + 2 * length (channelData (createAudioBuffer threeSamples)))%nat.
Proof.
  pose proof (encodeWAV_header (createAudioBuffer threeSamples)) as H.
  cbv zeta in H. apply H.
  - reflexivity.
  - split; [discriminate | reflexivity].
Defined.

(** ** The samples of the WAV file *)

Lemma getInt16_setUint16 z :
  (-32768 <= z <= 32767)%Z -> getInt16 (setUint16 z) = z.
Proof.
  intros Hz. unfold getInt16. rewrite littleEndian_setUint16.
  destruct (Z.ltb_spec (z mod 65536) 32768);
    Z.to_euclidean_division_equations; lia.
Qed.

Lemma truncate_range (a b : Z) q :
  (a <= 0 <= b)%Z -> inject_Z a <= q <= inject_Z b ->
  (a <= truncate q <= b)%Z.
Proof.
  intros Hab [Hq1 Hq2]. unfold truncate.
  destruct (Qltb q 0) eqn:E.
  - apply Qltb_lt in E. split.
    + rewrite <- (Qceiling_Z a). now apply Qceiling_resp_le.
    + apply Z.le_trans with 0%Z; [|lia].
      rewrite <- (Qceiling_Z 0). apply Qceiling_resp_le. now apply Qlt_le_weak.
  - apply Qltb_ge in E. split.
    + apply Z.le_trans with 0%Z; [lia|].
      rewrite <- (Qfloor_Z 0). now apply Qfloor_resp_le.
    + rewrite <- (Qfloor_Z b). now apply Qfloor_resp_le.
Qed.

Lemma truncate_Z z : truncate (inject_Z z) = z.
Proof.
  unfold truncate. destruct (Qltb (inject_Z z) 0); [apply Qceiling_Z | apply Qfloor_Z].
Qed.

Lemma truncate_comp p q : p == q -> truncate p = truncate q.
Proof.
  intros H. unfold truncate.
  assert (E : Qltb p 0 = Qltb q 0).
  { unfold Qltb. f_equal. destruct (Qle_bool 0 p) eqn:E1, (Qle_bool 0 q) eqn:E2;
      try reflexivity.
    - apply Qle_bool_iff in E1. rewrite H in E1. apply Qle_bool_iff in E1. congruence.
    - apply Qle_bool_iff in E2. rewrite <- H in E2. apply Qle_bool_iff in E2.
      congruence. }
  rewrite E. destruct (Qltb q 0); [now apply Qceiling_comp | now apply Qfloor_comp].
Qed.

(** The clipped sample. *)
Lemma clipped_range s :
  let c := jsMax (-(1)) (jsMin 1 s) in
  -(1) <= c <= 1 /\ (1 <= s -> c == 1) /\ (s <= -(1) -> c == -(1)) /\
  (-(1) <= s <= 1 -> c == s).
Proof.
  unfold jsMax, jsMin.
  destruct (Qltb s 1) eqn:E1.
  - apply Qltb_lt in E1. destruct (Qltb (-(1)) s) eqn:E2.
    + apply Qltb_lt in E2. repeat split; intros; lra.
    + apply Qltb_ge in E2. repeat split; intros; lra.
  - apply Qltb_ge in E1.
    assert (E2 : Qltb (-(1)) 1 = true) by reflexivity. rewrite E2.
    repeat split; intros; lra.
Qed.

Lemma pcmValue_range s :
  -(32768) <= pcmValue s <= 32767 /\
  (1 <= s -> pcmValue s == 32767) /\ (s <= -(1) -> pcmValue s == -(32768)) /\
  (0 <= s -> 0 <= pcmValue s) /\ (s <= 0 -> pcmValue s <= 0).
Proof.
  unfold pcmValue. destruct (clipped_range s) as (Hc & H1 & H2 & H3).
  cbv zeta in Hc, H1, H2, H3.
  set (c := jsMax (-(1)) (jsMin 1 s)) in *.
  destruct (Qltb c 0) eqn:E.
  - apply Qltb_lt in E.
    assert (Hs : s < 0).
    { destruct (Qlt_le_dec s 0) as [|Hs]; [assumption|].
      destruct (Qlt_le_dec s 1) as [Hs1 | Hs1].
      - rewrite H3 in E by lra. lra.
      - rewrite H1 in E by assumption. lra. }
    repeat split; intros; try lra;
      try (rewrite H2 by assumption; reflexivity).
  - apply Qltb_ge in E.
    assert (Hs : -(1) < s).
    { destruct (Qlt_le_dec (-(1)) s) as [|Hs]; [assumption|].
      rewrite H2 in E by assumption. lra. }
    repeat split; intros; try lra;
      try (rewrite H1 by assumption; reflexivity);
      try (rewrite H3 by lra; lra).
Qed.

Lemma encodeWAV_data buffer :
  encodeWAV buffer
  = firstn 44 (encodeWAV buffer) ++ sampleBytes (channelData buffer) /\
  length (firstn 44 (encodeWAV buffer)) = 44%nat.
Proof. split; reflexivity. Qed.

(** Sample [i] of the file, read as a signed 16-bit little-endian integer,
    is the integer part of the clipped sample scaled to 16 bits: it lies in
    [[-32768, 32767]], keeps the sign of the sample, and saturates at 32767
    for samples at or above 1 and at -32768 for samples at or below -1. *)
Theorem encodeWAV_sample buffer i :
  (i < length (channelData buffer))%nat ->
  let s := nth i (channelData buffer) 0 in
  let v := getInt16 (bytesAt (44 + 2 * i) 2 (encodeWAV buffer)) in
  v = truncate (pcmValue s) /\ (-32768 <= v <= 32767)%Z /\
  (1 <= s -> v = 32767%Z) /\ (s <= -(1) -> v = (-32768)%Z) /\
  (0 <= s -> (0 <= v)%Z) /\ (s <= 0 -> (v <= 0)%Z).
Proof.
  intros Hi s v.
  destruct (pcmValue_range s) as (Hr & Hhi & Hlo & Hpos & Hneg).
  assert (Ht : (-32768 <= truncate (pcmValue s) <= 32767)%Z).
  { apply truncate_range; [lia | exact Hr]. }
  assert (Ev : v = truncate (pcmValue s)).
  { unfold v. destruct (encodeWAV_data buffer) as [E L]. rewrite E.
    unfold bytesAt. rewrite skipn_app, L.
    replace (44 + 2 * i - 44)%nat with (2 * i)%nat by lia.
    rewrite (skipn_all2 (firstn 44 _)) by (rewrite L; lia).
    cbn [app]. fold (bytesAt (2 * i) 2 (sampleBytes (channelData buffer))).
    rewrite sampleBytes_at by assumption.
    unfold setInt16. fold s. now apply getInt16_setUint16. }
  rewrite Ev. split; [reflexivity|]. split; [exact Ht|].
  split; [|split; [|split]].
  - intros H. rewrite (truncate_comp _ _ (Hhi H)). apply (truncate_Z 32767).
  - intros H. rewrite (truncate_comp _ _ (Hlo H)). apply (truncate_Z (-32768)).
  - intros H. apply (truncate_range 0 32767); [lia|]. split; [now apply Hpos | apply Hr].
  - intros H. apply (truncate_range (-32768) 0); [lia|]. split; [apply Hr | now apply Hneg].
Qed.

Lemma encodeWAV_sample_witness :
  getInt16 (bytesAt (44 + 2 * 1) 2
              (encodeWAV (mkAudioBuffer 44100 [3 # 2; -(1 # 2); 0])))
  = truncate (pcmValue (nth 1 (channelData (mkAudioBuffer 44100 [3 # 2; -(1 # 2); 0])) 0)).
Proof.
  apply (encodeWAV_sample (mkAudioBuffer 44100 [3 # 2; -(1 # 2); 0]) 1).
  cbn. lia.
Defined.

(** * ROISelector *)

Lemma isHandle_true handle name :
  isHandle handle name = true -> handle = Some name.
Proof.
  destruct handle as [h|]; cbn; [|discriminate].
  intros E. apply String.eqb_eq in E. now subst.
Qed.

(** ** Exact steps

    On integers of at most 32 bits every operation of the handlers is
    exact: the rounding does nothing. *)

Lemma int_plus x y a b :
  x == inject_Z a -> y == inject_Z b -> x + y == inject_Z (a + b).
Proof. intros -> ->. now rewrite inject_Z_plus. Qed.

Lemma int_minus x y a b :
  x == inject_Z a -> y == inject_Z b -> x - y == inject_Z (a - b).
Proof.
  intros -> ->. unfold Z.sub, Qminus. now rewrite inject_Z_plus, inject_Z_opp.
Qed.

Lemma int_mult x y a b :
  x == inject_Z a -> y == inject_Z b -> x * y == inject_Z (a * b).
Proof. intros -> ->. now rewrite inject_Z_mult. Qed.

Lemma int_double x a :
  x == inject_Z a -> (Z.abs a < 9007199254740992)%Z -> double x == inject_Z a.
Proof.
  intros Hx Ha. rewrite (double_comp x (inject_Z a) Hx).
  apply double_int. exact Ha.
Qed.

Lemma jsMax_Z x y a b :
  x == inject_Z a -> y == inject_Z b -> jsMax x y == inject_Z (Z.max a b).
Proof.
  intros Hx Hy. unfold jsMax. destruct (Qltb x y) eqn:E.
  - apply Qltb_lt in E. rewrite Hx, Hy, <- Zlt_Qlt in E.
    rewrite Hy. now rewrite Z.max_r by lia.
  - apply Qltb_ge in E. rewrite Hx, Hy, <- Zle_Qle in E.
    rewrite Hx. now rewrite Z.max_l by lia.
Qed.

Lemma jsMin_Z x y a b :
  x == inject_Z a -> y == inject_Z b -> jsMin x y == inject_Z (Z.min a b).
Proof.
  intros Hx Hy. unfold jsMin. destruct (Qltb y x) eqn:E.
  - apply Qltb_lt in E. rewrite Hx, Hy, <- Zlt_Qlt in E.
    rewrite Hy. now rewrite Z.min_r by lia.
  - apply Qltb_ge in E. rewrite Hx, Hy, <- Zle_Qle in E.
    rewrite Hx. now rewrite Z.min_l by lia.
Qed.

Lemma int_clamp x lo hi a b c :
  x == inject_Z a -> lo == inject_Z b -> hi == inject_Z c ->
  clamp x lo hi == inject_Z (Z.min (Z.max a b) c).
Proof.
  intros Hx Hlo Hhi. unfold clamp.
  apply jsMin_Z; [now apply jsMax_Z | assumption].
Qed.

Ltac int_eq :=
  lazymatch goal with
  | |- double _ == _ => eapply int_double; [int_eq | lia]
  | |- clamp _ _ _ == _ => eapply int_clamp; int_eq
  | |- _ + _ == _ => eapply int_plus; int_eq
  | |- _ - _ == _ => eapply int_minus; int_eq
  | |- _ * _ == _ => eapply int_mult; int_eq
  | |- _ => first [eassumption | reflexivity]
  end.

Lemma roiValid_int r W H a b c d :
  rx r == inject_Z a -> ry r == inject_Z b ->
  rwidth r == inject_Z c -> rheight r == inject_Z d ->
  roiValid r W H
  <-> (0 <= a /\ 0 <= b /\ 20 <= c /\ 20 <= d /\ a + c <= W /\ b + d <= H)%Z.
Proof.
  intros Ha Hb Hc Hd. unfold roiValid. rewrite Ha, Hb, Hc, Hd.
  rewrite <- !inject_Z_plus.
  change 0 with (inject_Z 0). change 20 with (inject_Z 20).
  rewrite <- !Zle_Qle. reflexivity.
Qed.

Lemma roi_of_Z r W H a b c d :
  rx r == inject_Z a -> ry r == inject_Z b ->
  rwidth r == inject_Z c -> rheight r == inject_Z d ->
  (0 <= a /\ 0 <= b /\ 20 <= c /\ 20 <= d /\ a + c <= W /\ b + d <= H)%Z ->
  (W <= 2147483648)%Z -> (H <= 2147483648)%Z ->
  roiValid r W H /\ integralRoi r.
Proof.
  intros Ha Hb Hc Hd Hv HW HH. split.
  - now apply (roiValid_int r W H a b c d).
  - repeat split; eexists; (split; [eassumption | lia]).
Qed.

(** A resize step on integers: from a valid saved region it gives a valid
    region, and leaves the edges that the handle does not move. *)
Lemma resizeRoi_valid handle r start W H dx dy ix iy :
  (W <= 2147483648)%Z -> (H <= 2147483648)%Z ->
  roiValid start W H -> integralRoi start ->
  roiValid r W H -> integralRoi r ->
  dx == inject_Z ix -> (Z.abs ix <= 4294967296)%Z ->
  dy == inject_Z iy -> (Z.abs iy <= 4294967296)%Z ->
  (movesLeft handle = false -> rx r = rx start) ->
  (movesTop handle = false -> ry r = ry start) ->
  let r' := resizeRoi handle r start (inject_Z W) (inject_Z H) dx dy in
  (roiValid r' W H /\ integralRoi r') /\
  (movesLeft handle = false -> rx r' = rx start) /\
  (movesTop handle = false -> ry r' = ry start).
Proof.
  intros HW HH Hstart ((a0 & Ea0 & Ba0) & (b0 & Eb0 & Bb0) & (c0 & Ec0 & Bc0)
                       & (d0 & Ed0 & Bd0)) Hr Hri Edx Bdx Edy Bdy Hleft Htop.
  apply (roiValid_int start W H a0 b0 c0 d0 Ea0 Eb0 Ec0 Ed0) in Hstart.
  unfold resizeRoi.
  destruct (isHandle handle "tl") eqn:Etl.
  { apply isHandle_true in Etl. subst handle. cbv zeta.
    split; [|split; intros E; discriminate E].
    eapply roi_of_Z; cbn [rx ry rwidth rheight];
      [int_eq | int_eq | int_eq | int_eq | lia | lia | lia]. }
  destruct (isHandle handle "tr") eqn:Etr.
  { apply isHandle_true in Etr. subst handle. cbv zeta.
    specialize (Hleft eq_refl).
    split; [|split; [intros _; exact Hleft | intros E; discriminate E]].
    eapply roi_of_Z; cbn [rx ry rwidth rheight]; rewrite ?Hleft;
      [int_eq | int_eq | int_eq | int_eq | lia | lia | lia]. }
  destruct (isHandle handle "bl") eqn:Ebl.
  { apply isHandle_true in Ebl. subst handle. cbv zeta.
    specialize (Htop eq_refl).
    split; [|split; [intros E; discriminate E | intros _; exact Htop]].
    eapply roi_of_Z; cbn [rx ry rwidth rheight]; rewrite ?Htop;
      [int_eq | int_eq | int_eq | int_eq | lia | lia | lia]. }
  destruct (isHandle handle "br") eqn:Ebr.
  { apply isHandle_true in Ebr. subst handle. cbv zeta.
    specialize (Hleft eq_refl). specialize (Htop eq_refl).
    split; [|split; intros _; assumption].
    eapply roi_of_Z; cbn [rx ry rwidth rheight]; rewrite ?Hleft, ?Htop;
      [int_eq | int_eq | int_eq | int_eq | lia | lia | lia]. }
  cbv zeta. auto.
Qed.

Lemma unit_scale W rect :
  (0 < W)%Z -> rect == inject_Z W -> inject_Z W / rect == inject_Z 1.
Proof.
  intros HW ->. change (inject_Z 1) with 1. field.
  intros E. change 0 with (inject_Z 0) in E. rewrite inject_Z_injective in E. lia.
Qed.

Lemma selectorStep_inv s e :
  eventOk (canvasWidth s) (canvasHeight s) e ->
  selectorInv s -> selectorInv (selectorStep s e).
Proof.
  intros He Hinv.
  pose proof Hinv as (HW & HH & BW & BH & Hroi & Hint & Hexcl & Hact & Hres).
  destruct e as [cx cy rectW rectH | cx cy | handle cx cy |];
    cbn [selectorStep eventOk] in *.
  - unfold handleMove.
    destruct (negb (isDragging s) && negb (isResizing s)) eqn:Eidle;
      [exact Hinv|].
    destruct He as ((p & Ep & Bp) & (q & Eq & Bq) & ErW & ErH).
    assert (Hactive : isDragging s = true \/ isResizing s = true).
    { destruct (isDragging s), (isResizing s); auto; discriminate. }
    destruct (Hact Hactive) as ((u & Eu & Bu) & (v & Ev & Bv) & Hstart & Hsint).
    pose proof Hint as ((a & Ea & Ba) & (b & Eb & Bb) & (c & Ec & Bc)
                        & (d & Ed & Bd)).
    pose proof Hroi as Hroi'.
    apply (roiValid_int _ _ _ a b c d Ea Eb Ec Ed) in Hroi'.
    pose proof (unit_scale (canvasWidth s) rectW ltac:(lia) ErW) as HsX.
    pose proof (unit_scale (canvasHeight s) rectH ltac:(lia) ErH) as HsY.
    assert (Edx : double (double (cx - dragStartX s)
                          * double (inject_Z (canvasWidth s) / rectW))
                  == inject_Z ((p - u) * 1)) by int_eq.
    assert (Edy : double (double (cy - dragStartY s)
                          * double (inject_Z (canvasHeight s) / rectH))
                  == inject_Z ((q - v) * 1)) by int_eq.
    cbv zeta.
    set (dx := double (double (cx - dragStartX s)
                       * double (inject_Z (canvasWidth s) / rectW))) in *.
    set (dy := double (double (cy - dragStartY s)
                       * double (inject_Z (canvasHeight s) / rectH))) in *.
    unfold selectorInv;
      cbn [canvasWidth canvasHeight selImage roi isDragging isResizing
           activeHandle roiStart dragStartX dragStartY].
    split; [assumption|]. split; [assumption|].
    split; [assumption|]. split; [assumption|].
    destruct (isDragging s) eqn:Ed'.
    + specialize (Hexcl eq_refl).
      pose proof Hsint as ((a0 & Ea0 & Ba0) & (b0 & Eb0 & Bb0) & _).
      assert (Hnew : roiValid
                       (mkRoi (clamp (double (rx (roiStart s) + dx)) 0
                                 (double (inject_Z (canvasWidth s) - rwidth (roi s))))
                              (clamp (double (ry (roiStart s) + dy)) 0
                                 (double (inject_Z (canvasHeight s) - rheight (roi s))))
                              (rwidth (roi s)) (rheight (roi s)))
                       (canvasWidth s) (canvasHeight s)
                     /\ integralRoi
                          (mkRoi (clamp (double (rx (roiStart s) + dx)) 0
                                    (double (inject_Z (canvasWidth s) - rwidth (roi s))))
                                 (clamp (double (ry (roiStart s) + dy)) 0
                                    (double (inject_Z (canvasHeight s) - rheight (roi s))))
                                 (rwidth (roi s)) (rheight (roi s)))).
      { eapply roi_of_Z; cbn [rx ry rwidth rheight];
          [int_eq | int_eq | int_eq | int_eq | lia | lia | lia]. }
      destruct Hnew as [Hv Hi].
      split; [exact Hv|]. split; [exact Hi|].
      split; [intros _; assumption|].
      split; [intros _; exact (Hact Hactive)|]. intros E. congruence.
    + destruct (isResizing s) eqn:Er; [|discriminate].
      destruct (Hres eq_refl) as (Hleft & Htop).
      destruct (resizeRoi_valid (activeHandle s) (roi s) (roiStart s)
                  (canvasWidth s) (canvasHeight s) dx dy
                  ((p - u) * 1) ((q - v) * 1)
                  BW BH Hstart Hsint Hroi Hint Edx ltac:(lia) Edy ltac:(lia)
                  Hleft Htop) as ((Hv & Hi) & Hl & Ht).
      cbv zeta in Hv, Hi, Hl, Ht.
      split; [exact Hv|]. split; [exact Hi|].
      split; [intros E; discriminate E|].
      split; [intros _; exact (Hact Hactive)|]. intros _. auto.
  - destruct He as (Hcx & Hcy).
    unfold startDrag, selectorInv;
      cbn [canvasWidth canvasHeight selImage roi isDragging isResizing
           activeHandle roiStart dragStartX dragStartY].
    repeat (split; [assumption|]).
    split; [intros _; reflexivity|].
    split; [intros _; auto|]. intros E; discriminate E.
  - destruct He as (Hcx & Hcy).
    unfold startResize, selectorInv;
      cbn [canvasWidth canvasHeight selImage roi isDragging isResizing
           activeHandle roiStart dragStartX dragStartY].
    repeat (split; [assumption|]).
    split; [intros E; discriminate E|].
    split; [intros _; auto|]. intros _. auto.
  - unfold endInteraction, selectorInv;
      cbn [canvasWidth canvasHeight selImage roi isDragging isResizing
           activeHandle roiStart dragStartX dragStartY].
    repeat (split; [assumption|]).
    split; [intros _; reflexivity|].
    split; [intros [E | E]; discriminate E|]. intros E; discriminate E.
Qed.

Lemma selectorStep_image s e : selImage (selectorStep s e) = selImage s.
Proof.
  destruct e; cbn [selectorStep]; try reflexivity.
  unfold handleMove.
  now destruct (negb (isDragging s) && negb (isResizing s)).
Qed.

Lemma selectorStep_canvas s e :
  canvasWidth (selectorStep s e) = canvasWidth s /\
  canvasHeight (selectorStep s e) = canvasHeight s.
Proof.
  destruct e; cbn [selectorStep]; try (split; reflexivity).
  unfold handleMove.
  now destruct (negb (isDragging s) && negb (isResizing s)).
Qed.

Lemma selectorSteps_image events s :
  selImage (fold_left selectorStep events s) = selImage s.
Proof.
  revert s. induction events as [|e events IH]; intros s; [reflexivity|].
  cbn [fold_left]. rewrite IH. apply selectorStep_image.
Qed.

Lemma selectorSteps_inv events : forall s,
  selectorInv s -> Forall (eventOk (canvasWidth s) (canvasHeight s)) events ->
  selectorInv (fold_left selectorStep events s).
Proof.
  induction events as [|e events IH]; intros s Hinv Hev; [assumption|].
  inversion Hev as [|e' events' He Hrest]; subst.
  cbn [fold_left]. apply IH.
  - now apply selectorStep_inv.
  - destruct (selectorStep_canvas s e) as [-> ->]. assumption.
Qed.

Lemma roiValid_Z a b c d W H :
  roiValid (mkRoi (inject_Z a) (inject_Z b) (inject_Z c) (inject_Z d)) W H
  <-> (0 <= a /\ 0 <= b /\ 20 <= c /\ 20 <= d /\ a + c <= W /\ b + d <= H)%Z.
Proof.
  unfold roiValid. cbn [rx ry rwidth rheight].
  rewrite <- !inject_Z_plus.
  change 0 with (inject_Z 0). change 20 with (inject_Z 20).
  rewrite <- !Zle_Qle. reflexivity.
Qed.

Lemma initial_roi_Z W H :
  Qfloor (inject_Z W * (5 # 100)) = (W * 5 / 100)%Z /\
  Qfloor (inject_Z H * (1 # 10)) = (H * 1 / 10)%Z /\
  Qfloor (inject_Z W * (12 # 100)) = (W * 12 / 100)%Z /\
  Qfloor (inject_Z H * (8 # 10)) = (H * 8 / 10)%Z.
Proof. repeat split. Qed.

Lemma initROISelector_roi s img :
  roi (initROISelector s img)
  = mkRoi (inject_Z (img_width img * 5 / 100))
          (inject_Z (img_height img * 1 / 10))
          (inject_Z (img_width img * 12 / 100))
          (inject_Z (img_height img * 8 / 10)).
Proof.
  destruct (initial_roi_Z (img_width img) (img_height img)) as (Ex & Ey & Ew & Eh).
  unfold initROISelector. cbn [roi]. now rewrite Ex, Ey, Ew, Eh.
Qed.

Lemma initROISelector_valid_iff s img :
  roiValid (roi (initROISelector s img)) (img_width img) (img_height img)
  <-> (167 <= img_width img /\ 25 <= img_height img)%Z.
Proof.
  rewrite initROISelector_roi, roiValid_Z.
  split; intros H; Z.to_euclidean_division_equations; lia.
Qed.

Lemma initROISelector_inv s img :
  isDragging s = false -> isResizing s = false ->
  (167 <= img_width img <= 2147483648)%Z ->
  (25 <= img_height img <= 2147483648)%Z ->
  selectorInv (initROISelector s img).
Proof.
  intros Hd Hr Hw Hh.
  assert (Hv : roiValid (roi (initROISelector s img))
                        (img_width img) (img_height img))
    by (apply initROISelector_valid_iff; lia).
  unfold selectorInv.
  split; [reflexivity|]. split; [reflexivity|].
  split; [cbn [initROISelector canvasWidth]; lia|].
  split; [cbn [initROISelector canvasHeight]; lia|].
  split; [exact Hv|]. split.
  - rewrite initROISelector_roi in *. apply roiValid_Z in Hv.
    repeat split; cbn [rx ry rwidth rheight];
      eexists; (split; [reflexivity | lia]).
  - unfold initROISelector. cbn [isDragging isResizing].
    split; [intros _; assumption|].
    split; [intros [E | E]; congruence|]. intros E; congruence.
Qed.

Lemma sampleEvents_ok : Forall (eventOk 400 300) sampleEvents.
Proof.
  unfold sampleEvents.
  repeat apply Forall_cons; try apply Forall_nil; cbn [eventOk];
    repeat split; try reflexivity; eexists; (split; [reflexivity | lia]).
Qed.

(** The region of a valid selector, floored by [getROIBounds], passes the
    size check of the extraction and lies inside the image. *)
Lemma getROIBounds_valid s :
  selectorInv s ->
  (20 <= roi_width (getROIBounds s))%Z /\
  (20 <= roi_height (getROIBounds s))%Z /\
  insideBuffer (selImage s) (getROIBounds s).
Proof.
  intros (HW & HH & _ & _ & (Rx & Ry & Rw & Rh & RW & RH) & _).
  rewrite HW in RW. rewrite HH in RH.
  unfold insideBuffer, getROIBounds. cbn [roi_x roi_y roi_width roi_height].
  pose proof (Qfloor_le (rx (roi s))). pose proof (Qfloor_le (ry (roi s))).
  pose proof (Qfloor_le (rwidth (roi s))). pose proof (Qfloor_le (rheight (roi s))).
  repeat split.
  - rewrite <- (Qfloor_Z 20). now apply Qfloor_resp_le.
  - rewrite <- (Qfloor_Z 20). now apply Qfloor_resp_le.
  - rewrite <- (Qfloor_Z 0). now apply Qfloor_resp_le.
  - rewrite <- (Qfloor_Z 0). now apply Qfloor_resp_le.
  - rewrite Zle_Qle, inject_Z_plus. lra.
  - rewrite Zle_Qle, inject_Z_plus. lra.
Qed.

(** With integer coordinates and the canvas displayed at its own size,
    whatever the user drags or resizes, a valid region stays valid: at
    least 20 x 20 and inside the canvas. *)
Theorem selector_keeps_roi_valid s events :
  selectorInv s ->
  Forall (eventOk (canvasWidth s) (canvasHeight s)) events ->
  selectorInv (fold_left selectorStep events s) /\
  roiValid (roi (fold_left selectorStep events s))
           (img_width (selImage s)) (img_height (selImage s)).
Proof.
  intros Hinv Hev.
  pose proof (selectorSteps_inv events s Hinv Hev) as H1.
  split; [assumption|].
  destruct H1 as (HW & HH & _ & _ & Hroi & _).
  rewrite <- (selectorSteps_image events s), <- HW, <- HH. exact Hroi.
Qed.

Lemma selector_keeps_roi_valid_witness :
  roiValid
    (roi (fold_left selectorStep sampleEvents
            (initROISelector selectorInitial (uniformImage 400 300 128))))
    (img_width (selImage (initROISelector selectorInitial (uniformImage 400 300 128))))
    (img_height (selImage (initROISelector selectorInitial (uniformImage 400 300 128)))).
Proof.
  apply (selector_keeps_roi_valid
           (initROISelector selectorInitial (uniformImage 400 300 128))
           sampleEvents).
  - apply initROISelector_inv; try reflexivity;
      unfold uniformImage; cbn [img_width img_height]; lia.
  - exact sampleEvents_ok.
Defined.

(** On a scaled canvas the displacements are not integers and the
    rounding shows: after a drag to x = 22.666666666666668 a resize from the
    top-left handle down to the minimum leaves a width of
    19.999999999999996, which [getROIBounds] floors to 19, and the
    extraction rejects the region. *)
Lemma scaled_resize_undercuts_minSize data :
  let img := mkImageData data 400 300 in
  let s := fold_left selectorStep scaledEvents
                     (initROISelector selectorInitial img) in
  rwidth (roi s) < 20 /\
  roi_width (getROIBounds s) = 19%Z /\
  extractWaveform (selImage s) (getROIBounds s) = Throw ROI_TOO_SMALL.
Proof.
  cbv zeta. split; [vm_compute; reflexivity|].
  split; [vm_compute; reflexivity|]. vm_compute. reflexivity.
Qed.

(** [initROISelector] gives the canvas the size of the image and places the
    region inside it; the region is valid (at least 20 x 20) exactly when
    the image is at least 167 wide and 25 high. *)
Theorem initROISelector_region s img :
  (0 <= img_width img)%Z -> (0 <= img_height img)%Z ->
  let s' := initROISelector s img in
  canvasWidth s' = img_width img /\ canvasHeight s' = img_height img /\
  selImage s' = img /\
  0 <= rx (roi s') /\ 0 <= ry (roi s') /\
  rx (roi s') + rwidth (roi s') <= inject_Z (img_width img) /\
  ry (roi s') + rheight (roi s') <= inject_Z (img_height img) /\
  (roiValid (roi s') (img_width img) (img_height img)
   <-> (167 <= img_width img /\ 25 <= img_height img)%Z).
Proof.
  intros HW HH s'.
  split; [reflexivity|]. split; [reflexivity|]. split; [reflexivity|].
  unfold s'. rewrite initROISelector_roi. cbn [rx ry rwidth rheight].
  rewrite <- !inject_Z_plus.
  change 0 with (inject_Z 0). rewrite <- !Zle_Qle.
  split; [Z.to_euclidean_division_equations; lia|].
  split; [Z.to_euclidean_division_equations; lia|].
  split; [Z.to_euclidean_division_equations; lia|].
  split; [Z.to_euclidean_division_equations; lia|].
  rewrite <- (initROISelector_roi s img). apply initROISelector_valid_iff.
Qed.

Lemma initROISelector_region_witness :
  roiValid (roi (initROISelector selectorInitial (uniformImage 400 300 128)))
           400 300.
Proof.
  pose proof (initROISelector_region selectorInitial (uniformImage 400 300 128))
    as H.
  cbv zeta in H.
  destruct H as (_ & _ & _ & _ & _ & _ & _ & Hiff);
    [unfold uniformImage; cbn [img_width]; lia
    |unfold uniformImage; cbn [img_height]; lia|].
  apply Hiff. unfold uniformImage; cbn [img_width img_height]. lia.
Defined.

(** The selection the app extracts from is acceptable when the gestures
    are exact: after [initROISelector] on an image of at least 167 x 25
    pixels and any sequence of drags and resizes with integer coordinates on
    a canvas displayed at its own size, [getROIBounds] is at least 20 x 20
    and inside the image, so the extraction returns a waveform with one
    sample per row of the selection or throws [NO_VARIATION], never
    [ROI_TOO_SMALL]. *)
Theorem selection_on_integers_is_extractable s0 img events :
  isDragging s0 = false -> isResizing s0 = false ->
  (167 <= img_width img <= 2147483648)%Z ->
  (25 <= img_height img <= 2147483648)%Z ->
  Forall (eventOk (img_width img) (img_height img)) events ->
  let s := fold_left selectorStep events (initROISelector s0 img) in
  let b := getROIBounds s in
  selImage s = img /\
  (20 <= roi_width b)%Z /\ (20 <= roi_height b)%Z /\ insideBuffer img b /\
  ((exists wf, extractWaveform img b = Return wf /\
               Z.of_nat (length wf) = roi_height b)
   \/ extractWaveform img b = Throw NO_VARIATION).
Proof.
  intros Hd Hr HW HH Hev s b.
  assert (Himg : selImage s = img).
  { unfold s. rewrite selectorSteps_image. reflexivity. }
  pose proof (selectorSteps_inv events _
                (initROISelector_inv s0 img Hd Hr HW HH) Hev) as Hinv.
  fold s in Hinv.
  destruct (getROIBounds_valid s Hinv) as (Hw20 & Hh20 & Hin).
  fold b in Hw20, Hh20, Hin. rewrite Himg in Hin.
  split; [assumption|]. split; [assumption|]. split; [assumption|].
  split; [assumption|]. now apply extractWaveform_outcomes.
Qed.

Lemma selection_on_integers_is_extractable_witness :
  (20 <= roi_width
           (getROIBounds
              (fold_left selectorStep sampleEvents
                 (initROISelector selectorInitial (uniformImage 400 300 128)))))%Z.
Proof.
  pose proof (selection_on_integers_is_extractable selectorInitial
                (uniformImage 400 300 128) sampleEvents) as H.
  cbv zeta in H. apply H; try reflexivity.
  - unfold uniformImage; cbn [img_width]; lia.
  - unfold uniformImage; cbn [img_height]; lia.
  - exact sampleEvents_ok.
Defined.

(** * EasterEggs *)

Lemma firstn_snoc {A} (l : list A) i x :
  nth_error l i = Some x -> firstn (S i) l = firstn i l ++ [x].
Proof.
  revert i. induction l as [|a l IH]; intros [|i] H; try discriminate.
  - injection H as ->. reflexivity.
  - cbn [nth_error] in H. change (firstn (S (S i)) (a :: l))
      with (a :: firstn (S i) l).
    rewrite (IH i H). reflexivity.
Qed.

Lemma typedCode_snoc typed c : typedCode typed -> typedCode (typed ++ [c]).
Proof.
  intros (pre & post & ->). exists pre, (post ++ [c]).
  now rewrite <- !app_assoc.
Qed.

Lemma keydown_inv s typed c :
  konamiInv s typed -> konamiInv (keydown s c) (typed ++ [c]).
Proof.
  destruct s as [i b]. intros (Hi & [pre Hpre] & Hact).
  cbn [konamiIndex cinemaModeActive] in Hi, Hpre, Hact.
  assert (Hreset : forall b', (b' = true -> typedCode (typed ++ [c])) ->
                              konamiInv (mkEggs 0 b') (typed ++ [c])).
  { intros b' Hb'. split; [cbn; lia|]. split; [|exact Hb'].
    exists (typed ++ [c]). cbn [konamiIndex firstn]. now rewrite app_nil_r. }
  unfold keydown. cbn [konamiIndex cinemaModeActive].
  destruct (nth_error konamiCode i) as [expected|] eqn:En.
  - destruct (String.eqb c expected) eqn:Ec.
    + apply String.eqb_eq in Ec. subst c.
      assert (Htyped : typed ++ [expected] = pre ++ firstn (S i) konamiCode).
      { rewrite (firstn_snoc _ _ _ En), Hpre. now rewrite <- app_assoc. }
      destruct (S i =? length konamiCode)%nat eqn:E10.
      * apply Nat.eqb_eq in E10. apply Hreset. intros _.
        exists pre, []. rewrite Htyped, E10, firstn_all. now rewrite app_nil_r.
      * apply Nat.eqb_neq in E10. split; [cbn [konamiIndex]; lia|].
        split; [exists pre; exact Htyped|].
        cbn [cinemaModeActive]. intros Hb. apply typedCode_snoc. now apply Hact.
    + apply Hreset. intros Hb. apply typedCode_snoc. now apply Hact.
  - apply Hreset. intros Hb. apply typedCode_snoc. now apply Hact.
Qed.

Lemma typeKeys_inv codes s typed :
  konamiInv s typed -> konamiInv (typeKeys s codes) (typed ++ codes).
Proof.
  revert s typed. induction codes as [|c codes IH]; intros s typed Hinv.
  - now rewrite app_nil_r.
  - unfold typeKeys. cbn [fold_left].
    replace (typed ++ c :: codes) with ((typed ++ [c]) ++ codes)
      by now rewrite <- app_assoc.
    apply IH. now apply keydown_inv.
Qed.

(** After any key the index is inside the code, whatever it was before:
    the next [konamiCode[konamiIndex]] of the listener is in range. *)
Theorem keydown_index_in_range s code :
  (konamiIndex (keydown s code) < length konamiCode)%nat.
Proof.
  destruct s as [i b]. unfold keydown. cbn [konamiIndex cinemaModeActive].
  destruct (nth_error konamiCode i) as [expected|] eqn:En; [|cbn; lia].
  assert (Hi : (i < length konamiCode)%nat)
    by (apply nth_error_Some; congruence).
  destruct (String.eqb code expected); [|cbn; lia].
  destruct (S i =? length konamiCode)%nat eqn:E10; [cbn; lia|].
  apply Nat.eqb_neq in E10. cbn [konamiIndex]. lia.
Qed.

(** The keyboard listener turns cinema mode on only if the ten keys of the
    code were typed one after another: from a state where the mode is off
    and no key of the code is pending, the mode is on after [codes] only if
    [codes] contains [konamiCode] as a block. *)
Theorem cinema_mode_needs_the_code s codes :
  konamiIndex s = 0%nat -> cinemaModeActive s = false ->
  cinemaModeActive (typeKeys s codes) = true -> typedCode codes.
Proof.
  intros Hi Hb Hon.
  assert (Hinv : konamiInv s []).
  { split; [rewrite Hi; cbn; lia|]. split; [exists []; now rewrite Hi|].
    congruence. }
  apply (typeKeys_inv codes) in Hinv. cbn [app] in Hinv.
  destruct Hinv as (_ & _ & H). now apply H.
Qed.

Lemma cinema_mode_needs_the_code_witness :
  typedCode ("KeyB" :: konamiCode ++ ["Enter"])%string.
Proof.
  apply (cinema_mode_needs_the_code (mkEggs 0 false)); reflexivity.
Defined.

(** Typing the code, starting when no key of it is pending, turns cinema
    mode on and leaves the listener ready for the next code.  The listener
    drops a key that does not fit instead of taking it as a first key: with
    one more [ArrowUp] in front, the same ten keys leave the mode as it
    was. *)
Theorem typing_the_code_activates s :
  konamiIndex s = 0%nat ->
  typeKeys s konamiCode = mkEggs 0 true /\
  typeKeys s ("ArrowUp"%string :: konamiCode) = mkEggs 0 (cinemaModeActive s).
Proof.
  destruct s as [i b]. cbn [konamiIndex cinemaModeActive]. intros ->.
  split; destruct b; reflexivity.
Qed.

Lemma typing_the_code_activates_witness :
  typeKeys (mkEggs 0 false) konamiCode = mkEggs 0 true.
Proof.
  apply (typing_the_code_activates (mkEggs 0 false)). reflexivity.
Defined.

Lemma magnitude_fold_comp wf wf' :
  Forall2 (fun a b => Qabs a == Qabs b) wf wf' ->
  forall acc acc', acc == acc' ->
  fold_left (fun acc val => double (acc + double (Qabs val * 100))) wf acc
  == fold_left (fun acc val => double (acc + double (Qabs val * 100))) wf' acc'.
Proof.
  induction 1 as [|a b wf wf' Hab _ IH]; intros acc acc' Hacc; [exact Hacc|].
  cbn [fold_left]. apply IH.
  assert (E : double (Qabs a * 100) = double (Qabs b * 100))
    by (apply double_comp; now rewrite Hab).
  rewrite E. rewrite (double_comp (acc + _) (acc' + double (Qabs b * 100)));
    [reflexivity | now rewrite Hacc].
Qed.

(** [checkSumOf42] looks at the magnitudes of the samples only: two
    waveforms whose samples differ in sign at most get the same answer. *)
Theorem checkSumOf42_ignores_signs wf wf' :
  Forall2 (fun a b => Qabs a == Qabs b) wf wf' ->
  checkSumOf42 wf = checkSumOf42 wf'.
Proof.
  intros H. unfold checkSumOf42, jsRound, magnitudeSum. cbv zeta.
  pose proof (magnitude_fold_comp wf wf' H 0 0 ltac:(reflexivity)) as E0.
  set (x := fold_left _ wf 0) in *. set (y := fold_left _ wf' 0) in *.
  assert (E : x + (1 # 2) == y + (1 # 2)) by (now rewrite E0).
  now rewrite (Qfloor_comp _ _ E).
Qed.

Lemma checkSumOf42_ignores_signs_witness :
  checkSumOf42 quietSamples = checkSumOf42 flippedSamples.
Proof.
  apply (checkSumOf42_ignores_signs quietSamples flippedSamples).
  unfold quietSamples, flippedSamples. repeat constructor.
Defined.

(** * The rounding against binary64

    On the computations where the last bit decides, [double] gives the
    numbers that the kernel's binary64 arithmetic gives. *)

Lemma classVariance_binary64 :
  map Binary64.ofFloat Binary64.variances
  = map Some [classVariance 8 0 1 3; classVariance 8 4 3 1;
              classVariance 250 50 1 1; classVariance 48 15 6 4;
              classVariance 554 153 3 2].
Proof. vm_compute. reflexivity. Qed.

Lemma handleMove_binary64 data :
  let s0 := initROISelector selectorInitial (mkImageData data 400 300) in
  Binary64.ofFloat Binary64.draggedX
  = Some (rx (roi (fold_left selectorStep (firstn 3 scaledEvents) s0))) /\
  Binary64.ofFloat Binary64.resizedWidth
  = Some (rwidth (roi (fold_left selectorStep scaledEvents s0))).
Proof. cbv zeta. split; vm_compute; reflexivity. Qed.

(** The sum of [checkSumOf42] on [tightSamples] is 41.5 - 9 / 2^72 in exact
    arithmetic and 41.5 in doubles, which [Math.round] takes to 42. *)
Lemma checkSumOf42_rounds_up :
  sumOf (map (fun v => Qabs v * 100) tightSamples) < 83 # 2 /\
  Binary64.ofFloat Binary64.tightSum = Some (magnitudeSum tightSamples) /\
  magnitudeSum tightSamples == 83 # 2 /\
  checkSumOf42 tightSamples = true.
Proof. repeat split; vm_compute; reflexivity. Qed.
